(** * CSVOptimizer: the meet-in-the-middle subset-sum optimizer

    A shallow embedding of [server/src/services/csvOptimizer.ts] (class
    [CSVOptimizer]) and of the two interfaces of [server/src/types/index.ts]
    it works on, followed by the properties of the optimizer.

    Conventions of the embedding.
    - A JavaScript [number] is modelled twice. In the first embedding it
      is an integer ([Z]): the optimizer where its arithmetic ([+], [-],
      comparisons) is exact; it carries the properties that rest on the
      structure of the code and on comparisons. In [Module Double] it is an
      IEEE 754 double, with rounding, [NaN] and the infinities; it carries the
      properties that depend on the arithmetic. The two embeddings agree on
      the rows of non-negative integers whose sum stays below [2^53] (lemma
      [optimizeRow_double]), and differ on decimals and on larger integers.
    - [1 << n] is the 32-bit shift of JavaScript: the shift count is taken
      modulo 32 and the result is wrapped to a signed 32-bit integer.
    - Reading a property of [undefined] ([sortedSums[mid].sum] with [mid]
      out of range) raises a [TypeError]; functions that can reach such an
      access return in the [result] monad.
    - The [while] loop of the binary search runs on fuel; running out of fuel
      is a distinct outcome, and the theorems show it never happens.
    - [Array.prototype.sort] is stable; on a comparator that is a total
      preorder its outcome is the unique stable ordering, computed here by a
      stable insertion sort. *)

From stdpp Require Import base tactics option list list_numbers sorting gmap.
From stdpp Require Import strings pretty.
From Stdlib Require Import ZArith Lia.
From Stdlib Require Import Floats.SpecFloat.

Local Open Scope Z_scope.

(** ** Outcomes of a call *)

Inductive result (A : Type) : Type :=
  | Ok (a : A)
  | TypeError
  | OutOfFuel.
Arguments Ok {A} a.
Arguments TypeError {A}.
Arguments OutOfFuel {A}.

Definition result_bind {A B} (f : A → result B) (m : result A) : result B :=
  match m with
  | Ok a => f a
  | TypeError => TypeError
  | OutOfFuel => OutOfFuel
  end.

#[global] Instance result_ret : MRet result := @Ok.
#[global] Instance result_mbind : MBind result := @result_bind.

(** [for (const x of xs) { st = body st x }] where the body may throw. *)
Fixpoint forOf {A S} (body : S → A → result S) (xs : list A) (st : S) : result S :=
  match xs with
  | [] => Ok st
  | x :: xs' => st' ← body st x; forOf body xs' st'
  end.

(** ** 32-bit integer operators of JavaScript *)

Definition toInt32 (z : Z) : Z := (z + 2 ^ 31) mod 2 ^ 32 - 2 ^ 31.

(** [a << n] *)
Definition shl (a n : Z) : Z := toInt32 (a * 2 ^ (n mod 32)).

(** [a & b] on values that already are 32-bit integers *)
Definition band (a b : Z) : Z := Z.land a b.

(** The indices [lo, lo+1, ..., hi-1] visited by
    [for (let i = lo; i < hi; i++)]. *)
Definition range (lo hi : Z) : list Z :=
  (λ k : nat, lo + Z.of_nat k) <$> seq 0 (Z.to_nat (hi - lo)).

(** ** Data model ([types/index.ts]) *)

Record CSVRow : Type := mkRow {
  bigNumber : Z;
  smallNumbers : list Z
}.

(** The anonymous object type [{sum: number, subset: number[]}]. *)
Module SubsetSum.
Record t : Type := mk { sum : Z; subset : list Z }.
End SubsetSum.

Module OptimizationResult.
Record t : Type := mk {
  selectedNumbers : list Z;
  sum : Z;
  originalRow : CSVRow
}.
End OptimizationResult.

(** ** Arrays *)

(** [xs[i]] for an integer [i]; [None] stands for [undefined]. *)
Definition at_index {A} (xs : list A) (i : Z) : option A :=
  if i <? 0 then None else xs !! Z.to_nat i.

(** [xs[i].field]: a [TypeError] when [xs[i]] is [undefined]. *)
Definition member {A} (xs : list A) (i : Z) : result A :=
  match at_index xs i with
  | Some x => Ok x
  | None => TypeError
  end.

(** [numbers[i]] where the value is used as a number: the loops below only
    read inside the array. *)
Definition num_at (numbers : list Z) (i : Z) : Z :=
  default 0 (at_index numbers i).

(** [xs.reduce((sum, num) => sum + num, 0)] *)
Definition reduce_sum (xs : list Z) : Z := fold_left (λ sum num, sum + num) xs 0.

(** [xs.sort(cmp)]: stable; [x] goes before the first [y] with
    [cmp x y <= 0]. *)
Fixpoint sort_insert {A} (cmp : A → A → Z) (x : A) (l : list A) : list A :=
  match l with
  | [] => [x]
  | y :: l' => if cmp x y <=? 0 then x :: l else y :: sort_insert cmp x l'
  end.

Definition js_sort {A} (cmp : A → A → Z) (l : list A) : list A :=
  foldr (sort_insert cmp) [] l.

(** ** The class [CSVOptimizer] *)

(** The two comparators of the source: [(a, b) => a.sum - b.sum] and
    [(a, b) => a - b]. *)
Definition bySum (a b : SubsetSum.t) : Z := SubsetSum.sum a - SubsetSum.sum b.
Definition byValue (a b : Z) : Z := a - b.

(** The test [mask & (1 << i)] of [generateAllSubsetSums]: a number is
    truthy when it is not zero. *)
Definition included (mask i : Z) : bool := bool_decide (band mask (shl 1 i) ≠ 0).

(** Body of the inner loop of [generateAllSubsetSums]: the state is
    [(subset, sum)]. *)
Definition pickStep (numbers : list Z) (mask : Z) (st : list Z * Z) (i : Z)
  : list Z * Z :=
  if included mask i
  then (st.1 ++ [num_at numbers i], st.2 + num_at numbers i)
  else st.

(** One iteration of the outer loop: the entry pushed for [mask]. *)
Definition subsetOfMask (numbers : list Z) (mask : Z) : SubsetSum.t :=
  let n := Z.of_nat (length numbers) in
  let st := fold_left (pickStep numbers mask) (range 0 n) ([], 0) in
  SubsetSum.mk st.2 st.1.

Definition generateAllSubsetSums (numbers : list Z) : list SubsetSum.t :=
  let n := Z.of_nat (length numbers) in
  subsetOfMask numbers <$> range 0 (shl 1 n).

(** The [while (left <= right)] loop of [findBestSum]; returns [bestIndex]. *)
Fixpoint searchLoop (fuel : nat) (sortedSums : list SubsetSum.t) (target : Z)
    (left right bestIndex : Z) : result Z :=
  if left <=? right then
    match fuel with
    | O => OutOfFuel
    | S fuel' =>
        let mid := (left + right) / 2 in
        e ← member sortedSums mid;
        if SubsetSum.sum e <=? target
        then searchLoop fuel' sortedSums target (mid + 1) right mid
        else searchLoop fuel' sortedSums target left (mid - 1) bestIndex
    end
  else Ok bestIndex.

Definition findBestSum (sortedSums : list SubsetSum.t) (target : Z)
  : result SubsetSum.t :=
  if decide (length sortedSums = 0%nat) then Ok (SubsetSum.mk 0 [])
  else
    let left := 0 in
    let right := Z.of_nat (length sortedSums) - 1 in
    let bestIndex := 0 in
    bestIndex ← searchLoop (length sortedSums) sortedSums target left right bestIndex;
    member sortedSums bestIndex.

(** Body of the combination loop of [findOptimalSubset]: the state is
    [(bestSum, bestCombination)]. *)
Definition combineStep (rightSums : list SubsetSum.t) (target : Z)
    (best : Z * list Z) (leftSum : SubsetSum.t) : result (Z * list Z) :=
  if SubsetSum.sum leftSum >? target then Ok best
  else
    let remaining := target - SubsetSum.sum leftSum in
    bestRightSum ← findBestSum rightSums remaining;
    let totalSum := SubsetSum.sum leftSum + SubsetSum.sum bestRightSum in
    if (totalSum <=? target) && (totalSum >? best.1)
    then Ok (totalSum, SubsetSum.subset leftSum ++ SubsetSum.subset bestRightSum)
    else Ok best.

Definition combineLoop (leftSums rightSums : list SubsetSum.t) (target : Z)
  : result (Z * list Z) :=
  forOf (combineStep rightSums target) leftSums (0, []).

Definition findOptimalSubset (numbers : list Z) (target : Z) : result (list Z) :=
  let n := length numbers in
  if decide (n = 0%nat) then Ok []
  else if decide (n = 1%nat) then
    Ok (if num_at numbers 0 <=? target then numbers else [])
  else
    let mid := (n / 2)%nat in
    let left := take mid numbers in
    let right := drop mid numbers in
    let leftSums := generateAllSubsetSums left in
    let rightSums := js_sort bySum (generateAllSubsetSums right) in
    best ← combineLoop leftSums rightSums target;
    Ok (js_sort byValue best.2).

Definition optimizeRow (row : CSVRow) : result OptimizationResult.t :=
  if decide (length (smallNumbers row) = 0%nat) then
    Ok (OptimizationResult.mk [] 0 row)
  else
    result ← findOptimalSubset (smallNumbers row) (bigNumber row);
    Ok (OptimizationResult.mk result (reduce_sum result) row).

(** [rows.map(row => this.optimizeRow(row))]: the first row that throws
    aborts the whole call. *)
Fixpoint optimizeAllRows (rows : list CSVRow) : result (list OptimizationResult.t) :=
  match rows with
  | [] => Ok []
  | row :: rows' =>
      r ← optimizeRow row;
      rs ← optimizeAllRows rows';
      Ok (r :: rs)
  end.

(** The [typeof ... === 'number'] and [Array.isArray] tests hold of every
    value of type [CSVRow]. *)
Definition validateRow (row : CSVRow) : bool :=
  (bigNumber row >? 0)
  && (length (smallNumbers row) <=? 12)%nat
  && forallb (λ num, num >? 0) (smallNumbers row).

(** ** The optimizer over a store of shared arrays

    The functions above compute on values. To speak about what a call does to
    the objects it is handed, the same code is embedded a second time over a
    store: an array or a row is a location of the heap, [numbers.slice],
    array literals and the spread [[...a, ...b]] allocate a fresh location,
    [push] and [sort] overwrite the array in place, and a variable that holds
    an array holds its location, so that two variables may alias. The store
    also logs the location of every array that [sort] was called on. *)

Module Mem.

Definition loc : Type := positive.

(** An object [{sum, subset}]: [subset] is a reference to an array. The
    code never assigns to a field of such an object, so it is a value. *)
Module SubsetSum.
Record t : Type := mk { sum : Z; subset : loc }.
End SubsetSum.

(** An [OptimizationResult] object: both the selection and the row are
    references. *)
Module OptimizationResult.
Record t : Type := mk { selectedNumbers : loc; sum : Z; originalRow : loc }.
End OptimizationResult.

Inductive cell : Type :=
  | NumArray (xs : list Z)
  | SumArray (es : list SubsetSum.t)
  | RowObj (bigNumber : Z) (smallNumbers : loc).

Record store : Type := mkStore {
  heap : gmap loc cell;
  sorted : list loc
}.

(** A computation on the store that may throw. *)
Definition M (A : Type) : Type := store → result (A * store).

Definition ret {A} (a : A) : M A := λ σ, Ok (a, σ).

Definition bind {A B} (f : A → M B) (m : M A) : M B :=
  λ σ, match m σ with
       | Ok (a, σ') => f a σ'
       | TypeError => TypeError
       | OutOfFuel => OutOfFuel
       end.

Definition throw {A} (e : result (A * store)) : M A := λ _, e.

(** A new object. *)
Definition alloc (c : cell) : M loc :=
  λ σ, let l := fresh (dom (heap σ)) in
       Ok (l, mkStore (<[l := c]> (heap σ)) (sorted σ)).

(** Reading an array or a row through a reference; the reference of a
    well-typed program always holds an object of the expected kind. *)
Definition readNums (l : loc) : M (list Z) :=
  λ σ, match heap σ !! l with
       | Some (NumArray xs) => Ok (xs, σ)
       | _ => TypeError
       end.

Definition readSums (l : loc) : M (list SubsetSum.t) :=
  λ σ, match heap σ !! l with
       | Some (SumArray es) => Ok (es, σ)
       | _ => TypeError
       end.

Definition readRow (l : loc) : M (Z * loc) :=
  λ σ, match heap σ !! l with
       | Some (RowObj bigNumber smallNumbers) => Ok ((bigNumber, smallNumbers), σ)
       | _ => TypeError
       end.

(** Overwriting an array in place. *)
Definition writeNums (l : loc) (xs : list Z) : M unit :=
  λ σ, match heap σ !! l with
       | Some (NumArray _) => Ok (tt, mkStore (<[l := NumArray xs]> (heap σ)) (sorted σ))
       | _ => TypeError
       end.

Definition writeSums (l : loc) (es : list SubsetSum.t) : M unit :=
  λ σ, match heap σ !! l with
       | Some (SumArray _) => Ok (tt, mkStore (<[l := SumArray es]> (heap σ)) (sorted σ))
       | _ => TypeError
       end.

Definition logSort (l : loc) : M unit :=
  λ σ, Ok (tt, mkStore (heap σ) (sorted σ ++ [l])).

#[global] Instance M_ret : MRet M := @ret.
#[global] Instance M_bind : MBind M := @bind.

(** [for (const x of xs) { ... }] with local variables [S]. *)
Fixpoint forEach {A S} (body : S → A → M S) (xs : list A) (st : S) : M S :=
  match xs with
  | [] => mret st
  | x :: xs' => st' ← body st x; forEach body xs' st'
  end.

(** [arr.push(v)] *)
Definition pushNum (arr : loc) (v : Z) : M unit :=
  xs ← readNums arr; writeNums arr (xs ++ [v]).

Definition pushSum (arr : loc) (e : SubsetSum.t) : M unit :=
  es ← readSums arr; writeSums arr (es ++ [e]).

(** [arr.slice(from, to)] *)
Definition slice (arr : loc) (from to : nat) : M loc :=
  xs ← readNums arr; alloc (NumArray (take (to - from) (drop from xs))).

(** [[...a, ...b]] *)
Definition spread (a b : loc) : M loc :=
  xs ← readNums a; ys ← readNums b; alloc (NumArray (xs ++ ys)).

(** [arr.sort((a, b) => a - b)] and [arr.sort((a, b) => a.sum - b.sum)]:
    in place; the call returns [arr] itself. *)
Definition sortNums (arr : loc) : M loc :=
  xs ← readNums arr; _ ← writeNums arr (js_sort byValue xs); _ ← logSort arr; mret arr.

Definition bySum (a b : SubsetSum.t) : Z := SubsetSum.sum a - SubsetSum.sum b.

Definition sortSums (arr : loc) : M loc :=
  es ← readSums arr; _ ← writeSums arr (js_sort bySum es); _ ← logSort arr; mret arr.

(** [sortedSums[i].sum]-style access *)
Definition memberSums (arr : loc) (i : Z) : M SubsetSum.t :=
  es ← readSums arr;
  match at_index es i with
  | Some e => mret e
  | None => throw TypeError
  end.

(** Body of the inner loop of [generateAllSubsetSums]; [sum] is the local
    variable, [subset] the array being filled. *)
Definition pickStep (numbers subset : loc) (mask : Z) (sum : Z) (i : Z) : M Z :=
  if included mask i then
    xs ← readNums numbers;
    _ ← pushNum subset (num_at xs i);
    mret (sum + num_at xs i)
  else mret sum.

(** Body of the outer loop. *)
Definition maskStep (numbers result : loc) (n : Z) (_ : unit) (mask : Z) : M unit :=
  subset ← alloc (NumArray []);
  sum ← forEach (pickStep numbers subset mask) (range 0 n) 0;
  pushSum result (SubsetSum.mk sum subset).

Definition generateAllSubsetSums (numbers : loc) : M loc :=
  result ← alloc (SumArray []);
  xs ← readNums numbers;
  let n := Z.of_nat (length xs) in
  _ ← forEach (maskStep numbers result n) (range 0 (shl 1 n)) tt;
  mret result.

Fixpoint searchLoop (fuel : nat) (sortedSums : loc) (target : Z)
    (left right bestIndex : Z) : M Z :=
  if left <=? right then
    match fuel with
    | O => throw OutOfFuel
    | S fuel' =>
        let mid := (left + right) / 2 in
        e ← memberSums sortedSums mid;
        if SubsetSum.sum e <=? target
        then searchLoop fuel' sortedSums target (mid + 1) right mid
        else searchLoop fuel' sortedSums target left (mid - 1) bestIndex
    end
  else mret bestIndex.

Definition findBestSum (sortedSums : loc) (target : Z) : M SubsetSum.t :=
  es ← readSums sortedSums;
  if decide (length es = 0%nat) then
    subset ← alloc (NumArray []);
    mret (SubsetSum.mk 0 subset)
  else
    bestIndex ← searchLoop (length es) sortedSums target 0 (Z.of_nat (length es) - 1) 0;
    memberSums sortedSums bestIndex.

Definition combineStep (rightSums : loc) (target : Z)
    (best : Z * loc) (leftSum : SubsetSum.t) : M (Z * loc) :=
  if SubsetSum.sum leftSum >? target then mret best
  else
    let remaining := target - SubsetSum.sum leftSum in
    bestRightSum ← findBestSum rightSums remaining;
    let totalSum := SubsetSum.sum leftSum + SubsetSum.sum bestRightSum in
    if (totalSum <=? target) && (totalSum >? best.1)
    then
      bestCombination ← spread (SubsetSum.subset leftSum) (SubsetSum.subset bestRightSum);
      mret (totalSum, bestCombination)
    else mret best.

Definition findOptimalSubset (numbers : loc) (target : Z) : M loc :=
  xs ← readNums numbers;
  let n := length xs in
  if decide (n = 0%nat) then alloc (NumArray [])
  else if decide (n = 1%nat) then
    if num_at xs 0 <=? target then mret numbers else alloc (NumArray [])
  else
    let mid := (n / 2)%nat in
    left ← slice numbers 0 mid;
    right ← slice numbers mid n;
    leftSums ← generateAllSubsetSums left;
    rightSums ← generateAllSubsetSums right;
    _ ← sortSums rightSums;
    bestCombination ← alloc (NumArray []);
    ls ← readSums leftSums;
    best ← forEach (combineStep rightSums target) ls (0, bestCombination);
    sortNums best.2.

Definition optimizeRow (row : loc) : M OptimizationResult.t :=
  '(bigNumber, smallNumbers) ← readRow row;
  xs ← readNums smallNumbers;
  if decide (length xs = 0%nat) then
    selectedNumbers ← alloc (NumArray []);
    mret (OptimizationResult.mk selectedNumbers 0 row)
  else
    result ← findOptimalSubset smallNumbers bigNumber;
    ys ← readNums result;
    mret (OptimizationResult.mk result (reduce_sum ys) row).

Definition validateRow (row : loc) : M bool :=
  '(bigNumber, smallNumbers) ← readRow row;
  xs ← readNums smallNumbers;
  mret ((bigNumber >? 0) && (length xs <=? 12)%nat && forallb (λ num, num >? 0) xs).

End Mem.

(** ** Notions used to state the properties *)

(** Sum of a list of numbers. *)
Definition sumZ (xs : list Z) : Z := foldr Z.add 0 xs.

(** The values of [xs] at the positions where the inclusion vector [bs]
    holds [true], in the order of [xs]. *)
Fixpoint select (bs : list bool) (xs : list Z) : list Z :=
  match bs, xs with
  | b :: bs', x :: xs' => if b then x :: select bs' xs' else select bs' xs'
  | _, _ => []
  end.

(** The inclusion vector of length [k] that the bits of [mask] denote. *)
Definition maskBits (k : nat) (mask : Z) : list bool :=
  Z.testbit mask <$> range 0 (Z.of_nat k).

(** The mask whose bit [i] is the [i]-th entry of [bs]. *)
Fixpoint maskOf (bs : list bool) : Z :=
  match bs with
  | [] => 0
  | b :: bs' => Z.b2z b + 2 * maskOf bs'
  end.

(** A call from the store [σ] returns, and its value and final store
    satisfy [Q]. *)
Definition wp {A} (m : Mem.M A) (σ : Mem.store) (Q : A → Mem.store → Prop) : Prop :=
  ∃ a σ', m σ = Ok (a, σ') ∧ Q a σ'.

(** In the heap [h] the object [e] stands for the value [pe]: same sum, and
    the array [e.subset] refers to holds the numbers of [pe]. *)
Definition repr (h : gmap Mem.loc Mem.cell) (e : Mem.SubsetSum.t) (pe : SubsetSum.t)
  : Prop :=
  Mem.SubsetSum.sum e = SubsetSum.sum pe
  ∧ h !! Mem.SubsetSum.subset e = Some (Mem.NumArray (SubsetSum.subset pe)).

(** The order [findBestSum] expects of its input: ascending by [sum]. *)
Definition sumLe (a b : SubsetSum.t) : Prop := SubsetSum.sum a ≤ SubsetSum.sum b.

(** Every selection of positions of [xs], as the list of the selected
    values: the brute-force enumeration of the [2^n] subsets by index. *)
Fixpoint allSubsets (xs : list Z) : list (list Z) :=
  match xs with
  | [] => [[]]
  | x :: xs' => allSubsets xs' ++ (cons x <$> allSubsets xs')
  end.

(** The sums of the subsets of [candidates] that do not exceed [target]. *)
Definition feasibleSums (target : Z) (candidates : list Z) : list Z :=
  filter (λ s, s ≤ target) (sumZ <$> allSubsets candidates).

(** A store with one row, [{bigNumber: 10, smallNumbers: [3, 3, 4, 4, 5]}],
    at location [1], its array at location [2]. *)
Definition exampleStore : Mem.store :=
  Mem.mkStore
    (<[2%positive := Mem.NumArray [3; 3; 4; 4; 5]]>
       (<[1%positive := Mem.RowObj 10 2%positive]> ∅))
    [].

(** ** The callers: [utils/csvParser.ts] and [routes/csvRoutes.ts]

    [CSVParser] turns the records of an uploaded file into rows, and the two
    route handlers run the optimizer on the rows they accept. The records are
    taken as the csv-parser library emits them, one list of cell strings per
    line ([Object.values(data)]). [String.prototype.trim] and [parseFloat]
    are parameters: [parseFloat] answers [None] for [NaN]. A handler is
    modelled by the one response it sends. *)

(** A call that may [throw new Error(message)]. *)
Inductive outcome (A : Type) : Type :=
  | Return (a : A)
  | Throw (message : string).
Arguments Return {A} a.
Arguments Throw {A} message.

(** [xs.map(f)] where [f] may throw: the first throw ends the call. *)
Fixpoint mapThrowing {A B} (f : A → outcome B) (xs : list A) : outcome (list B) :=
  match xs with
  | [] => Return []
  | x :: xs' =>
      match f x with
      | Throw message => Throw message
      | Return y =>
          match mapThrowing f xs' with
          | Throw message => Throw message
          | Return ys => Return (y :: ys)
          end
      end
  end.

Module CSVParser.
Section parser.
Context (trim : string → string) (parseFloat : string → option Z).

(** [val && val.trim() !== ''] *)
Definition nonBlank (val : string) : bool :=
  bool_decide (val ≠ "") && bool_decide (trim val ≠ "").

(** The callback of [.map] in [parseRow]. *)
Definition parseNumber (val : string) : outcome Z :=
  match parseFloat (trim val) with
  | None => Throw ("Invalid number: " +:+ val)
  | Some num =>
      if num <=? 0 then Throw ("Invalid number: " +:+ val) else Return num
  end.

(** [None] stands for [null]. *)
Definition parseRow (values : list string) : outcome (option CSVRow) :=
  match mapThrowing parseNumber (List.filter nonBlank values) with
  | Throw message => Throw message
  | Return numbers =>
      if (length numbers <? 1)%nat then Return None
      else
        match numbers with
        | [] => Return None
        | bigNumber :: smallNumbers =>
            if (12 <? length smallNumbers)%nat then
              Throw ("Too many small numbers: " +:+ pretty (length smallNumbers)
                     +:+ " (max: 12)")
            else Return (Some (mkRow bigNumber smallNumbers))
        end
  end.

(** The ['data'] handler of [parseCSV]: a row is pushed, [null] and a throw
    leave [results] as they are (the throw is caught and logged). *)
Definition onData (results : list CSVRow) (data : list string) : list CSVRow :=
  match parseRow data with
  | Return (Some row) => results ++ [row]
  | Return None => results
  | Throw _ => results
  end.

(** What [parseCSV] resolves to on a stream that emits [records]. *)
Definition parseCSV (records : list (list string)) : list CSVRow :=
  fold_left onData records [].

End parser.

Record Validation : Type := mkValidation { isValid : bool; errors : list string }.

(** The pushes of one turn of [rows.forEach((row, index) => ...)]. *)
Definition rowErrors (index : nat) (row : CSVRow) : list string :=
  (if bigNumber row <=? 0
   then ["Row " +:+ pretty (index + 1)%nat +:+ ": Big number must be positive"]
   else [])
  ++ (if existsb (λ num, num <=? 0) (smallNumbers row)
      then ["Row " +:+ pretty (index + 1)%nat +:+ ": All small numbers must be positive"]
      else [])
  ++ (if (12 <? length (smallNumbers row))%nat
      then ["Row " +:+ pretty (index + 1)%nat +:+ ": Too many small numbers (max: 12)"]
      else []).

Definition validateCSV (rows : list CSVRow) : Validation :=
  let errors :=
    (if decide (length rows = 0%nat) then ["CSV file is empty"] else [])
    ++ mjoin (imap rowErrors rows) in
  mkValidation (bool_decide (length errors = 0%nat)) errors.

End CSVParser.

(** The body of a response: [APIResponse<OptimizationResult[]>] with the
    HTTP status it is sent with ([res.json] alone sends 200). *)
Module APIResponse.
Record t : Type := mk {
  status : nat;
  success : bool;
  data : option (list OptimizationResult.t);
  error : option string;
  message : option string
}.
End APIResponse.

Module csvRoutes.
Section routes.
Context (trim : string → string) (parseFloat : string → option Z).
(** The text an engine puts in the [message] of a [TypeError]. *)
Context (typeErrorMessage : string).

(** [POST /api/csv/optimize]; [file] is [req.file], given by its records. *)
Definition optimize (file : option (list (list string))) : result APIResponse.t :=
  match file with
  | None => Ok (APIResponse.mk 400 false None (Some "No CSV file uploaded") None)
  | Some records =>
      let rows := CSVParser.parseCSV trim parseFloat records in
      let validation := CSVParser.validateCSV rows in
      if negb (CSVParser.isValid validation) then
        Ok (APIResponse.mk 400 false None (Some "Invalid CSV format")
              (Some (String.concat "; " (CSVParser.errors validation))))
      else
        match optimizeAllRows rows with
        | Ok results =>
            Ok (APIResponse.mk 200 true (Some results) None
                  (Some ("Successfully optimized " +:+ pretty (length results)
                         +:+ " rows")))
        | TypeError => Ok (APIResponse.mk 500 false None (Some typeErrorMessage) None)
        | OutOfFuel => OutOfFuel
        end
  end.

(** The callback of [rows.map] in [POST /api/csv/optimize-data]. *)
Fixpoint validatedRows (index : nat) (rows : list CSVRow) : outcome (list CSVRow) :=
  match rows with
  | [] => Return []
  | row :: rows' =>
      if negb (validateRow row) then
        Throw ("Invalid row " +:+ pretty (index + 1)%nat
               +:+ ": must have bigNumber and smallNumbers array")
      else
        match validatedRows (S index) rows' with
        | Throw message => Throw message
        | Return rest => Return (row :: rest)
        end
  end.

(** [POST /api/csv/optimize-data]; [rows] is [req.body.rows], [None] when it
    is not an array. Here the [catch] answers 400. *)
Definition optimizeData (rows : option (list CSVRow)) : result APIResponse.t :=
  match rows with
  | None =>
      Ok (APIResponse.mk 400 false None (Some "Invalid input: rows must be an array") None)
  | Some rows =>
      match validatedRows 0 rows with
      | Throw message => Ok (APIResponse.mk 400 false None (Some message) None)
      | Return validated =>
          match optimizeAllRows validated with
          | Ok results =>
              Ok (APIResponse.mk 200 true (Some results) None
                    (Some ("Successfully optimized " +:+ pretty (length results)
                           +:+ " rows")))
          | TypeError => Ok (APIResponse.mk 400 false None (Some typeErrorMessage) None)
          | OutOfFuel => OutOfFuel
          end
      end
  end.

End routes.
End csvRoutes.

(** A [parseFloat] for the examples: it reads strings of decimal digits. *)
Fixpoint digitsValue (acc : Z) (s : string) : option Z :=
  match s with
  | EmptyString => Some acc
  | String c s' =>
      let n := Z.of_nat (Ascii.nat_of_ascii c) - 48 in
      if (0 <=? n) && (n <=? 9) then digitsValue (10 * acc + n) s' else None
  end.

Definition parseDigits (s : string) : option Z :=
  match s with
  | EmptyString => None
  | _ => digitsValue 0 s
  end.

(** ** The optimizer in double precision

    The numbers of the source are IEEE 754 doubles. Here the class is embedded
    a third time with [number] the binary64 format of the Standard Library's
    specification of floating-point arithmetic ([SpecFloat], precision 53,
    [emax] 1024): [+] and [-] round to nearest, ties to even, and a comparison
    with [NaN] is false. The integer operators, the arrays and the loops are
    the ones above. *)

Module Double.

Definition number : Type := spec_float.

Definition prec : Z := 53.
Definition emax : Z := 1024.

(** [a + b] and [a - b] *)
Definition add : number → number → number := SFadd prec emax.
Definition sub : number → number → number := SFsub prec emax.

(** [a <= b] and [a > b] *)
Definition le (a b : number) : bool := SFleb a b.
Definition gt (a b : number) : bool := SFltb b a.

Definition zero : number := S754_zero false.
Definition NaN : number := S754_nan.

(** The number an integer literal denotes, and the one a decimal literal
    [n/d] denotes ([0.89] is [decimal 89 100]): the double nearest to it. *)
Definition of_int (z : Z) : number := binary_normalize prec emax z 0 false.
Definition decimal (n d : Z) : number := SFdiv prec emax (of_int n) (of_int d).

Record CSVRow : Type := mkRow {
  bigNumber : number;
  smallNumbers : list number
}.

Module SubsetSum.
Record t : Type := mk { sum : number; subset : list number }.
End SubsetSum.

Module OptimizationResult.
Record t : Type := mk {
  selectedNumbers : list number;
  sum : number;
  originalRow : CSVRow
}.
End OptimizationResult.

(** [numbers[i]] where the value is used as a number ([undefined] converts
    to [NaN]); the loops below only read inside the array. *)
Definition num_at (numbers : list number) (i : Z) : number :=
  default NaN (at_index numbers i).

Definition reduce_sum (xs : list number) : number :=
  fold_left (λ sum num, add sum num) xs zero.

(** [xs.sort(cmp)]: [x] stays before [y] unless [cmp x y > 0]; a comparator
    result that is [NaN] counts as [+0]. The stable insertion sort gives the
    order of every stable sort when the comparator is consistent, as
    [(a, b) => a - b] is on numbers that are not [NaN]. *)
Fixpoint sort_insert {A} (cmp : A → A → number) (x : A) (l : list A) : list A :=
  match l with
  | [] => [x]
  | y :: l' => if gt (cmp x y) zero then y :: sort_insert cmp x l' else x :: l
  end.

Definition js_sort {A} (cmp : A → A → number) (l : list A) : list A :=
  foldr (sort_insert cmp) [] l.

Definition bySum (a b : SubsetSum.t) : number := sub (SubsetSum.sum a) (SubsetSum.sum b).
Definition byValue (a b : number) : number := sub a b.

Definition pickStep (numbers : list number) (mask : Z) (st : list number * number) (i : Z)
  : list number * number :=
  if included mask i
  then (st.1 ++ [num_at numbers i], add st.2 (num_at numbers i))
  else st.

Definition subsetOfMask (numbers : list number) (mask : Z) : SubsetSum.t :=
  let n := Z.of_nat (length numbers) in
  let st := fold_left (pickStep numbers mask) (range 0 n) ([], zero) in
  SubsetSum.mk st.2 st.1.

Definition generateAllSubsetSums (numbers : list number) : list SubsetSum.t :=
  let n := Z.of_nat (length numbers) in
  subsetOfMask numbers <$> range 0 (shl 1 n).

Fixpoint searchLoop (fuel : nat) (sortedSums : list SubsetSum.t) (target : number)
    (left right bestIndex : Z) : result Z :=
  if left <=? right then
    match fuel with
    | O => OutOfFuel
    | S fuel' =>
        let mid := (left + right) / 2 in
        e ← member sortedSums mid;
        if le (SubsetSum.sum e) target
        then searchLoop fuel' sortedSums target (mid + 1) right mid
        else searchLoop fuel' sortedSums target left (mid - 1) bestIndex
    end
  else Ok bestIndex.

Definition findBestSum (sortedSums : list SubsetSum.t) (target : number)
  : result SubsetSum.t :=
  if decide (length sortedSums = 0%nat) then Ok (SubsetSum.mk zero [])
  else
    let left := 0 in
    let right := Z.of_nat (length sortedSums) - 1 in
    let bestIndex := 0 in
    bestIndex ← searchLoop (length sortedSums) sortedSums target left right bestIndex;
    member sortedSums bestIndex.

Definition combineStep (rightSums : list SubsetSum.t) (target : number)
    (best : number * list number) (leftSum : SubsetSum.t)
  : result (number * list number) :=
  if gt (SubsetSum.sum leftSum) target then Ok best
  else
    let remaining := sub target (SubsetSum.sum leftSum) in
    bestRightSum ← findBestSum rightSums remaining;
    let totalSum := add (SubsetSum.sum leftSum) (SubsetSum.sum bestRightSum) in
    if le totalSum target && gt totalSum best.1
    then Ok (totalSum, SubsetSum.subset leftSum ++ SubsetSum.subset bestRightSum)
    else Ok best.

Definition combineLoop (leftSums rightSums : list SubsetSum.t) (target : number)
  : result (number * list number) :=
  forOf (combineStep rightSums target) leftSums (zero, []).

Definition findOptimalSubset (numbers : list number) (target : number)
  : result (list number) :=
  let n := length numbers in
  if decide (n = 0%nat) then Ok []
  else if decide (n = 1%nat) then
    Ok (if le (num_at numbers 0) target then numbers else [])
  else
    let mid := (n / 2)%nat in
    let left := take mid numbers in
    let right := drop mid numbers in
    let leftSums := generateAllSubsetSums left in
    let rightSums := js_sort bySum (generateAllSubsetSums right) in
    best ← combineLoop leftSums rightSums target;
    Ok (js_sort byValue best.2).

Definition optimizeRow (row : CSVRow) : result OptimizationResult.t :=
  if decide (length (smallNumbers row) = 0%nat) then
    Ok (OptimizationResult.mk [] zero row)
  else
    result ← findOptimalSubset (smallNumbers row) (bigNumber row);
    Ok (OptimizationResult.mk result (reduce_sum result) row).

Definition validateRow (row : CSVRow) : bool :=
  gt (bigNumber row) zero
  && (length (smallNumbers row) <=? 12)%nat
  && forallb (λ num, gt num zero) (smallNumbers row).

(** [validateCSV] of [utils/csvParser.ts] on rows of doubles. *)
Definition rowErrors (index : nat) (row : CSVRow) : list string :=
  (if le (bigNumber row) zero
   then ["Row " +:+ pretty (index + 1)%nat +:+ ": Big number must be positive"]
   else [])
  ++ (if existsb (λ num, le num zero) (smallNumbers row)
      then ["Row " +:+ pretty (index + 1)%nat +:+ ": All small numbers must be positive"]
      else [])
  ++ (if (12 <? length (smallNumbers row))%nat
      then ["Row " +:+ pretty (index + 1)%nat +:+ ": Too many small numbers (max: 12)"]
      else []).

Definition validateCSV (rows : list CSVRow) : CSVParser.Validation :=
  let errors :=
    (if decide (length rows = 0%nat) then ["CSV file is empty"] else [])
    ++ mjoin (imap rowErrors rows) in
  CSVParser.mkValidation (bool_decide (length errors = 0%nat)) errors.

End Double.

(** The row of doubles that a row of integers denotes, and likewise for
    the other objects. *)
Definition doubleRow (row : CSVRow) : Double.CSVRow :=
  Double.mkRow (Double.of_int (bigNumber row)) (Double.of_int <$> smallNumbers row).

Definition doubleSubsetSum (e : SubsetSum.t) : Double.SubsetSum.t :=
  Double.SubsetSum.mk (Double.of_int (SubsetSum.sum e)) (Double.of_int <$> SubsetSum.subset e).

Definition doubleResult (r : OptimizationResult.t) : Double.OptimizationResult.t :=
  Double.OptimizationResult.mk
    (Double.of_int <$> OptimizationResult.selectedNumbers r)
    (Double.of_int (OptimizationResult.sum r))
    (doubleRow (OptimizationResult.originalRow r)).

(** [p * 2^n], the number of binary digits of [p], and the double of sign
    [s] whose magnitude is the integer [p], for [p < 2^53]. *)
Definition shiftl_pos (p : positive) (n : nat) : positive := Nat.iter n xO p.
Definition digits (p : positive) : nat := Pos.to_nat (digits2_pos p).
Definition normal (s : bool) (p : positive) : Double.number :=
  S754_finite s (shiftl_pos p (53 - digits p)) (Z.of_nat (digits p) - 53).

(** The doubles a valid row holds: well-formed and positive, finite or the
    infinity. *)
Definition positiveDouble (x : Double.number) : Prop :=
  valid_binary Double.prec Double.emax x = true ∧ Double.gt x Double.zero = true.

(** * Properties *)

Example optimizeRow_scenario1 :
  optimizeRow (mkRow 10 [1;2;3;4;5;6]) =
    Ok (OptimizationResult.mk [4;6] 10 (mkRow 10 [1;2;3;4;5;6])).
Proof. vm_compute. reflexivity. Qed.

Example optimizeRow_scenario2 :
  optimizeRow (mkRow 5 [10;15;20]) = Ok (OptimizationResult.mk [] 0 (mkRow 5 [10;15;20])).
Proof. vm_compute. reflexivity. Qed.

Example optimizeRow_scenario3 :
  optimizeRow (mkRow 15 [5;10;3;7]) = Ok (OptimizationResult.mk [3;5;7] 15 (mkRow 15 [5;10;3;7])).
Proof. vm_compute. reflexivity. Qed.

Example optimizeRow_scenario4 :
  optimizeRow (mkRow 10 [3;3;4;4;5]) = Ok (OptimizationResult.mk [3;3;4] 10 (mkRow 10 [3;3;4;4;5])).
Proof. vm_compute. reflexivity. Qed.

Example optimizeRow_scenario5 :
  optimizeRow (mkRow 10 []) = Ok (OptimizationResult.mk [] 0 (mkRow 10 [])).
Proof. reflexivity. Qed.

Example optimizeRow_scenario6 :
  optimizeRow (mkRow 10 [7]) = Ok (OptimizationResult.mk [7] 7 (mkRow 10 [7]))
  ∧ optimizeRow (mkRow 5 [7]) = Ok (OptimizationResult.mk [] 0 (mkRow 5 [7])).
Proof. split; vm_compute; reflexivity. Qed.

(** ** Ranges of loop indices *)

Lemma range_cons lo hi : lo < hi → range lo hi = lo :: range (lo + 1) hi.
Proof.
  intros H. unfold range.
  replace (Z.to_nat (hi - lo)) with (S (Z.to_nat (hi - (lo + 1)))) by lia.
  cbn [seq fmap list_fmap]. f_equal; [lia|].
  rewrite <- fmap_S_seq, <- list_fmap_compose.
  apply list_fmap_ext. intros i x _. simpl. lia.
Qed.

Lemma range_snoc lo hi : lo ≤ hi → range lo (hi + 1) = range lo hi ++ [hi].
Proof.
  intros H. unfold range.
  replace (Z.to_nat (hi + 1 - lo)) with (Z.to_nat (hi - lo) + 1)%nat by lia.
  rewrite seq_app, fmap_app. simpl. do 2 f_equal. lia.
Qed.

Lemma length_range lo hi : length (range lo hi) = Z.to_nat (hi - lo).
Proof. unfold range. by rewrite length_fmap, length_seq. Qed.

Lemma elem_of_range lo hi i : i ∈ range lo hi ↔ lo ≤ i < hi.
Proof.
  unfold range. rewrite list_elem_of_fmap. setoid_rewrite elem_of_seq. split.
  - intros (k & -> & Hk). lia.
  - intros Hi. exists (Z.to_nat (i - lo)). split; lia.
Qed.

Lemma lookup_range lo hi (k : nat) :
  (k < Z.to_nat (hi - lo))%nat → range lo hi !! k = Some (lo + Z.of_nat k).
Proof.
  intros Hk. unfold range. rewrite list_lookup_fmap, lookup_seq_lt by done. done.
Qed.

Lemma range_succ lo hi : range (lo + 1) (hi + 1) = Z.succ <$> range lo hi.
Proof.
  unfold range. replace (hi + 1 - (lo + 1)) with (hi - lo) by lia.
  rewrite <- list_fmap_compose. apply list_fmap_ext. intros i x _. simpl. lia.
Qed.

(** ** The 32-bit operators on small operands *)

Lemma toInt32_small z : - 2 ^ 31 ≤ z < 2 ^ 31 → toInt32 z = z.
Proof. intros H. unfold toInt32. rewrite Z.mod_small; lia. Qed.

Lemma shl_1_small n : 0 ≤ n ≤ 30 → shl 1 n = 2 ^ n.
Proof.
  intros H. unfold shl. rewrite Z.mod_small, Z.mul_1_l by lia.
  apply toInt32_small.
  assert (0 < 2 ^ n) by (apply Z.pow_pos_nonneg; lia).
  assert (2 ^ n ≤ 2 ^ 30) by (apply Z.pow_le_mono_r; lia).
  lia.
Qed.

Lemma land_pow2 m i : 0 ≤ i → Z.land m (2 ^ i) = if Z.testbit m i then 2 ^ i else 0.
Proof.
  intros Hi. apply Z.bits_inj'. intros k Hk.
  rewrite Z.land_spec, Z.pow2_bits_eqb by done.
  destruct (Z.eqb_spec i k) as [->|Hne].
  - destruct (Z.testbit m k); simpl.
    + by rewrite Z.pow2_bits_true.
    + by rewrite Z.bits_0.
  - rewrite andb_false_r. destruct (Z.testbit m i).
    + by rewrite Z.pow2_bits_false.
    + by rewrite Z.bits_0.
Qed.

Lemma included_testbit mask i : 0 ≤ i ≤ 30 → included mask i = Z.testbit mask i.
Proof.
  intros Hi. unfold included, band. rewrite shl_1_small, land_pow2 by lia.
  assert (0 < 2 ^ i) by (apply Z.pow_pos_nonneg; lia).
  destruct (Z.testbit mask i).
  - apply bool_decide_eq_true. lia.
  - apply bool_decide_eq_false. lia.
Qed.

(** ** Array reads *)

Lemma at_index_of_nat {A} (xs : list A) (k : nat) : at_index xs (Z.of_nat k) = xs !! k.
Proof.
  unfold at_index. destruct (Z.ltb_spec (Z.of_nat k) 0); [lia|]. by rewrite Nat2Z.id.
Qed.

Lemma at_index_Some {A} (xs : list A) i x :
  at_index xs i = Some x ↔ 0 ≤ i ∧ xs !! Z.to_nat i = Some x.
Proof.
  unfold at_index. destruct (Z.ltb_spec i 0).
  - split; [done | intros [? _]; lia].
  - split; [by split | by intros [_ ?]].
Qed.

Lemma at_index_in_range {A} (xs : list A) i :
  0 ≤ i < Z.of_nat (length xs) → is_Some (at_index xs i).
Proof.
  intros Hi. unfold at_index. destruct (Z.ltb_spec i 0); [lia|].
  apply lookup_lt_is_Some. lia.
Qed.

Lemma num_at_app_l xs ys i : 0 ≤ i < Z.of_nat (length xs) → num_at (xs ++ ys) i = num_at xs i.
Proof.
  intros Hi. unfold num_at, at_index. destruct (Z.ltb_spec i 0); [lia|].
  rewrite lookup_app_l by lia. done.
Qed.

Lemma num_at_app_r xs x : num_at (xs ++ [x]) (Z.of_nat (length xs)) = x.
Proof. unfold num_at. by rewrite at_index_of_nat, list_lookup_middle. Qed.

(** ** Sums and selections *)

Lemma sumZ_app xs ys : sumZ (xs ++ ys) = sumZ xs + sumZ ys.
Proof. induction xs as [|x xs IH]; simpl; lia. Qed.

Lemma fold_left_add_sumZ xs a : fold_left (λ sum num, sum + num) xs a = a + sumZ xs.
Proof.
  revert a. induction xs as [|x xs IH]; intros a; simpl; [lia|].
  rewrite IH. lia.
Qed.

Lemma reduce_sum_sumZ xs : reduce_sum xs = sumZ xs.
Proof. unfold reduce_sum. by rewrite fold_left_add_sumZ. Qed.

Lemma sumZ_perm xs ys : xs ≡ₚ ys → sumZ xs = sumZ ys.
Proof. induction 1; simpl; lia. Qed.

Lemma select_app bs1 bs2 xs1 xs2 :
  length bs1 = length xs1 →
  select (bs1 ++ bs2) (xs1 ++ xs2) = select bs1 xs1 ++ select bs2 xs2.
Proof.
  revert xs1. induction bs1 as [|b bs1 IH]; intros [|x xs1] Hlen; simplify_eq/=; [done|].
  rewrite IH by done. by destruct b.
Qed.

Lemma select_sublist bs xs : select bs xs `sublist_of` xs.
Proof.
  revert xs. induction bs as [|b bs IH]; intros [|x xs]; simpl;
    try apply sublist_nil_l.
  destruct b; [by apply sublist_skip | by apply sublist_cons].
Qed.

Lemma sublist_select sub xs :
  sub `sublist_of` xs → ∃ bs, length bs = length xs ∧ select bs xs = sub.
Proof.
  induction 1 as [|x l1 l2 _ (bs & Hlen & Hsel)|x l1 l2 _ (bs & Hlen & Hsel)].
  - by exists [].
  - exists (true :: bs). simpl. by rewrite Hlen, Hsel.
  - exists (false :: bs). simpl. by rewrite Hlen, Hsel.
Qed.

(** ** The enumeration of subset sums *)

Lemma fold_left_ext_in {A B} (f g : B → A → B) (l : list A) (b : B) :
  (∀ b' x, x ∈ l → f b' x = g b' x) → fold_left f l b = fold_left g l b.
Proof.
  revert b. induction l as [|x l IH]; intros b Hfg; simpl; [done|].
  rewrite Hfg by left. apply IH. intros b' y Hy. apply Hfg. by right.
Qed.

(** The inner loop visits every position once and keeps the positions the
    test [included] accepts. *)
Lemma pick_fold numbers mask :
  let sel := select (included mask <$> range 0 (Z.of_nat (length numbers))) numbers in
  fold_left (pickStep numbers mask) (range 0 (Z.of_nat (length numbers))) ([], 0)
  = (sel, sumZ sel).
Proof.
  induction numbers as [|x l IH] using rev_ind; [done|].
  rewrite length_app, Nat2Z.inj_add. simpl length. change (Z.of_nat 1) with 1.
  rewrite range_snoc by lia. simpl. rewrite fold_left_app, fmap_app.
  rewrite select_app by (by rewrite length_fmap, length_range; lia).
  rewrite (fold_left_ext_in _ (pickStep l mask) (range 0 _)).
  2:{ intros st i Hi%elem_of_range. unfold pickStep.
      by rewrite num_at_app_l by lia. }
  simpl in IH. rewrite IH. simpl. unfold pickStep. rewrite num_at_app_r.
  destruct (included mask (Z.of_nat (length l))); simpl.
  - f_equal. rewrite sumZ_app. simpl. lia.
  - by rewrite app_nil_r.
Qed.

Lemma subsetOfMask_select numbers mask :
  let sel := select (included mask <$> range 0 (Z.of_nat (length numbers))) numbers in
  subsetOfMask numbers mask = SubsetSum.mk (sumZ sel) sel.
Proof. unfold subsetOfMask. simpl. by rewrite pick_fold. Qed.

(** Whatever the length of [numbers], every entry holds a sublist of
    [numbers] together with its sum. *)
Lemma generateAllSubsetSums_sound numbers e :
  e ∈ generateAllSubsetSums numbers →
  SubsetSum.subset e `sublist_of` numbers ∧ SubsetSum.sum e = sumZ (SubsetSum.subset e).
Proof.
  unfold generateAllSubsetSums. intros (mask & -> & _)%list_elem_of_fmap.
  rewrite subsetOfMask_select. simpl. split; [apply select_sublist | done].
Qed.

Lemma included_maskBits (numbers : list Z) mask :
  (length numbers ≤ 31)%nat →
  included mask <$> range 0 (Z.of_nat (length numbers)) = maskBits (length numbers) mask.
Proof.
  intros Hk. unfold maskBits. apply list_fmap_ext.
  intros k i Hi%list_elem_of_lookup_2%elem_of_range. apply included_testbit. lia.
Qed.

(** ** Masks and inclusion vectors *)

Lemma maskOf_bounds bs : 0 ≤ maskOf bs < 2 ^ Z.of_nat (length bs).
Proof.
  induction bs as [|b bs IH]; [simpl; lia|].
  cbn [maskOf length]. rewrite Nat2Z.inj_succ, Z.pow_succ_r by lia.
  destruct b; simpl Z.b2z; lia.
Qed.

Lemma maskBits_cons k mask :
  maskBits (S k) mask = Z.odd mask :: maskBits k (mask / 2).
Proof.
  unfold maskBits. rewrite Nat2Z.inj_succ, <- Z.add_1_r.
  rewrite range_cons by lia. cbn [fmap list_fmap]. f_equal.
  rewrite (range_succ 0 (Z.of_nat k)), <- list_fmap_compose.
  apply list_fmap_ext. intros j i Hi%list_elem_of_lookup_2%elem_of_range. simpl.
  rewrite <- Z.div2_div, Z.div2_spec, Z.shiftr_spec by lia. done.
Qed.

Lemma maskBits_maskOf bs : maskBits (length bs) (maskOf bs) = bs.
Proof.
  induction bs as [|b bs IH]; [done|].
  cbn [length maskOf]. rewrite maskBits_cons. f_equal.
  - rewrite Z.odd_add_mul_2. by destruct b.
  - replace ((Z.b2z b + 2 * maskOf bs) / 2) with (maskOf bs); [done|].
    rewrite (Z.mul_comm 2), Z.div_add by lia. by destruct b.
Qed.


Lemma subsetOfMask_maskBits numbers mask :
  (length numbers ≤ 30)%nat →
  let sel := select (maskBits (length numbers) mask) numbers in
  subsetOfMask numbers mask = SubsetSum.mk (sumZ sel) sel.
Proof.
  intros Hk. simpl. rewrite subsetOfMask_select. simpl.
  by rewrite included_maskBits by lia.
Qed.

Lemma generateAllSubsetSums_small numbers :
  (length numbers ≤ 30)%nat →
  generateAllSubsetSums numbers
  = subsetOfMask numbers <$> range 0 (2 ^ Z.of_nat (length numbers)).
Proof. intros Hk. unfold generateAllSubsetSums. by rewrite shl_1_small by lia. Qed.




(** Every sublist of a short list is the subset of some entry. *)
Lemma generateAllSubsetSums_complete numbers sub :
  (length numbers ≤ 30)%nat →
  sub `sublist_of` numbers →
  ∃ e, e ∈ generateAllSubsetSums numbers
       ∧ SubsetSum.subset e = sub ∧ SubsetSum.sum e = sumZ sub.
Proof.
  intros Hk (bs & Hlen & Hsel)%sublist_select.
  exists (subsetOfMask numbers (maskOf bs)). split.
  - rewrite generateAllSubsetSums_small by done.
    apply list_elem_of_fmap. exists (maskOf bs). split; [done|].
    apply elem_of_range. rewrite <- Hlen. apply maskOf_bounds.
  - rewrite subsetOfMask_maskBits by done. simpl.
    by rewrite <- Hlen, maskBits_maskOf, Hsel.
Qed.

(** ** Sorting *)

Section js_sort.
Context {A : Type}.

Lemma sort_insert_perm (cmp : A → A → Z) x l : sort_insert cmp x l ≡ₚ x :: l.
Proof.
  induction l as [|y l IH]; simpl; [done|].
  destruct (cmp x y <=? 0); [done|]. by rewrite IH, Permutation_swap.
Qed.

Lemma js_sort_perm (cmp : A → A → Z) l : js_sort cmp l ≡ₚ l.
Proof.
  induction l as [|x l IH]; simpl; [done|].
  by rewrite sort_insert_perm, IH.
Qed.

(** Comparators of the shape [(a, b) => key(a) - key(b)] sort by [key]. *)
Context (key : A → Z).

Lemma sort_insert_sorted x l :
  StronglySorted (λ a b, key a ≤ key b) l →
  StronglySorted (λ a b, key a ≤ key b) (sort_insert (λ a b, key a - key b) x l).
Proof.
  induction 1 as [|y l Hl IH Hy]; simpl.
  - by repeat constructor.
  - destruct (Z.leb_spec (key x - key y) 0).
    + constructor; [by constructor|]. constructor; [lia|].
      eapply Forall_impl; [exact Hy|]. simpl. intros. lia.
    + constructor; [done|].
      rewrite sort_insert_perm. constructor; [lia|done].
Qed.

Lemma js_sort_sorted l :
  StronglySorted (λ a b, key a ≤ key b) (js_sort (λ a b, key a - key b) l).
Proof.
  induction l as [|x l IH]; simpl; [constructor|]. by apply sort_insert_sorted.
Qed.
End js_sort.

Lemma js_sort_bySum_sorted l : StronglySorted sumLe (js_sort bySum l).
Proof. apply (js_sort_sorted SubsetSum.sum). Qed.

Lemma js_sort_byValue_sorted l : StronglySorted Z.le (js_sort byValue l).
Proof. apply (js_sort_sorted id). Qed.

Lemma StronglySorted_lookup_le {A} (R : relation A) (l : list A) (i j : nat) a b :
  StronglySorted R l → (i < j)%nat → l !! i = Some a → l !! j = Some b → R a b.
Proof.
  intros Hl. revert i j. induction Hl as [|x l Hl IH Hx]; intros i j Hij Hi Hj; [done|].
  destruct j as [|j]; [lia|]. simpl in Hj. destruct i as [|i]; simplify_eq/=.
  - rewrite Forall_forall in Hx. apply Hx. by eapply list_elem_of_lookup_2.
  - eapply IH; [|done..]. lia.
Qed.

(** ** The binary search *)

Lemma mid_bounds l r : l ≤ r → l ≤ (l + r) / 2 ≤ r.
Proof.
  intros H. split; [apply Z.div_le_lower_bound | apply Z.div_le_upper_bound]; lia.
Qed.

Lemma member_in_range {A} (xs : list A) i :
  0 ≤ i < Z.of_nat (length xs) → ∃ x, member xs i = Ok x ∧ at_index xs i = Some x.
Proof.
  intros [x Hx]%at_index_in_range. exists x. unfold member. by rewrite Hx.
Qed.

(** The loop ends within its fuel, reads only inside the array, and leaves
    [bestIndex] either untouched or at a position it has visited. *)
Lemma searchLoop_total sortedSums target fuel left right bestIndex :
  0 ≤ left → right < Z.of_nat (length sortedSums) →
  (Z.to_nat (right - left + 1) ≤ fuel)%nat →
  ∃ idx, searchLoop fuel sortedSums target left right bestIndex = Ok idx
         ∧ (idx = bestIndex ∨ left ≤ idx ≤ right).
Proof.
  revert left right bestIndex.
  induction fuel as [|fuel IH]; intros left right bestIndex Hl Hr Hfuel.
  - exists bestIndex. simpl. destruct (Z.leb_spec left right); [lia|]. auto.
  - simpl. destruct (Z.leb_spec left right) as [Hle|Hgt]; [|eauto].
    pose proof (mid_bounds _ _ Hle) as Hmid.
    destruct (member_in_range sortedSums ((left + right) / 2)) as (e & -> & _); [lia|].
    simpl. destruct (SubsetSum.sum e <=? target).
    + destruct (IH ((left + right) / 2 + 1) right ((left + right) / 2))
        as (idx & -> & Hidx); [lia..|].
      exists idx. split; [done|]. lia.
    + destruct (IH left ((left + right) / 2 - 1) bestIndex)
        as (idx & -> & Hidx); [lia..|].
      exists idx. split; [done|]. lia.
Qed.

(** On a sorted array the loop finds the boundary [b] between the entries
    that fit under [target] and those that do not. *)
Lemma searchLoop_sorted sortedSums target :
  StronglySorted sumLe sortedSums →
  ∀ fuel left right bestIndex idx,
  0 ≤ left → right < Z.of_nat (length sortedSums) → left ≤ right + 1 →
  (∀ i e, 0 ≤ i < left → at_index sortedSums i = Some e → SubsetSum.sum e ≤ target) →
  (∀ i e, right < i → at_index sortedSums i = Some e → target < SubsetSum.sum e) →
  bestIndex = Z.max 0 (left - 1) →
  searchLoop fuel sortedSums target left right bestIndex = Ok idx →
  ∃ b, 0 ≤ b ≤ Z.of_nat (length sortedSums)
       ∧ (∀ i e, 0 ≤ i < b → at_index sortedSums i = Some e → SubsetSum.sum e ≤ target)
       ∧ (∀ i e, b ≤ i → at_index sortedSums i = Some e → target < SubsetSum.sum e)
       ∧ idx = Z.max 0 (b - 1).
Proof.
  intros Hsorted.
  assert (Hmono : ∀ i j a b, i ≤ j → at_index sortedSums i = Some a →
                    at_index sortedSums j = Some b → SubsetSum.sum a ≤ SubsetSum.sum b).
  { intros i j a b Hij [Hi Ha]%at_index_Some [Hj Hb]%at_index_Some.
    destruct (decide (i = j)) as [->|Hne]; [simplify_eq; lia|].
    apply (StronglySorted_lookup_le sumLe sortedSums (Z.to_nat i) (Z.to_nat j));
      [done|lia|done..]. }
  induction fuel as [|fuel IH]; intros left right bestIndex idx Hl Hr Hlr Hlow Hhigh Hbest Hrun.
  - simpl in Hrun. destruct (Z.leb_spec left right); [done|]. simplify_eq.
    exists left. repeat split; [lia..|done|].
    intros i e Hi. apply Hhigh. lia.
  - simpl in Hrun. destruct (Z.leb_spec left right) as [Hle|Hgt].
    2:{ simplify_eq. exists left. repeat split; [lia..|done|].
        intros i e Hi. apply Hhigh. lia. }
    pose proof (mid_bounds _ _ Hle) as Hmid.
    destruct (member_in_range sortedSums ((left + right) / 2)) as (e & He & Hat); [lia|].
    rewrite He in Hrun. simpl in Hrun.
    destruct (Z.leb_spec (SubsetSum.sum e) target) as [Hfit|Hbig].
    + eapply IH in Hrun; [done|lia..| | |lia].
      * intros i e' Hi He'. etrans; [|exact Hfit].
        eapply (Hmono i ((left + right) / 2)); [lia|done..].
      * done.
    + eapply IH in Hrun; [done|lia..| | |done].
      * done.
      * intros i e' Hi He'. eapply Z.lt_le_trans; [exact Hbig|].
        eapply (Hmono ((left + right) / 2) i); [lia|done..].
Qed.

Lemma findBestSum_nil target : findBestSum [] target = Ok (SubsetSum.mk 0 []).
Proof. done. Qed.

Lemma findBestSum_index sortedSums target :
  sortedSums ≠ [] →
  ∃ idx e, searchLoop (length sortedSums) sortedSums target 0
             (Z.of_nat (length sortedSums) - 1) 0 = Ok idx
           ∧ 0 ≤ idx < Z.of_nat (length sortedSums)
           ∧ at_index sortedSums idx = Some e
           ∧ findBestSum sortedSums target = Ok e.
Proof.
  intros Hne. assert (length sortedSums ≠ 0%nat) as Hlen by by destruct sortedSums.
  destruct (searchLoop_total sortedSums target (length sortedSums) 0
              (Z.of_nat (length sortedSums) - 1) 0) as (idx & Hrun & Hidx); [lia..|].
  destruct (member_in_range sortedSums idx) as (e & He & Hat); [lia|].
  exists idx, e. split_and!; [done|lia..|done|].
  unfold findBestSum. rewrite decide_False by done. simpl. by rewrite Hrun.
Qed.

(** [findBestSum] always returns: the zero pair on the empty array, an entry
    of the array otherwise. *)
Lemma findBestSum_total sortedSums target :
  ∃ e, findBestSum sortedSums target = Ok e
       ∧ (sortedSums = [] → e = SubsetSum.mk 0 [])
       ∧ (sortedSums ≠ [] → e ∈ sortedSums).
Proof.
  destruct (decide (sortedSums = [])) as [->|Hne].
  - exists (SubsetSum.mk 0 []). by rewrite findBestSum_nil.
  - destruct (findBestSum_index sortedSums target Hne) as (idx & e & _ & _ & Hat & Hres).
    exists e. split_and!; [done..|]. intros _.
    apply at_index_Some in Hat as [_ Hat]. by eapply list_elem_of_lookup_2.
Qed.

(** On a sorted, non-empty array [findBestSum] returns the entry with the
    largest sum that fits under [target] when some entry fits, and the first
    entry of the array when none does. *)
Lemma findBestSum_sorted sortedSums target :
  StronglySorted sumLe sortedSums → sortedSums ≠ [] →
  ∃ e, findBestSum sortedSums target = Ok e ∧ e ∈ sortedSums
       ∧ ((SubsetSum.sum e ≤ target
           ∧ ∀ e', e' ∈ sortedSums → SubsetSum.sum e' ≤ target →
                   SubsetSum.sum e' ≤ SubsetSum.sum e)
          ∨ ((∀ e', e' ∈ sortedSums → target < SubsetSum.sum e')
             ∧ head sortedSums = Some e)).
Proof.
  intros Hsorted Hne.
  destruct (findBestSum_index sortedSums target Hne) as (idx & e & Hrun & Hidx & Hat & Hres).
  exists e. split; [done|]. split.
  { apply at_index_Some in Hat as [_ Hat]. by eapply list_elem_of_lookup_2. }
  eapply searchLoop_sorted in Hrun as (b & Hb & Hlow & Hhigh & ->);
    [|done|lia..| | |done].
  2:{ intros i e' Hi. lia. }
  2:{ intros i e' Hi [_ Hlook]%at_index_Some. apply lookup_lt_Some in Hlook. lia. }
  destruct (decide (b = 0)) as [->|Hb0].
  - right. split.
    + intros e' (k & Hk)%list_elem_of_lookup_1. apply (Hhigh (Z.of_nat k)); [lia|].
      by rewrite at_index_of_nat.
    + apply at_index_Some in Hat as [_ Hat]. by rewrite head_lookup.
  - left. replace (Z.max 0 (b - 1)) with (b - 1) in * by lia. split.
    + apply (Hlow (b - 1)); [lia|done].
    + intros e' (k & Hk)%list_elem_of_lookup_1 Hfit.
      destruct (decide (Z.of_nat k < b)) as [Hkb|Hkb].
      * destruct (decide (Z.of_nat k = b - 1)) as [Heq|Hneq].
        { rewrite <- Heq, at_index_of_nat in Hat. simplify_eq. lia. }
        apply at_index_Some in Hat as [_ Hat].
        apply (StronglySorted_lookup_le sumLe sortedSums k (Z.to_nat (b - 1)));
          [done|lia|done..].
      * assert (target < SubsetSum.sum e'); [|lia].
        apply (Hhigh (Z.of_nat k)); [lia|]. by rewrite at_index_of_nat.
Qed.

(** ** The combination loop *)

Lemma forOf_app {A S} (body : S → A → result S) xs ys st :
  forOf body (xs ++ ys) st = (st' ← forOf body xs st; forOf body ys st').
Proof.
  revert st. induction xs as [|x xs IH]; intros st; simpl; [done|].
  destruct (body st x); simpl; auto.
Qed.

(** One iteration, in closed form: the state changes exactly when the left
    sum fits, the total fits, and the total is strictly greater than the best
    so far. *)
Lemma combineStep_spec rightSums target best leftSum :
  ∃ e, findBestSum rightSums (target - SubsetSum.sum leftSum) = Ok e
       ∧ (rightSums = [] → e = SubsetSum.mk 0 [])
       ∧ (rightSums ≠ [] → e ∈ rightSums)
       ∧ combineStep rightSums target best leftSum
         = Ok (if decide (SubsetSum.sum leftSum ≤ target
                          ∧ SubsetSum.sum leftSum + SubsetSum.sum e ≤ target
                          ∧ best.1 < SubsetSum.sum leftSum + SubsetSum.sum e)
               then (SubsetSum.sum leftSum + SubsetSum.sum e,
                     SubsetSum.subset leftSum ++ SubsetSum.subset e)
               else best).
Proof.
  destruct (findBestSum_total rightSums (target - SubsetSum.sum leftSum))
    as (e & He & Hnil & Hin).
  exists e. split_and!; [done..|]. unfold combineStep. rewrite He. simpl.
  destruct (Z.gtb_spec (SubsetSum.sum leftSum) target).
  { rewrite decide_False by lia. done. }
  destruct (Z.leb_spec (SubsetSum.sum leftSum + SubsetSum.sum e) target);
  destruct (Z.gtb_spec (SubsetSum.sum leftSum + SubsetSum.sum e) best.1); simpl;
    first [by rewrite decide_True by lia | by rewrite decide_False by lia].
Qed.

Lemma combineStep_update rightSums target best leftSum best' :
  combineStep rightSums target best leftSum = Ok best' →
  best' = best ∨ best.1 < best'.1.
Proof.
  destruct (combineStep_spec rightSums target best leftSum) as (e & _ & _ & _ & ->).
  intros [= <-]. case_decide; [right; simpl; lia | by left].
Qed.

Lemma combineLoop_prefix_total rightSums target leftSums st :
  ∃ st', forOf (combineStep rightSums target) leftSums st = Ok st' ∧ st.1 ≤ st'.1.
Proof.
  revert st. induction leftSums as [|l ls IH]; intros st; simpl.
  - by exists st.
  - destruct (combineStep_spec rightSums target st l) as (e & _ & _ & _ & Hstep).
    rewrite Hstep. simpl. edestruct IH as (st' & -> & Hle). exists st'. split; [done|].
    etrans; [|exact Hle]. case_decide; simpl; lia.
Qed.

Section combine.
Context (rightSums : list SubsetSum.t) (target : Z).
#[local] Abbreviation body := (combineStep rightSums target).

(** The best sum never decreases, and a state whose sum is already the
    final one is the final state. *)
Lemma forOf_combine_mono leftSums st best :
  forOf body leftSums st = Ok best →
  st.1 ≤ best.1 ∧ (st.1 = best.1 → st = best).
Proof.
  revert st. induction leftSums as [|l ls IH]; intros st Hrun; simpl in Hrun.
  - by simplify_eq.
  - destruct (body st l) as [st1| |] eqn:Hstep; simplify_eq/=.
    apply IH in Hrun as [Hle Heq].
    apply combineStep_update in Hstep as [->|Hlt]; [done|].
    split; [lia|]. intros ?. lia.
Qed.

(** Every total the loop has examined and found feasible is bounded by
    the best sum. *)
Lemma forOf_combine_upper leftSums st best :
  forOf body leftSums st = Ok best →
  ∀ l e, l ∈ leftSums →
    findBestSum rightSums (target - SubsetSum.sum l) = Ok e →
    SubsetSum.sum l ≤ target →
    SubsetSum.sum l + SubsetSum.sum e ≤ target →
    SubsetSum.sum l + SubsetSum.sum e ≤ best.1.
Proof.
  revert st. induction leftSums as [|x ls IH]; intros st Hrun l e Hl He Hfit Htot.
  { by apply elem_of_nil in Hl. }
  simpl in Hrun. destruct (body st x) as [st1| |] eqn:Hstep; simplify_eq/=.
  apply elem_of_cons in Hl as [->|Hl]; [|by eapply IH].
  apply forOf_combine_mono in Hrun as [Hle _].
  destruct (combineStep_spec rightSums target st x) as (e' & He' & _ & _ & Hst1).
  rewrite He in He'. rewrite Hstep in Hst1. simplify_eq.
  case_decide; simpl in *; lia.
Qed.

(** The final state is the initial one, or it was written by the first
    entry at which the running best reached its final value. *)
Lemma forOf_combine_first leftSums st0 best :
  forOf body leftSums st0 = Ok best →
  best = st0 ∨
  ∃ seen l rest st e,
    leftSums = seen ++ l :: rest
    ∧ forOf body seen st0 = Ok st
    ∧ st.1 < best.1
    ∧ findBestSum rightSums (target - SubsetSum.sum l) = Ok e
    ∧ SubsetSum.sum l ≤ target
    ∧ SubsetSum.sum l + SubsetSum.sum e ≤ target
    ∧ best = (SubsetSum.sum l + SubsetSum.sum e,
              SubsetSum.subset l ++ SubsetSum.subset e).
Proof.
  revert best. induction leftSums as [|x ls IH] using rev_ind; intros best Hrun.
  { simpl in Hrun. left. by simplify_eq. }
  rewrite forOf_app in Hrun.
  destruct (forOf body ls st0) as [st1| |] eqn:Hls; simplify_eq/=.
  destruct (body st1 x) as [st2| |] eqn:Hstep; simplify_eq/=.
  destruct (combineStep_spec rightSums target st1 x) as (e & He & _ & _ & Hst2).
  rewrite Hstep in Hst2. simplify_eq. case_decide as Hupd.
  - right. exists ls, x, [], st1, e. split_and!; [done..|simpl; lia|done|lia|lia|done].
  - destruct (IH st1 eq_refl) as [->|(seen & l & rest & st & e' & -> & ? & ? & ? & ? & ? & ?)];
      [by left|].
    right. exists seen, l, (rest ++ [x]), st, e'.
    split_and!; [by rewrite <- app_assoc|done..].
Qed.
End combine.

(** ** Totality *)

Lemma combineLoop_total leftSums rightSums target :
  ∃ best, combineLoop leftSums rightSums target = Ok best.
Proof.
  destruct (combineLoop_prefix_total rightSums target leftSums (0, [])) as (st & Hst & _).
  by exists st.
Qed.

Lemma findOptimalSubset_split numbers target :
  (2 ≤ length numbers)%nat →
  findOptimalSubset numbers target
  = (best ← combineLoop
              (generateAllSubsetSums (take (length numbers / 2) numbers))
              (js_sort bySum (generateAllSubsetSums (drop (length numbers / 2) numbers)))
              target;
     Ok (js_sort byValue best.2)).
Proof. intros Hn. unfold findOptimalSubset. by rewrite !decide_False by lia. Qed.

Lemma findOptimalSubset_total numbers target :
  ∃ result, findOptimalSubset numbers target = Ok result.
Proof.
  unfold findOptimalSubset. repeat case_decide; eauto.
  edestruct combineLoop_total as [best ->]. simpl. eauto.
Qed.

Lemma optimizeRow_Ok row :
  ∃ result,
    findOptimalSubset (smallNumbers row) (bigNumber row) = Ok result
    ∧ optimizeRow row = Ok (OptimizationResult.mk result (sumZ result) row).
Proof.
  destruct (findOptimalSubset_total (smallNumbers row) (bigNumber row)) as [result Hres].
  exists result. split; [done|]. unfold optimizeRow. case_decide as Hlen.
  - unfold findOptimalSubset in Hres. rewrite decide_True in Hres by done. by simplify_eq.
  - rewrite Hres. simpl. by rewrite reduce_sum_sumZ.
Qed.

Lemma optimizeRow_originalRow row r :
  optimizeRow row = Ok r → OptimizationResult.originalRow r = row.
Proof.
  destruct (optimizeRow_Ok row) as (result & _ & ->). by intros [= <-].
Qed.

(** C9. [optimizeRow] returns a result on every row, valid or not: the
    binary search terminates and none of its reads leaves the array. In
    [findBestSum] the empty array is answered before the search starts, and on
    a non-empty array the search ends with [bestIndex] between [0] and
    [length - 1], where the returned entry is read. *)
Theorem optimizeRow_total :
  (∀ row, ∃ r, optimizeRow row = Ok r)
  ∧ (∀ sortedSums target,
       (sortedSums = [] ∧ findBestSum sortedSums target = Ok (SubsetSum.mk 0 []))
       ∨ (∃ bestIndex e,
            searchLoop (length sortedSums) sortedSums target 0
              (Z.of_nat (length sortedSums) - 1) 0 = Ok bestIndex
            ∧ 0 ≤ bestIndex ≤ Z.of_nat (length sortedSums) - 1
            ∧ at_index sortedSums bestIndex = Some e
            ∧ findBestSum sortedSums target = Ok e)).
Proof.
  split.
  - intros row. destruct (optimizeRow_Ok row) as (result & _ & ->). eauto.
  - intros sortedSums target. destruct (decide (sortedSums = [])) as [->|Hne].
    + by left.
    + right. destruct (findBestSum_index sortedSums target Hne)
        as (idx & e & Hrun & Hidx & Hat & Hres).
      exists idx, e. split_and!; [done|lia..|done|done].
Qed.

(** ** The batch *)

(** C5. [optimizeAllRows] returns one result per row, in the order of the
    rows: the [i]-th result is [optimizeRow] of the [i]-th row, computed from
    that row alone, and its [originalRow] is that row. *)
Theorem optimizeAllRows_pointwise (rows : list CSVRow) :
  ∃ results,
    optimizeAllRows rows = Ok results
    ∧ length results = length rows
    ∧ Forall2 (λ row r, optimizeRow row = Ok r
                        ∧ OptimizationResult.originalRow r = row) rows results.
Proof.
  induction rows as [|row rows (results & Hres & Hlen & Hall)].
  - exists []. by repeat split.
  - destruct (optimizeRow_Ok row) as (result & _ & Hr).
    eexists (_ :: results). simpl. rewrite Hr, Hres. simpl. split_and!; [done|lia|].
    constructor; [|done]. split; [done|]. by apply optimizeRow_originalRow.
Qed.

(** ** Feasibility and optimality of the combination *)

Lemma sumZ_nonneg xs : Forall (λ x, 0 ≤ x) xs → 0 ≤ sumZ xs.
Proof. induction 1; simpl; lia. Qed.

Lemma generateAllSubsetSums_nonempty numbers :
  (length numbers ≤ 30)%nat → generateAllSubsetSums numbers ≠ [].
Proof.
  intros Hk Hnil. apply (f_equal length) in Hnil.
  rewrite generateAllSubsetSums_small, length_fmap, length_range in Hnil by done.
  assert (0 < 2 ^ Z.of_nat (length numbers)) by (apply Z.pow_pos_nonneg; lia).
  simpl in Hnil. lia.
Qed.

Section halves.
Context (left right : list Z) (target : Z).
#[local] Abbreviation leftSums := (generateAllSubsetSums left).
#[local] Abbreviation rightSums := (js_sort bySum (generateAllSubsetSums right)).

Lemma rightSums_elem e : e ∈ rightSums ↔ e ∈ generateAllSubsetSums right.
Proof. by rewrite js_sort_perm. Qed.

(** What the loop leaves in [(bestSum, bestCombination)] is a sublist of
    the candidates, with its sum, and fits under a non-negative target. *)
Lemma combineLoop_feasible best :
  0 ≤ target →
  combineLoop leftSums rightSums target = Ok best →
  best.1 = sumZ best.2 ∧ best.1 ≤ target ∧ best.2 `sublist_of` left ++ right.
Proof.
  intros Htarget Hrun. unfold combineLoop in Hrun.
  apply forOf_combine_first in Hrun
    as [->|(seen & l & rest & st & e & Hsplit & _ & _ & He & Hl & Htot & ->)].
  { simpl. split_and!; [done..|apply sublist_nil_l]. }
  assert (l ∈ leftSums) as [Hlsub Hlsum]%generateAllSubsetSums_sound.
  { rewrite Hsplit. set_solver. }
  assert (SubsetSum.subset e `sublist_of` right
          ∧ SubsetSum.sum e = sumZ (SubsetSum.subset e)) as [Hesub Hesum].
  { destruct (findBestSum_total rightSums (target - SubsetSum.sum l))
      as (e' & He' & Hnil & Hin).
    rewrite He in He'. simplify_eq. destruct (decide (rightSums = [])) as [Hr|Hr].
    - rewrite (Hnil Hr). simpl. split; [apply sublist_nil_l | done].
    - apply generateAllSubsetSums_sound, rightSums_elem, Hin, Hr. }
  simpl. split_and!; [|done|by apply sublist_app].
  rewrite sumZ_app. lia.
Qed.

(** No selection from the two halves beats the best sum. *)
Lemma combineLoop_optimal best sub :
  (length left ≤ 30)%nat → (length right ≤ 30)%nat →
  Forall (λ x, 0 ≤ x) right →
  combineLoop leftSums rightSums target = Ok best →
  sub `sublist_of` left ++ right → sumZ sub ≤ target →
  sumZ sub ≤ best.1.
Proof.
  intros Hleft Hright Hpos Hrun (k1 & k2 & -> & Hk1 & Hk2)%sublist_app_r Hfit.
  rewrite sumZ_app in *.
  destruct (generateAllSubsetSums_complete left k1) as (l & Hl & _ & Hlsum); [done..|].
  destruct (generateAllSubsetSums_complete right k2) as (r & Hr & _ & Hrsum); [done..|].
  assert (0 ≤ sumZ k2).
  { apply sumZ_nonneg, Forall_forall. intros x Hx.
    rewrite Forall_forall in Hpos. apply Hpos. by eapply sublist_subseteq. }
  assert (rightSums ≠ []) as Hne.
  { intros Hnil. apply (generateAllSubsetSums_nonempty right Hright).
    apply Permutation_nil_r. rewrite <- Hnil. symmetry. apply js_sort_perm. }
  destruct (findBestSum_sorted rightSums (target - SubsetSum.sum l)
              (js_sort_bySum_sorted _) Hne)
    as (e & He & _ & [[Hefit Hemax]|[Hnone _]]).
  - etrans; [|eapply (forOf_combine_upper _ _ _ _ _ Hrun l e); [done..|lia|lia]].
    specialize (Hemax r). rewrite rightSums_elem in Hemax.
    specialize (Hemax Hr). lia.
  - specialize (Hnone r). rewrite rightSums_elem in Hnone. specialize (Hnone Hr). lia.
Qed.
End halves.

(** ** Brute-force enumeration *)

Lemma elem_of_allSubsets sub xs : sub ∈ allSubsets xs ↔ sub `sublist_of` xs.
Proof.
  revert sub. induction xs as [|x xs IH]; intros sub; simpl.
  - rewrite list_elem_of_singleton, sublist_nil_r. done.
  - rewrite elem_of_app, list_elem_of_fmap, sublist_cons_r, IH.
    by setoid_rewrite IH.
Qed.

Lemma length_allSubsets xs : length (allSubsets xs) = (2 ^ length xs)%nat.
Proof.
  induction xs as [|x xs IH]; [done|].
  simpl. rewrite length_app, length_fmap, IH. lia.
Qed.

Lemma elem_of_feasibleSums s target candidates :
  s ∈ feasibleSums target candidates
  ↔ s ≤ target ∧ ∃ sub, sub `sublist_of` candidates ∧ s = sumZ sub.
Proof.
  unfold feasibleSums. rewrite list_elem_of_filter, list_elem_of_fmap.
  setoid_rewrite elem_of_allSubsets. split.
  - intros [Hs (sub & -> & Hsub)]. split; [done|]. by exists sub.
  - intros [Hs (sub & Hsub & ->)]. split; [done|]. by exists sub.
Qed.

(** ** The optimizer on one row *)

Lemma validateRow_true row :
  validateRow row = true
  ↔ 0 < bigNumber row ∧ (length (smallNumbers row) ≤ 12)%nat
    ∧ Forall (λ num, 0 < num) (smallNumbers row).
Proof.
  unfold validateRow. rewrite !andb_true_iff, forallb_forall, Forall_forall.
  rewrite Z.gtb_gt, Nat.leb_le. setoid_rewrite Z.gtb_gt.
  setoid_rewrite <- list_elem_of_In. split.
  - intros [[Hbig Hlen] Hall]. split_and!; [lia|done|]. intros x Hx. apply Hall in Hx. lia.
  - intros (Hbig & Hlen & Hall). split_and!; [lia|done|]. intros x Hx. apply Hall in Hx. lia.
Qed.

Lemma findOptimalSubset_feasible numbers target result :
  0 ≤ target →
  findOptimalSubset numbers target = Ok result →
  result ⊆+ numbers ∧ StronglySorted Z.le result ∧ sumZ result ≤ target.
Proof.
  intros Htarget. unfold findOptimalSubset. repeat case_decide.
  - intros [= <-]. split_and!; [apply submseteq_nil_l|constructor|done].
  - destruct numbers as [|x [|? ?]]; simplify_eq/=.
    change (num_at [x] 0) with x. destruct (Z.leb_spec x target); intros [= <-].
    + split_and!; [done|repeat constructor|simpl; lia].
    + split_and!; [apply submseteq_nil_l|constructor|done].
  - destruct (combineLoop _ _ _) as [best| |] eqn:Hloop; [|done..]. simpl. intros [= <-].
    apply combineLoop_feasible in Hloop as (Hsum & Hfit & Hsub); [|done].
    rewrite take_drop in Hsub. split_and!.
    + rewrite js_sort_perm. by apply sublist_submseteq.
    + apply js_sort_byValue_sorted.
    + rewrite (sumZ_perm _ _ (js_sort_perm byValue best.2)). lia.
Qed.

Lemma findOptimalSubset_optimal numbers target result sub :
  (length numbers ≤ 60)%nat → Forall (λ x, 0 ≤ x) numbers → 0 ≤ target →
  findOptimalSubset numbers target = Ok result →
  sub `sublist_of` numbers → sumZ sub ≤ target →
  sumZ sub ≤ sumZ result.
Proof.
  intros Hlen Hpos Htarget. unfold findOptimalSubset. repeat case_decide.
  - destruct numbers; [|done]. intros [= <-] ->%sublist_nil_r _. done.
  - destruct numbers as [|x [|? ?]]; simplify_eq/=.
    change (num_at [x] 0) with x. apply Forall_cons_1 in Hpos as [Hx _].
    intros [= <-] Hsub Hfit. apply sublist_cons_r in Hsub as [->%sublist_nil_r|(l' & -> & ->%sublist_nil_r)].
    + destruct (x <=? target); simpl; lia.
    + simpl in *. destruct (Z.leb_spec x target); simpl; lia.
  - destruct (combineLoop _ _ _) as [best| |] eqn:Hloop; [|done..]. simpl.
    intros [= <-] Hsub Hfit.
    rewrite (sumZ_perm _ _ (js_sort_perm byValue best.2)).
    pose proof (combineLoop_feasible _ _ _ _ Htarget Hloop) as (<- & _ & _).
    assert (length numbers / 2 ≤ 30)%nat by (apply Nat.Div0.div_le_upper_bound; lia).
    assert (length numbers - length numbers / 2 ≤ 30)%nat.
    { pose proof (Nat.div_mod_eq (length numbers) 2).
      pose proof (Nat.mod_upper_bound (length numbers) 2). lia. }
    eapply combineLoop_optimal; [| | |done| |done].
    + rewrite length_take. lia.
    + rewrite length_drop. lia.
    + by apply Forall_drop.
    + by rewrite take_drop.
Qed.

Lemma submseteq_count_occ (l1 l2 : list Z) v :
  l1 ⊆+ l2 → (count_occ Z.eq_dec l1 v ≤ count_occ Z.eq_dec l2 v)%nat.
Proof.
  intros [k Hk]%submseteq_Permutation.
  rewrite (proj1 (Permutation_count_occ Z.eq_dec _ _) Hk v), count_occ_app.
  apply Nat.le_add_r.
Qed.

Lemma optimizeRow_valid row :
  validateRow row = true →
  ∃ result,
    optimizeRow row = Ok (OptimizationResult.mk result (sumZ result) row)
    ∧ result ⊆+ smallNumbers row ∧ StronglySorted Z.le result
    ∧ sumZ result ≤ bigNumber row
    ∧ ∀ sub, sub `sublist_of` smallNumbers row → sumZ sub ≤ bigNumber row →
             sumZ sub ≤ sumZ result.
Proof.
  intros (Hbig & Hlen & Hall)%validateRow_true.
  destruct (optimizeRow_Ok row) as (result & Hres & Hrow).
  exists result. split; [done|].
  assert (0 ≤ bigNumber row) as Htarget by lia.
  destruct (findOptimalSubset_feasible _ _ _ Htarget Hres) as (Hsub & Hsorted & Hfit).
  split_and!; [done..|]. intros sub Hs Hsfit.
  eapply findOptimalSubset_optimal; [| |done|done..]; [lia|].
  eapply Forall_impl; [done|]. simpl. lia.
Qed.

(** ** Validation *)

Lemma validateRow_iff (row : CSVRow) :
  validateRow row = true
  ↔ bigNumber row > 0
    ∧ (length (smallNumbers row) ≤ 12)%nat
    ∧ (∀ num, num ∈ smallNumbers row → num > 0).
Proof.
  rewrite validateRow_true, Forall_forall. split.
  - intros (? & ? & Hall). split_and!; [lia|done|]. intros num Hnum%Hall. lia.
  - intros (? & ? & Hall). split_and!; [lia|done|]. intros num Hnum%Hall. lia.
Qed.

(** C7 (as the code has it). [optimizeRow] does not validate its row: on a
    row with more than 12 candidates, a non-positive target or a non-positive
    candidate it raises nothing and returns an optimization result for that
    row; such rows are rejected by [validateRow] alone, which answers [false]
    on them. *)
Theorem optimizeRow_invalid_row (row : CSVRow) :
  (12 < length (smallNumbers row))%nat
  ∨ bigNumber row ≤ 0
  ∨ (∃ num, num ∈ smallNumbers row ∧ num ≤ 0) →
  validateRow row = false
  ∧ ∃ r, optimizeRow row = Ok r ∧ OptimizationResult.originalRow r = row.
Proof.
  intros Hbad. split.
  - apply not_true_is_false. rewrite validateRow_true, Forall_forall.
    intros (? & ? & Hall). destruct Hbad as [?|[?|(num & Hnum%Hall & ?)]]; lia.
  - destruct (optimizeRow_Ok row) as (result & _ & ->). eauto.
Qed.

Lemma optimizeRow_invalid_row_witness :
  validateRow (mkRow 10 [1; -2; 3]) = false
  ∧ ∃ r, optimizeRow (mkRow 10 [1; -2; 3]) = Ok r
         ∧ OptimizationResult.originalRow r = mkRow 10 [1; -2; 3].
Proof.
  apply (optimizeRow_invalid_row (mkRow 10 [1; -2; 3])).
  right. right. exists (-2). split; [|lia]. simpl.
  apply list_elem_of_further, list_elem_of_here.
Defined.

(** C7, as stated, fails: rows breaking each of the three invariants get a
    result, not an error. *)
Lemma optimizeRow_no_fail_fast :
  optimizeRow (mkRow (-5) [1; 2; 3])
    = Ok (OptimizationResult.mk [] 0 (mkRow (-5) [1; 2; 3]))
  ∧ optimizeRow (mkRow 10 [1; -2; 3])
    = Ok (OptimizationResult.mk [1; 3] 4 (mkRow 10 [1; -2; 3]))
  ∧ optimizeRow (mkRow 10 [1; 1; 1; 1; 1; 1; 1; 1; 1; 1; 1; 1; 1])
    = Ok (OptimizationResult.mk [1; 1; 1; 1; 1; 1; 1; 1; 1; 1] 10
            (mkRow 10 [1; 1; 1; 1; 1; 1; 1; 1; 1; 1; 1; 1; 1])).
Proof. split_and!; vm_compute; reflexivity. Qed.

(** ** The enumeration, entry by entry *)




(** ** The tie-break of the combination loop *)

(** C6. In the combination loop of [findOptimalSubset] the pair
    [(bestSum, bestCombination)] is replaced only by a strictly greater total.
    Hence a state whose sum already is the final one is the final state (no
    later combination of the same sum replaces it). The final pair is the
    initial [(0, [])] or has a positive sum, and a positive final sum was
    written by the first left entry, in the order of the enumeration, whose
    total reaches it: every earlier entry with a feasible total has a strictly
    smaller one, and no entry has a greater one. *)
Theorem findOptimalSubset_tie_break (numbers : list Z) (target : Z) :
  (2 ≤ length numbers)%nat →
  let mid := (length numbers / 2)%nat in
  let leftSums := generateAllSubsetSums (take mid numbers) in
  let rightSums := js_sort bySum (generateAllSubsetSums (drop mid numbers)) in
  let feasibleTotal leftSum total :=
    ∃ e, findBestSum rightSums (target - SubsetSum.sum leftSum) = Ok e
         ∧ SubsetSum.sum leftSum ≤ target
         ∧ total = SubsetSum.sum leftSum + SubsetSum.sum e
         ∧ total ≤ target in
  ∃ best,
    combineLoop leftSums rightSums target = Ok best
    ∧ findOptimalSubset numbers target = Ok (js_sort byValue best.2)
    ∧ (∀ st leftSum st',
         combineStep rightSums target st leftSum = Ok st' → st' = st ∨ st.1 < st'.1)
    ∧ (∀ seen rest st,
         leftSums = seen ++ rest →
         forOf (combineStep rightSums target) seen (0, []) = Ok st →
         st.1 = best.1 → st = best)
    ∧ (∀ leftSum total, leftSum ∈ leftSums → feasibleTotal leftSum total →
                        total ≤ best.1)
    ∧ (best = (0, []) ∨ 0 < best.1)
    ∧ (0 < best.1 →
       ∃ seen leftSum rest e,
         leftSums = seen ++ leftSum :: rest
         ∧ findBestSum rightSums (target - SubsetSum.sum leftSum) = Ok e
         ∧ feasibleTotal leftSum best.1
         ∧ best.2 = SubsetSum.subset leftSum ++ SubsetSum.subset e
         ∧ ∀ earlier total, earlier ∈ seen → feasibleTotal earlier total →
                            total < best.1).
Proof.
  intros Hn mid leftSums rightSums feasibleTotal.
  destruct (combineLoop_total leftSums rightSums target) as [best Hloop].
  exists best. split; [done|]. split.
  { rewrite findOptimalSubset_split by done. fold mid leftSums rightSums.
    by rewrite Hloop. }
  split; [intros st leftSum st'; apply combineStep_update|].
  split.
  { intros seen rest st Hsplit Hseen Hsum. unfold combineLoop in Hloop.
    rewrite Hsplit, forOf_app, Hseen in Hloop. simpl in Hloop.
    by apply forOf_combine_mono in Hloop as [_ ->]. }
  split.
  { intros leftSum total Hin (e & He & Hfit & -> & Htot).
    by eapply (forOf_combine_upper _ _ _ _ _ Hloop). }
  split.
  { destruct (forOf_combine_mono _ _ _ _ _ Hloop) as [Hle Heq]. simpl in *.
    destruct (decide (best.1 = 0)) as [H0|H0]; [left; symmetry; auto|right; lia]. }
  intros Hpos. pose proof Hloop as Hfirst.
  apply forOf_combine_first in Hfirst
    as [->|(seen & l & rest & st & e & Hsplit & Hseen & Hlt & He & Hfit & Htot & ->)];
    [simpl in Hpos; lia|].
  exists seen, l, rest, e. split_and!; [done|done| |done|].
  - exists e. by split_and!.
  - intros earlier total Hin (e' & He' & Hfit' & -> & Htot').
    eapply Z.le_lt_trans; [|exact Hlt].
    by eapply (forOf_combine_upper _ _ _ _ _ Hseen).
Qed.

Lemma findOptimalSubset_tie_break_witness :
  let numbers := [1; 2; 3; 4; 5; 6] in
  let target := 10 in
  let mid := (length numbers / 2)%nat in
  let leftSums := generateAllSubsetSums (take mid numbers) in
  let rightSums := js_sort bySum (generateAllSubsetSums (drop mid numbers)) in
  let feasibleTotal leftSum total :=
    ∃ e, findBestSum rightSums (target - SubsetSum.sum leftSum) = Ok e
         ∧ SubsetSum.sum leftSum ≤ target
         ∧ total = SubsetSum.sum leftSum + SubsetSum.sum e
         ∧ total ≤ target in
  ∃ best,
    combineLoop leftSums rightSums target = Ok best
    ∧ findOptimalSubset numbers target = Ok (js_sort byValue best.2)
    ∧ (∀ st leftSum st',
         combineStep rightSums target st leftSum = Ok st' → st' = st ∨ st.1 < st'.1)
    ∧ (∀ seen rest st,
         leftSums = seen ++ rest →
         forOf (combineStep rightSums target) seen (0, []) = Ok st →
         st.1 = best.1 → st = best)
    ∧ (∀ leftSum total, leftSum ∈ leftSums → feasibleTotal leftSum total →
                        total ≤ best.1)
    ∧ (best = (0, []) ∨ 0 < best.1)
    ∧ (0 < best.1 →
       ∃ seen leftSum rest e,
         leftSums = seen ++ leftSum :: rest
         ∧ findBestSum rightSums (target - SubsetSum.sum leftSum) = Ok e
         ∧ feasibleTotal leftSum best.1
         ∧ best.2 = SubsetSum.subset leftSum ++ SubsetSum.subset e
         ∧ ∀ earlier total, earlier ∈ seen → feasibleTotal earlier total →
                            total < best.1).
Proof. apply (findOptimalSubset_tie_break [1; 2; 3; 4; 5; 6] 10). simpl. lia. Defined.

(** Among the selections of [[1; 2; 3; 4; 5; 6]] that sum to [10], the one
    met first, [[4; 6]] at the empty left entry, is returned; [[1; 3; 6]] and
    [[1; 2; 3; 4]] come later and do not replace it. *)
Example tie_break_scenario :
  combineLoop (generateAllSubsetSums [1; 2; 3])
              (js_sort bySum (generateAllSubsetSums [4; 5; 6])) 10
  = Ok (10, [4; 6]).
Proof. vm_compute. reflexivity. Qed.

(** ** Reasoning about calls on the store *)

Lemma wp_ret {A} (a : A) σ Q : Q a σ → wp (mret a) σ Q.
Proof. intros HQ. by exists a, σ. Qed.

Lemma wp_bind {A B} (m : Mem.M A) (f : A → Mem.M B) σ Q :
  wp m σ (λ a σ', wp (f a) σ' Q) → wp (m ≫= f) σ Q.
Proof.
  intros (a & σ' & Hm & b & σ'' & Hf & HQ). exists b, σ''. split; [|done].
  unfold mbind, Mem.M_bind, Mem.bind. by rewrite Hm.
Qed.

Lemma wp_mono {A} (m : Mem.M A) σ (Q Q' : A → Mem.store → Prop) :
  wp m σ Q → (∀ a σ', Q a σ' → Q' a σ') → wp m σ Q'.
Proof. intros (a & σ' & Hm & HQ) Himp. exists a, σ'. auto. Qed.

Lemma wp_alloc c σ Q :
  (∀ l, Mem.heap σ !! l = None →
        Q l (Mem.mkStore (<[l := c]> (Mem.heap σ)) (Mem.sorted σ))) →
  wp (Mem.alloc c) σ Q.
Proof.
  intros HQ. eexists _, _. split; [done|]. apply HQ.
  apply not_elem_of_dom, is_fresh.
Qed.

Lemma wp_readNums l xs σ Q :
  Mem.heap σ !! l = Some (Mem.NumArray xs) → Q xs σ → wp (Mem.readNums l) σ Q.
Proof. intros Hl HQ. exists xs, σ. unfold Mem.readNums. by rewrite Hl. Qed.

Lemma wp_readSums l es σ Q :
  Mem.heap σ !! l = Some (Mem.SumArray es) → Q es σ → wp (Mem.readSums l) σ Q.
Proof. intros Hl HQ. exists es, σ. unfold Mem.readSums. by rewrite Hl. Qed.

Lemma wp_readRow l bigNumber smallNumbers σ Q :
  Mem.heap σ !! l = Some (Mem.RowObj bigNumber smallNumbers) →
  Q (bigNumber, smallNumbers) σ → wp (Mem.readRow l) σ Q.
Proof. intros Hl HQ. eexists _, σ. unfold Mem.readRow. by rewrite Hl. Qed.

Lemma wp_writeNums l xs0 xs σ Q :
  Mem.heap σ !! l = Some (Mem.NumArray xs0) →
  Q tt (Mem.mkStore (<[l := Mem.NumArray xs]> (Mem.heap σ)) (Mem.sorted σ)) →
  wp (Mem.writeNums l xs) σ Q.
Proof. intros Hl HQ. eexists _, _. unfold Mem.writeNums. by rewrite Hl. Qed.

Lemma wp_writeSums l es0 es σ Q :
  Mem.heap σ !! l = Some (Mem.SumArray es0) →
  Q tt (Mem.mkStore (<[l := Mem.SumArray es]> (Mem.heap σ)) (Mem.sorted σ)) →
  wp (Mem.writeSums l es) σ Q.
Proof. intros Hl HQ. eexists _, _. unfold Mem.writeSums. by rewrite Hl. Qed.

Lemma wp_pushNum l xs v σ Q :
  Mem.heap σ !! l = Some (Mem.NumArray xs) →
  Q tt (Mem.mkStore (<[l := Mem.NumArray (xs ++ [v])]> (Mem.heap σ)) (Mem.sorted σ)) →
  wp (Mem.pushNum l v) σ Q.
Proof.
  intros Hl HQ. apply wp_bind. eapply wp_readNums; [done|]. by eapply wp_writeNums.
Qed.

Lemma wp_pushSum l es e σ Q :
  Mem.heap σ !! l = Some (Mem.SumArray es) →
  Q tt (Mem.mkStore (<[l := Mem.SumArray (es ++ [e])]> (Mem.heap σ)) (Mem.sorted σ)) →
  wp (Mem.pushSum l e) σ Q.
Proof.
  intros Hl HQ. apply wp_bind. eapply wp_readSums; [done|]. by eapply wp_writeSums.
Qed.

(** Invariant rule for a loop over an array. *)
Lemma wp_forEach {A S} (body : S → A → Mem.M S)
    (I : list A → S → Mem.store → Prop) xs st σ :
  I [] st σ →
  (∀ seen x st σ, I seen st σ → x ∈ xs →
     wp (body st x) σ (λ st' σ', I (seen ++ [x]) st' σ')) →
  wp (Mem.forEach body xs st) σ (I xs).
Proof.
  intros H0 Hstep.
  assert (∀ rest seen st σ, seen ++ rest = xs → I seen st σ →
            wp (Mem.forEach body rest st) σ (I xs)) as Hgen.
  { induction rest as [|x rest IH]; intros seen st' σ' Heq HI.
    - rewrite app_nil_r in Heq. subst. by apply wp_ret.
    - simpl. apply wp_bind. eapply wp_mono.
      + apply (Hstep seen x st' σ' HI). rewrite <- Heq. set_solver.
      + intros st'' σ'' HI'. apply (IH (seen ++ [x])); [|done].
        by rewrite <- app_assoc. }
  by apply (Hgen xs []).
Qed.

(** ** Representation of the entries in the heap *)

Lemma repr_mono h h' e pe : h ⊆ h' → repr h e pe → repr h' e pe.
Proof. intros Hsub [Hsum Hl]. split; [done|]. by eapply lookup_weaken. Qed.

Lemma repr_insert_sums h l es es' e pe :
  h !! l = Some (Mem.SumArray es) → repr h e pe → repr (<[l := Mem.SumArray es']> h) e pe.
Proof.
  intros Hl [Hsum He]. split; [done|]. rewrite lookup_insert_ne; [done|]. congruence.
Qed.

Lemma reprs_mono h h' es pes :
  h ⊆ h' → Forall2 (repr h) es pes → Forall2 (repr h') es pes.
Proof.
  intros Hsub Hes. eapply Forall2_impl; [done|]. intros e pe. by apply repr_mono.
Qed.

Lemma reprs_insert_sums h l es0 es' es pes :
  h !! l = Some (Mem.SumArray es0) →
  Forall2 (repr h) es pes → Forall2 (repr (<[l := Mem.SumArray es']> h)) es pes.
Proof.
  intros Hl Hes. eapply Forall2_impl; [done|]. intros e pe. by eapply repr_insert_sums.
Qed.

(** ** The enumeration on the store *)

Lemma mem_pick_loop numbers subset xs mask indices :
  numbers ≠ subset →
  ∀ sub0 sum0 σ,
  Mem.heap σ !! numbers = Some (Mem.NumArray xs) →
  Mem.heap σ !! subset = Some (Mem.NumArray sub0) →
  wp (Mem.forEach (Mem.pickStep numbers subset mask) indices sum0) σ
     (λ sum' σ',
        let st := fold_left (pickStep xs mask) indices (sub0, sum0) in
        sum' = st.2
        ∧ Mem.heap σ' = <[subset := Mem.NumArray st.1]> (Mem.heap σ)
        ∧ Mem.sorted σ' = Mem.sorted σ).
Proof.
  intros Hne. induction indices as [|i indices IH]; intros sub0 sum0 σ Hnum Hsub.
  - apply wp_ret. simpl. by rewrite insert_id.
  - cbn [Mem.forEach fold_left]. apply wp_bind. unfold Mem.pickStep at 1.
    replace (pickStep xs mask (sub0, sum0) i)
      with (if included mask i
            then (sub0 ++ [num_at xs i], sum0 + num_at xs i) else (sub0, sum0))
      by done.
    destruct (included mask i).
    + apply wp_bind. eapply wp_readNums; [done|].
      apply wp_bind. eapply wp_pushNum; [done|]. apply wp_ret.
      eapply wp_mono.
      * apply (IH (sub0 ++ [num_at xs i]) (sum0 + num_at xs i)); simpl.
        -- by rewrite lookup_insert_ne.
        -- by rewrite lookup_insert_eq.
      * simpl. intros sum' σ' (-> & Hheap & Hsorted).
        rewrite Hheap, Hsorted. simpl. by rewrite insert_insert_eq.
    + apply wp_ret. by apply IH.
Qed.

Lemma mem_maskStep numbers result xs es mask σ :
  Mem.heap σ !! numbers = Some (Mem.NumArray xs) →
  Mem.heap σ !! result = Some (Mem.SumArray es) →
  wp (Mem.maskStep numbers result (Z.of_nat (length xs)) tt mask) σ
     (λ _ σ',
        ∃ subset,
          Mem.heap σ !! subset = None
          ∧ Mem.heap σ'
            = <[result := Mem.SumArray
                  (es ++ [Mem.SubsetSum.mk (SubsetSum.sum (subsetOfMask xs mask)) subset])]>
                (<[subset := Mem.NumArray (SubsetSum.subset (subsetOfMask xs mask))]>
                   (Mem.heap σ))
          ∧ Mem.sorted σ' = Mem.sorted σ).
Proof.
  intros Hnum Hres. unfold Mem.maskStep. apply wp_bind, wp_alloc. intros subset Hfresh.
  apply wp_bind. eapply wp_mono.
  - apply (mem_pick_loop numbers subset xs mask); simpl.
    + congruence.
    + rewrite lookup_insert_ne; [done|congruence].
    + by rewrite lookup_insert_eq.
  - simpl. intros sum' σ' (-> & Hheap & Hsorted). eapply wp_pushSum.
    + rewrite Hheap, insert_insert_eq, lookup_insert_ne; [done|congruence].
    + exists subset. simpl. rewrite Hheap, insert_insert_eq. done.
Qed.

Lemma mem_generateAllSubsetSums numbers xs σ :
  Mem.heap σ !! numbers = Some (Mem.NumArray xs) →
  wp (Mem.generateAllSubsetSums numbers) σ
     (λ result σ',
        Mem.heap σ ⊆ Mem.heap σ'
        ∧ Mem.sorted σ' = Mem.sorted σ
        ∧ Mem.heap σ !! result = None
        ∧ ∃ es, Mem.heap σ' !! result = Some (Mem.SumArray es)
                ∧ Forall2 (repr (Mem.heap σ')) es (generateAllSubsetSums xs)).
Proof.
  intros Hnum. unfold Mem.generateAllSubsetSums.
  apply wp_bind, wp_alloc. intros result Hfresh.
  apply wp_bind. eapply wp_readNums; [simpl; rewrite lookup_insert_ne; [done|congruence]|].
  apply wp_bind. eapply wp_mono.
  - apply (wp_forEach _ (λ seen _ σc,
        Mem.heap σ ⊆ Mem.heap σc
        ∧ Mem.sorted σc = Mem.sorted σ
        ∧ ∃ es, Mem.heap σc !! result = Some (Mem.SumArray es)
                ∧ Forall2 (repr (Mem.heap σc)) es (subsetOfMask xs <$> seen))).
    + simpl. split_and!; [by apply insert_subseteq|done|].
      exists []. by rewrite lookup_insert_eq.
    + intros seen mask [] σc (Hsub & Hsorted & es & Hres & Hes) _.
      eapply wp_mono.
      * apply (mem_maskStep numbers result xs es mask); [|done].
        by eapply lookup_weaken.
      * simpl. intros _ σ' (subset & Hsubset & Hheap & Hsorted').
        rewrite Hheap. split_and!.
        -- apply insert_subseteq_r; [done|]. apply insert_subseteq_r; [|done].
           destruct (Mem.heap σ !! subset) eqn:Hl; [|done].
           eapply lookup_weaken in Hl; [|done]. congruence.
        -- congruence.
        -- eexists. split; [by rewrite lookup_insert_eq|].
           rewrite fmap_app. apply Forall2_app.
           ++ eapply reprs_insert_sums; [rewrite lookup_insert_ne; [done|congruence]|].
              eapply reprs_mono; [|done]. by apply insert_subseteq.
           ++ constructor; [|constructor]. split; [done|]. simpl.
              rewrite lookup_insert_ne by congruence. by rewrite lookup_insert_eq.
  - simpl. intros [] σ' (Hsub & Hsorted & es & Hres & Hes). apply wp_ret.
    split_and!; [done..|]. by exists es.
Qed.

(** ** The binary search on the store *)

Lemma at_index_Forall2 {A B} (R : A → B → Prop) (xs : list A) (ys : list B) i :
  Forall2 R xs ys → option_Forall2 R (at_index xs i) (at_index ys i).
Proof.
  intros HR. unfold at_index. destruct (i <? 0); [constructor|].
  by apply Forall2_lookup.
Qed.

Lemma mem_memberSums arr es i σ :
  Mem.heap σ !! arr = Some (Mem.SumArray es) →
  Mem.memberSums arr i σ
  = match at_index es i with Some e => Ok (e, σ) | None => TypeError end.
Proof.
  intros Harr. unfold Mem.memberSums, mbind, Mem.M_bind, Mem.bind, Mem.readSums.
  rewrite Harr. by destruct (at_index es i).
Qed.

(** The loop on the store is the loop on the values it stands for, and
    leaves the store as it is. *)
Lemma mem_searchLoop arr es pes target σ :
  Mem.heap σ !! arr = Some (Mem.SumArray es) →
  Forall2 (repr (Mem.heap σ)) es pes →
  ∀ fuel left right bestIndex,
  Mem.searchLoop fuel arr target left right bestIndex σ
  = match searchLoop fuel pes target left right bestIndex with
    | Ok idx => Ok (idx, σ)
    | TypeError => TypeError
    | OutOfFuel => OutOfFuel
    end.
Proof.
  intros Harr Hes. induction fuel as [|fuel IH]; intros left right bestIndex; simpl.
  - by destruct (left <=? right).
  - destruct (left <=? right); [|done].
    unfold mbind at 1, Mem.M_bind, Mem.bind. rewrite (mem_memberSums _ es) by done.
    unfold member.
    destruct (at_index_Forall2 _ _ _ ((left + right) / 2) Hes) as [e pe [Hsum _]|]; [|done].
    simpl. rewrite Hsum. destruct (SubsetSum.sum pe <=? target); apply IH.
Qed.

Lemma mem_findBestSum arr es pes target σ :
  Mem.heap σ !! arr = Some (Mem.SumArray es) →
  Forall2 (repr (Mem.heap σ)) es pes →
  wp (Mem.findBestSum arr target) σ
     (λ e σ',
        Mem.heap σ ⊆ Mem.heap σ'
        ∧ Mem.sorted σ' = Mem.sorted σ
        ∧ ∃ pe, findBestSum pes target = Ok pe ∧ repr (Mem.heap σ') e pe).
Proof.
  intros Harr Hes. pose proof (Forall2_length _ _ _ Hes) as Hlen.
  unfold Mem.findBestSum. apply wp_bind. eapply wp_readSums; [done|].
  case_decide as Hnil.
  - apply wp_bind, wp_alloc. intros subset Hfresh. apply wp_ret. simpl.
    split_and!; [by apply insert_subseteq|done|].
    exists (SubsetSum.mk 0 []). split.
    + destruct pes; [done|]. simpl in *. lia.
    + split; [done|]. simpl. by rewrite lookup_insert_eq.
  - destruct (findBestSum_index pes target) as (idx & pe & Hrun & _ & Hat & Hres).
    { intros ->. simpl in *. lia. }
    pose proof (at_index_Forall2 _ _ _ idx Hes) as Hrel. rewrite Hat in Hrel.
    inversion Hrel as [e pe' Hrepr He|]; subst.
    exists e, σ. split.
    + unfold mbind, Mem.M_bind, Mem.bind.
      rewrite (mem_searchLoop arr es pes) by done.
      rewrite Hlen, Hrun. rewrite (mem_memberSums _ es) by done. by rewrite <- He.
    + split_and!; [done..|]. by exists pe.
Qed.

(** ** Array operations on the store *)

Lemma sort_insert_Forall2 {A B} (R : A → B → Prop) cmp1 cmp2 x x' l l' :
  (∀ a b a' b', R a a' → R b b' → cmp1 a b = cmp2 a' b') →
  R x x' → Forall2 R l l' →
  Forall2 R (sort_insert cmp1 x l) (sort_insert cmp2 x' l').
Proof.
  intros Hcmp Hx. induction 1 as [|y y' l l' Hy Hl IH]; simpl.
  - by repeat constructor.
  - rewrite (Hcmp x y x' y') by done.
    destruct (cmp2 x' y' <=? 0); repeat (constructor; try done).
Qed.

Lemma js_sort_Forall2 {A B} (R : A → B → Prop) cmp1 cmp2 l l' :
  (∀ a b a' b', R a a' → R b b' → cmp1 a b = cmp2 a' b') →
  Forall2 R l l' → Forall2 R (js_sort cmp1 l) (js_sort cmp2 l').
Proof.
  intros Hcmp. induction 1; simpl; [constructor|]. by apply sort_insert_Forall2.
Qed.

Lemma js_sort_reprs h es pes :
  Forall2 (repr h) es pes →
  Forall2 (repr h) (js_sort Mem.bySum es) (js_sort bySum pes).
Proof.
  apply js_sort_Forall2. intros a b a' b' [Ha _] [Hb _].
  unfold Mem.bySum, bySum. by rewrite Ha, Hb.
Qed.

Lemma wp_slice arr xs from to σ Q :
  Mem.heap σ !! arr = Some (Mem.NumArray xs) →
  (∀ l, Mem.heap σ !! l = None →
        Q l (Mem.mkStore (<[l := Mem.NumArray (take (to - from) (drop from xs))]> (Mem.heap σ))
                         (Mem.sorted σ))) →
  wp (Mem.slice arr from to) σ Q.
Proof.
  intros Harr HQ. apply wp_bind. eapply wp_readNums; [done|]. by apply wp_alloc.
Qed.

Lemma wp_spread a b xs ys σ Q :
  Mem.heap σ !! a = Some (Mem.NumArray xs) →
  Mem.heap σ !! b = Some (Mem.NumArray ys) →
  (∀ l, Mem.heap σ !! l = None →
        Q l (Mem.mkStore (<[l := Mem.NumArray (xs ++ ys)]> (Mem.heap σ)) (Mem.sorted σ))) →
  wp (Mem.spread a b) σ Q.
Proof.
  intros Ha Hb HQ. apply wp_bind. eapply wp_readNums; [done|].
  apply wp_bind. eapply wp_readNums; [done|]. by apply wp_alloc.
Qed.

Lemma wp_sortNums arr xs σ Q :
  Mem.heap σ !! arr = Some (Mem.NumArray xs) →
  Q arr (Mem.mkStore (<[arr := Mem.NumArray (js_sort byValue xs)]> (Mem.heap σ))
                     (Mem.sorted σ ++ [arr])) →
  wp (Mem.sortNums arr) σ Q.
Proof.
  intros Harr HQ. apply wp_bind. eapply wp_readNums; [done|].
  apply wp_bind. eapply wp_writeNums; [done|].
  apply wp_bind. eexists tt, _. split; [done|]. by apply wp_ret.
Qed.

Lemma wp_sortSums arr es σ Q :
  Mem.heap σ !! arr = Some (Mem.SumArray es) →
  Q arr (Mem.mkStore (<[arr := Mem.SumArray (js_sort Mem.bySum es)]> (Mem.heap σ))
                     (Mem.sorted σ ++ [arr])) →
  wp (Mem.sortSums arr) σ Q.
Proof.
  intros Harr HQ. apply wp_bind. eapply wp_readSums; [done|].
  apply wp_bind. eapply wp_writeSums; [done|].
  apply wp_bind. eexists tt, _. split; [done|]. by apply wp_ret.
Qed.

(** ** The combination loop on the store *)

Lemma mem_combineStep rightSums res pres target bestSum bc comb leftSum pl σ :
  Mem.heap σ !! rightSums = Some (Mem.SumArray res) →
  Forall2 (repr (Mem.heap σ)) res pres →
  repr (Mem.heap σ) leftSum pl →
  Mem.heap σ !! bc = Some (Mem.NumArray comb) →
  wp (Mem.combineStep rightSums target (bestSum, bc) leftSum) σ
     (λ st' σ',
        Mem.heap σ ⊆ Mem.heap σ'
        ∧ Mem.sorted σ' = Mem.sorted σ
        ∧ ∃ pst', combineStep pres target (bestSum, comb) pl = Ok pst'
                  ∧ st'.1 = pst'.1
                  ∧ Mem.heap σ' !! st'.2 = Some (Mem.NumArray pst'.2)
                  ∧ (st'.2 = bc ∨ Mem.heap σ !! st'.2 = None)).
Proof.
  intros Hrs Hres [Hsum Hsub] Hbc. unfold Mem.combineStep, combineStep. rewrite Hsum.
  destruct (SubsetSum.sum pl >? target).
  { apply wp_ret. split_and!; [done..|]. eexists. split_and!; [done..|by left]. }
  apply wp_bind. eapply wp_mono; [by eapply mem_findBestSum|].
  simpl. intros e σ1 (Hext & Hsorted & pe & -> & [Hesum Hesub]). simpl.
  rewrite Hesum.
  destruct ((SubsetSum.sum pl + SubsetSum.sum pe <=? target)
            && (SubsetSum.sum pl + SubsetSum.sum pe >? bestSum)).
  - apply wp_bind. eapply wp_spread; [by eapply lookup_weaken|done|].
    intros l Hfresh. apply wp_ret. simpl. split_and!.
    + etrans; [done|]. by apply insert_subseteq.
    + done.
    + eexists. split_and!; [done..|by rewrite lookup_insert_eq|].
      right. by eapply lookup_weaken_None.
  - apply wp_ret. split_and!; [done..|].
    eexists. split_and!; [done..|by eapply lookup_weaken|by left].
Qed.

Lemma mem_combineLoop rightSums res pres target σ1 ls pls :
  Mem.heap σ1 !! rightSums = Some (Mem.SumArray res) →
  Forall2 (repr (Mem.heap σ1)) res pres →
  Forall2 (repr (Mem.heap σ1)) ls pls →
  ∀ st pst σ,
  Mem.heap σ1 ⊆ Mem.heap σ →
  Mem.sorted σ = Mem.sorted σ1 →
  st.1 = pst.1 →
  Mem.heap σ !! st.2 = Some (Mem.NumArray pst.2) →
  wp (Mem.forEach (Mem.combineStep rightSums target) ls st) σ
     (λ st' σ',
        Mem.heap σ1 ⊆ Mem.heap σ'
        ∧ Mem.sorted σ' = Mem.sorted σ1
        ∧ ∃ pst', forOf (combineStep pres target) pls pst = Ok pst'
                  ∧ st'.1 = pst'.1
                  ∧ Mem.heap σ' !! st'.2 = Some (Mem.NumArray pst'.2)
                  ∧ (st'.2 = st.2 ∨ Mem.heap σ1 !! st'.2 = None)).
Proof.
  intros Hrs Hres Hls. induction Hls as [|l pl ls pls Hl Hls IH];
    intros [bestSum bc] [pbestSum comb] σ Hext Hsorted Hsum Hbc; simpl in *; subst.
  - apply wp_ret. split_and!; [done..|]. eexists. split_and!; [done..|by left].
  - apply wp_bind. eapply wp_mono.
    + eapply (mem_combineStep rightSums res pres); [by eapply lookup_weaken| | |done].
      * by eapply reprs_mono.
      * by eapply repr_mono.
    + simpl. intros [bestSum' bc'] σ2 (Hext2 & Hsorted2 & pst2 & -> & Hs2 & Hbc2 & Hfresh2).
      simpl in *. eapply wp_mono.
      * apply (IH (bestSum', bc') pst2); simpl; [by etrans|congruence|done..].
      * simpl. intros st' σ' (Hext' & Hsorted' & pst' & Hrun & Hs' & Hbc' & Hfresh').
        split_and!; [done..|]. exists pst'. split_and!; [done..|].
        destruct Hfresh' as [->|?]; [|by right].
        destruct Hfresh2 as [->|?]; [by left|right]. by eapply lookup_weaken_None.
Qed.

(** ** [findOptimalSubset] and [optimizeRow] on the store *)

(** A call of [findOptimalSubset] leaves every object of the initial heap
    as it was, sorts only arrays it has allocated itself, and returns a
    reference to an array holding what the function on values returns. *)
Lemma mem_findOptimalSubset numbers xs target σ :
  Mem.heap σ !! numbers = Some (Mem.NumArray xs) →
  wp (Mem.findOptimalSubset numbers target) σ
     (λ result σ',
        Mem.heap σ ⊆ Mem.heap σ'
        ∧ (∀ l, l ∈ Mem.sorted σ' → l ∈ Mem.sorted σ ∨ Mem.heap σ !! l = None)
        ∧ ∃ presult, findOptimalSubset xs target = Ok presult
                     ∧ Mem.heap σ' !! result = Some (Mem.NumArray presult)).
Proof.
  intros Hnum. unfold Mem.findOptimalSubset, findOptimalSubset.
  apply wp_bind. eapply wp_readNums; [done|].
  case_decide as Hn0.
  { apply wp_alloc. intros l Hl. simpl. split_and!; [by apply insert_subseteq|auto|].
    eexists. split; [done|]. by rewrite lookup_insert_eq. }
  case_decide as Hn1.
  { destruct (num_at xs 0 <=? target).
    - apply wp_ret. split_and!; [done|auto|]. by eexists.
    - apply wp_alloc. intros l Hl. simpl. split_and!; [by apply insert_subseteq|auto|].
      eexists. split; [done|]. by rewrite lookup_insert_eq. }
  set (mid := (length xs / 2)%nat).
  apply wp_bind. eapply wp_slice; [done|]. intros left Hleft.
  rewrite Nat.sub_0_r, drop_0.
  apply wp_bind. eapply wp_slice; [simpl; rewrite lookup_insert_ne; [done|congruence]|].
  simpl. intros right Hright.
  rewrite (take_ge (drop mid xs)) by (rewrite length_drop; lia).
  set (h2 := <[right := Mem.NumArray (drop mid xs)]>
               (<[left := Mem.NumArray (take mid xs)]> (Mem.heap σ))).
  assert (Mem.heap σ ⊆ h2) as Hext2.
  { unfold h2. etrans; [|by apply insert_subseteq]. by apply insert_subseteq. }
  apply wp_bind. eapply wp_mono.
  { apply (mem_generateAllSubsetSums left (take mid xs)). simpl. fold h2.
    unfold h2. rewrite lookup_insert_ne, lookup_insert_eq; [done|].
    intros <-. by rewrite lookup_insert_eq in Hright. }
  simpl. fold h2. intros leftSums σ3 (Hext3 & Hsorted3 & Hls_fresh & ls & Hls & Hlrepr).
  apply wp_bind. eapply wp_mono.
  { apply (mem_generateAllSubsetSums right (drop mid xs)).
    eapply lookup_weaken; [|done]. unfold h2. by rewrite lookup_insert_eq. }
  simpl. intros rightSums σ4 (Hext4 & Hsorted4 & Hrs_fresh & rs & Hrs & Hrrepr).
  apply wp_bind. eapply wp_sortSums; [done|].
  set (h5 := <[rightSums := Mem.SumArray (js_sort Mem.bySum rs)]> (Mem.heap σ4)).
  assert (Mem.heap σ ⊆ h5) as Hext5.
  { unfold h5. apply insert_subseteq_r; [|by repeat (etrans; [done|])].
    eapply lookup_weaken_None; [done|]. by etrans. }
  assert (h5 !! leftSums = Some (Mem.SumArray ls)) as Hls5.
  { unfold h5. rewrite lookup_insert_ne; [by eapply lookup_weaken|].
    intros <-. congruence. }
  assert (Forall2 (repr h5) ls (generateAllSubsetSums (take mid xs))) as Hlrepr5.
  { unfold h5. eapply reprs_insert_sums; [done|]. by eapply reprs_mono. }
  assert (Forall2 (repr h5) (js_sort Mem.bySum rs)
            (js_sort bySum (generateAllSubsetSums (drop mid xs)))) as Hrrepr5.
  { unfold h5. eapply reprs_insert_sums; [done|]. by apply js_sort_reprs. }
  apply wp_bind, wp_alloc. simpl. fold h5. intros bc Hbc.
  set (σ6 := Mem.mkStore (<[bc := Mem.NumArray []]> h5) (Mem.sorted σ4 ++ [rightSums])).
  assert (h5 ⊆ Mem.heap σ6) as Hext6 by by apply insert_subseteq.
  apply wp_bind. eapply wp_readSums; [by eapply lookup_weaken|].
  apply wp_bind. eapply wp_mono.
  { apply (mem_combineLoop rightSums (js_sort Mem.bySum rs)
             (js_sort bySum (generateAllSubsetSums (drop mid xs))) target σ6 ls
             (generateAllSubsetSums (take mid xs))
             ltac:(simpl; rewrite lookup_insert_ne;
                   [by unfold h5; rewrite lookup_insert_eq
                   |intros <-; unfold h5 in Hbc; by rewrite lookup_insert_eq in Hbc])
             ltac:(by eapply reprs_mono) ltac:(by eapply reprs_mono)
             (0, bc) (0, []) σ6);
      [done|done|done|]. simpl. by rewrite lookup_insert_eq. }
  simpl. intros [bestSum b] σ7 (Hext7 & Hsorted7 & pbest & Hloop & Hsum & Hb & Hb_fresh).
  simpl in *. eapply wp_sortNums; [done|]. simpl.
  assert (Mem.heap σ !! b = None) as Hb0.
  { destruct Hb_fresh as [->|Hb6].
    - by eapply lookup_weaken_None.
    - eapply lookup_weaken_None; [done|]. by etrans. }
  split_and!.
  - apply insert_subseteq_r; [done|]. by repeat (etrans; [done|]).
  - intros l. rewrite Hsorted7, Hsorted4, Hsorted3. simpl.
    rewrite !elem_of_app, !list_elem_of_singleton.
    intros [[?| ->]| ->]; [by left|right..|by right].
    eapply lookup_weaken_None; [exact Hrs_fresh|]. by transitivity h2.
  - unfold combineLoop. fold mid. rewrite Hloop. simpl.
    eexists. split; [done|]. by rewrite lookup_insert_eq.
Qed.

Lemma mem_optimizeRow row bigNumber smallNumbers xs σ :
  Mem.heap σ !! row = Some (Mem.RowObj bigNumber smallNumbers) →
  Mem.heap σ !! smallNumbers = Some (Mem.NumArray xs) →
  wp (Mem.optimizeRow row) σ
     (λ r σ',
        Mem.heap σ ⊆ Mem.heap σ'
        ∧ Mem.OptimizationResult.originalRow r = row
        ∧ (∀ l, l ∈ Mem.sorted σ' → l ∈ Mem.sorted σ ∨ Mem.heap σ !! l = None)
        ∧ ∃ pr, optimizeRow (mkRow bigNumber xs) = Ok pr
                ∧ Mem.OptimizationResult.sum r = OptimizationResult.sum pr
                ∧ Mem.heap σ' !! Mem.OptimizationResult.selectedNumbers r
                  = Some (Mem.NumArray (OptimizationResult.selectedNumbers pr))).
Proof.
  intros Hrow Hnums. unfold Mem.optimizeRow, optimizeRow.
  apply wp_bind. eapply wp_readRow; [done|].
  apply wp_bind. eapply wp_readNums; [done|]. simpl.
  case_decide.
  - apply wp_bind, wp_alloc. intros l Hl. apply wp_ret. simpl.
    split_and!; [by apply insert_subseteq|done|auto|].
    eexists. split_and!; [done..|]. simpl. by rewrite lookup_insert_eq.
  - apply wp_bind. eapply wp_mono; [by apply mem_findOptimalSubset|].
    simpl. intros result σ' (Hext & Hsorted & presult & -> & Hres).
    apply wp_bind. eapply wp_readNums; [done|]. apply wp_ret. simpl.
    split_and!; [done..|]. eexists. by split_and!.
Qed.

Lemma mem_validateRow l row array σ :
  Mem.heap σ !! l = Some (Mem.RowObj (bigNumber row) array) →
  Mem.heap σ !! array = Some (Mem.NumArray (smallNumbers row)) →
  Mem.validateRow l σ = Ok (validateRow row, σ).
Proof.
  intros Hrow Hnums.
  unfold Mem.validateRow, mbind, Mem.M_bind, Mem.bind, Mem.readRow, Mem.readNums.
  by rewrite Hrow, Hnums.
Qed.

(** C8. [validateRow] accepts a row exactly when its target is positive,
    it has at most 12 candidates, and every candidate is positive. It has no
    effect: run on a store that holds the row, it returns that answer and the
    store it was given. *)
Theorem validateRow_spec (row : CSVRow) :
  (validateRow row = true
   ↔ bigNumber row > 0
     ∧ (length (smallNumbers row) ≤ 12)%nat
     ∧ (∀ num, num ∈ smallNumbers row → num > 0))
  ∧ (∀ σ l array,
       Mem.heap σ !! l = Some (Mem.RowObj (bigNumber row) array) →
       Mem.heap σ !! array = Some (Mem.NumArray (smallNumbers row)) →
       Mem.validateRow l σ = Ok (validateRow row, σ)).
Proof.
  split; [apply validateRow_iff|]. intros σ l array. apply mem_validateRow.
Qed.

(** ** The frame of [optimizeRow] *)

(** C10. [optimizeRow] does not mutate its input. Called on a store that
    holds the row and its array of candidates, it returns, and afterwards the
    row object and the array are what they were (as is every other object of
    the initial heap), the [originalRow] of the result is the reference it was
    given, and every array that was sorted in place had been allocated by the
    call. The selection and the sum it returns are those of [optimizeRow] on
    values. *)
Theorem optimizeRow_frame (σ : Mem.store) (row array : Mem.loc)
    (target : Z) (candidates : list Z) :
  Mem.heap σ !! row = Some (Mem.RowObj target array) →
  Mem.heap σ !! array = Some (Mem.NumArray candidates) →
  ∃ r σ',
    Mem.optimizeRow row σ = Ok (r, σ')
    ∧ Mem.heap σ' !! row = Some (Mem.RowObj target array)
    ∧ Mem.heap σ' !! array = Some (Mem.NumArray candidates)
    ∧ Mem.heap σ ⊆ Mem.heap σ'
    ∧ Mem.OptimizationResult.originalRow r = row
    ∧ (∀ l, l ∈ Mem.sorted σ' → l ∈ Mem.sorted σ ∨ Mem.heap σ !! l = None)
    ∧ ∃ pr, optimizeRow (mkRow target candidates) = Ok pr
            ∧ Mem.OptimizationResult.sum r = OptimizationResult.sum pr
            ∧ Mem.heap σ' !! Mem.OptimizationResult.selectedNumbers r
              = Some (Mem.NumArray (OptimizationResult.selectedNumbers pr)).
Proof.
  intros Hrow Harray.
  destruct (mem_optimizeRow row target array candidates σ Hrow Harray)
    as (r & σ' & Hrun & Hext & Horig & Hsorted & Hpure).
  exists r, σ'. split_and!; [done| | |done..].
  - by eapply lookup_weaken.
  - by eapply lookup_weaken.
Qed.

Lemma optimizeRow_frame_witness :
  ∃ r σ',
    Mem.optimizeRow 1%positive exampleStore = Ok (r, σ')
    ∧ Mem.heap σ' !! 1%positive = Some (Mem.RowObj 10 2%positive)
    ∧ Mem.heap σ' !! 2%positive = Some (Mem.NumArray [3; 3; 4; 4; 5])
    ∧ Mem.heap exampleStore ⊆ Mem.heap σ'
    ∧ Mem.OptimizationResult.originalRow r = 1%positive
    ∧ (∀ l, l ∈ Mem.sorted σ' →
            l ∈ Mem.sorted exampleStore ∨ Mem.heap exampleStore !! l = None)
    ∧ ∃ pr, optimizeRow (mkRow 10 [3; 3; 4; 4; 5]) = Ok pr
            ∧ Mem.OptimizationResult.sum r = OptimizationResult.sum pr
            ∧ Mem.heap σ' !! Mem.OptimizationResult.selectedNumbers r
              = Some (Mem.NumArray (OptimizationResult.selectedNumbers pr)).
Proof.
  apply (optimizeRow_frame exampleStore 1%positive 2%positive 10 [3; 3; 4; 4; 5]);
    vm_compute; reflexivity.
Defined.

(** On that store the call sorts two arrays, both new, and returns the
    selection [[3; 3; 4]] in a new array. *)
Example optimizeRow_on_exampleStore :
  match Mem.optimizeRow 1%positive exampleStore with
  | Ok (r, σ') =>
      Mem.heap σ' !! Mem.OptimizationResult.selectedNumbers r = Some (Mem.NumArray [3; 3; 4])
      ∧ Mem.OptimizationResult.sum r = 10
      ∧ Mem.heap σ' !! 2%positive = Some (Mem.NumArray [3; 3; 4; 4; 5])
      ∧ length (Mem.sorted σ') = 2%nat
  | _ => False
  end.
Proof. vm_compute. by split_and!. Qed.

(** * Further properties of the optimizer *)

(** ** The binary search *)

(** X1. On an array sorted by sum in which some entry fits under the
    ceiling, [findBestSum] returns an entry of the array that fits and whose
    sum no fitting entry exceeds. *)
Theorem findBestSum_largest_fit (sortedSums : list SubsetSum.t) (target : Z) :
  Sorted sumLe sortedSums →
  (∃ e, e ∈ sortedSums ∧ SubsetSum.sum e ≤ target) →
  ∃ best,
    findBestSum sortedSums target = Ok best
    ∧ best ∈ sortedSums
    ∧ SubsetSum.sum best ≤ target
    ∧ ∀ e, e ∈ sortedSums → SubsetSum.sum e ≤ target →
           SubsetSum.sum e ≤ SubsetSum.sum best.
Proof.
  intros Hsorted (e0 & Hin0 & Hfit0).
  assert (Transitive sumLe) by (unfold sumLe; intros a b c; lia).
  apply Sorted_StronglySorted in Hsorted; [|done].
  destruct (findBestSum_sorted sortedSums target Hsorted)
    as (best & Hbest & Hin & [[Hfit Hmax]|[Hnone _]]).
  - intros ->. by apply elem_of_nil in Hin0.
  - exists best. by split_and!.
  - apply Hnone in Hin0. lia.
Qed.

Lemma findBestSum_largest_fit_witness :
  ∃ best,
    findBestSum [SubsetSum.mk 0 []; SubsetSum.mk 3 [3]; SubsetSum.mk 7 [7]] 5 = Ok best
    ∧ best ∈ [SubsetSum.mk 0 []; SubsetSum.mk 3 [3]; SubsetSum.mk 7 [7]]
    ∧ SubsetSum.sum best ≤ 5
    ∧ ∀ e, e ∈ [SubsetSum.mk 0 []; SubsetSum.mk 3 [3]; SubsetSum.mk 7 [7]] →
           SubsetSum.sum e ≤ 5 → SubsetSum.sum e ≤ SubsetSum.sum best.
Proof.
  apply (findBestSum_largest_fit
           [SubsetSum.mk 0 []; SubsetSum.mk 3 [3]; SubsetSum.mk 7 [7]] 5).
  - repeat constructor; unfold sumLe; simpl; lia.
  - exists (SubsetSum.mk 3 [3]). split; [|simpl; lia].
    apply list_elem_of_further, list_elem_of_here.
Defined.

(** More fuel does not change what the loop returns. *)
Lemma searchLoop_more_fuel sortedSums target fuel fuel' left right bestIndex idx :
  searchLoop fuel sortedSums target left right bestIndex = Ok idx →
  (fuel ≤ fuel')%nat →
  searchLoop fuel' sortedSums target left right bestIndex = Ok idx.
Proof.
  revert fuel' left right bestIndex.
  induction fuel as [|fuel IH]; intros fuel' left right bestIndex Hrun Hle.
  - simpl in Hrun. destruct fuel'; simpl; destruct (left <=? right); done.
  - destruct fuel' as [|fuel']; [lia|]. simpl in *.
    destruct (left <=? right); [|done].
    destruct (member sortedSums ((left + right) / 2)) as [e| |]; [|done..].
    simpl in *. destruct (SubsetSum.sum e <=? target); apply IH; (done || lia).
Qed.

(** Each turn of the loop at least halves the interval [left..right]. *)
Lemma searchLoop_halving sortedSums target fuel left right bestIndex :
  0 ≤ left → right < Z.of_nat (length sortedSums) →
  right - left + 1 < 2 ^ Z.of_nat fuel →
  ∃ idx, searchLoop fuel sortedSums target left right bestIndex = Ok idx.
Proof.
  revert left right bestIndex.
  induction fuel as [|fuel IH]; intros left right bestIndex Hl Hr Hsize.
  - simpl in *. destruct (Z.leb_spec left right); [lia|eauto].
  - simpl. destruct (Z.leb_spec left right) as [Hle|Hgt]; [|eauto].
    rewrite Nat2Z.inj_succ, Z.pow_succ_r in Hsize by lia.
    pose proof (mid_bounds _ _ Hle) as Hmid.
    assert (2 * ((left + right) / 2) ≤ left + right ≤ 2 * ((left + right) / 2) + 1).
    { pose proof (Z.div_mod (left + right) 2 ltac:(lia)).
      pose proof (Z.mod_pos_bound (left + right) 2 ltac:(lia)). lia. }
    destruct (member_in_range sortedSums ((left + right) / 2)) as (e & -> & _); [lia|].
    simpl. destruct (SubsetSum.sum e <=? target); apply IH; lia.
Qed.

(** X2. The loop of [findBestSum] over an array of [m] entries ends within
    [⌊log2 m⌋ + 1] turns: run with that much fuel it returns, and returns the
    index the search returns. *)
Theorem searchLoop_logarithmic (sortedSums : list SubsetSum.t) (target : Z) :
  let m := length sortedSums in
  ∃ bestIndex,
    searchLoop (Z.to_nat (Z.log2 (Z.of_nat m)) + 1) sortedSums target
      0 (Z.of_nat m - 1) 0 = Ok bestIndex
    ∧ searchLoop m sortedSums target 0 (Z.of_nat m - 1) 0 = Ok bestIndex.
Proof.
  intros m. subst m. set (m := length sortedSums).
  destruct (searchLoop_halving sortedSums target (Z.to_nat (Z.log2 (Z.of_nat m)) + 1)
              0 (Z.of_nat m - 1) 0) as [idx Hidx]; [lia|lia| |].
  { rewrite Nat2Z.inj_add, Z2Nat.id by apply Z.log2_nonneg.
    change (Z.of_nat 1) with 1. destruct (decide (m = 0%nat)) as [->|Hm].
    - simpl. lia.
    - pose proof (Z.log2_spec (Z.of_nat m) ltac:(lia)) as [_ Hup].
      replace (Z.succ (Z.log2 (Z.of_nat m))) with (Z.log2 (Z.of_nat m) + 1) in Hup by lia.
      lia. }
  exists idx. split; [done|].
  destruct (searchLoop_total sortedSums target m 0 (Z.of_nat m - 1) 0)
    as (idx' & Hidx' & _); [lia..|].
  rewrite Hidx'. f_equal.
  destruct (Nat.le_ge_cases m (Z.to_nat (Z.log2 (Z.of_nat m)) + 1)) as [Hle|Hge].
  - pose proof (searchLoop_more_fuel _ _ _ _ _ _ _ _ Hidx' Hle). congruence.
  - pose proof (searchLoop_more_fuel _ _ _ _ _ _ _ _ Hidx Hge). congruence.
Qed.

(** ** The enumeration on lists of any length *)


Lemma select_none bs xs : Forall (λ b, b = false) bs → select bs xs = [].
Proof.
  intros Hbs. revert xs. induction Hbs as [|b bs -> _ IH]; intros [|x xs]; simpl; auto.
Qed.

Lemma subsetOfMask_0 numbers : subsetOfMask numbers 0 = SubsetSum.mk 0 [].
Proof.
  rewrite subsetOfMask_select. simpl. rewrite select_none; [done|].
  apply Forall_fmap, Forall_forall. intros i _. simpl.
  unfold included, band. rewrite Z.land_0_l.
  apply bool_decide_eq_false. intros Hne. by apply Hne.
Qed.

(** When it produces anything, the first entry is the empty selection. *)
Lemma generateAllSubsetSums_head numbers :
  generateAllSubsetSums numbers = []
  ∨ head (generateAllSubsetSums numbers) = Some (SubsetSum.mk 0 []).
Proof.
  unfold generateAllSubsetSums.
  destruct (Z.le_gt_cases (shl 1 (Z.of_nat (length numbers))) 0) as [Hle|Hgt].
  - left. unfold range. by replace (Z.to_nat _) with 0%nat by lia.
  - right. rewrite range_cons by lia. simpl. by rewrite subsetOfMask_0.
Qed.

(** ** The combination loop with exact arithmetic *)

(** With exact arithmetic the search is only asked ceilings that are not
    negative, over sorted sums that hold the empty selection: the entry it
    returns fits, and the total does not exceed the target. *)
Lemma combineStep_total_fits (right : list Z) (target : Z) (leftSum : SubsetSum.t) :
  SubsetSum.sum leftSum ≤ target →
  ∃ bestRightSum,
    findBestSum (js_sort bySum (generateAllSubsetSums right))
      (target - SubsetSum.sum leftSum) = Ok bestRightSum
    ∧ SubsetSum.sum leftSum + SubsetSum.sum bestRightSum ≤ target.
Proof.
  intros Hfit. set (rightSums := js_sort bySum (generateAllSubsetSums right)).
  destruct (decide (rightSums = [])) as [Hnil|Hne].
  - rewrite Hnil. eexists. split; [done|]. simpl. lia.
  - destruct (findBestSum_sorted rightSums (target - SubsetSum.sum leftSum)
                (js_sort_bySum_sorted _) Hne) as (e & He & _ & [[Hefit _]|[Hnone _]]).
    + exists e. split; [done|]. lia.
    + exfalso. destruct (generateAllSubsetSums_head right) as [Hnil|Hhead].
      * apply Hne. unfold rightSums. by rewrite Hnil.
      * specialize (Hnone (SubsetSum.mk 0 [])). simpl in Hnone.
        assert (SubsetSum.mk 0 [] ∈ rightSums); [|naive_solver lia].
        unfold rightSums. rewrite js_sort_perm. by apply head_Some_elem_of.
Qed.

(** ** Rows outside the validated range *)

Lemma combineLoop_selection left right target best :
  combineLoop (generateAllSubsetSums left)
    (js_sort bySum (generateAllSubsetSums right)) target = Ok best →
  best.2 `sublist_of` left ++ right.
Proof.
  intros Hrun. unfold combineLoop in Hrun.
  apply forOf_combine_first in Hrun
    as [->|(seen & l & rest & st & e & Hsplit & _ & _ & He & _ & _ & ->)].
  { apply sublist_nil_l. }
  assert (l ∈ generateAllSubsetSums left) as [Hlsub _]%generateAllSubsetSums_sound.
  { rewrite Hsplit. set_solver. }
  simpl. apply sublist_app; [done|].
  destruct (findBestSum_total (js_sort bySum (generateAllSubsetSums right))
              (target - SubsetSum.sum l)) as (e' & He' & Hnil & Hin).
  rewrite He in He'. simplify_eq.
  destruct (decide (js_sort bySum (generateAllSubsetSums right) = [])) as [Hr|Hr].
  - rewrite (Hnil Hr). apply sublist_nil_l.
  - apply Hin in Hr. rewrite js_sort_perm in Hr.
    by apply generateAllSubsetSums_sound in Hr as [? _].
Qed.

Lemma findOptimalSubset_selection numbers target result :
  findOptimalSubset numbers target = Ok result →
  result ⊆+ numbers ∧ StronglySorted Z.le result.
Proof.
  unfold findOptimalSubset. repeat case_decide.
  - intros [= <-]. split; [apply submseteq_nil_l|constructor].
  - destruct numbers as [|x [|? ?]]; simplify_eq/=.
    destruct (num_at [x] 0 <=? target); intros [= <-].
    + split; [done|repeat constructor].
    + split; [apply submseteq_nil_l|constructor].
  - destruct (combineLoop _ _ _) as [best| |] eqn:Hloop; [|done..]. simpl. intros [= <-].
    apply combineLoop_selection in Hloop. rewrite take_drop in Hloop. split.
    + rewrite js_sort_perm. by apply sublist_submseteq.
    + apply js_sort_byValue_sorted.
Qed.

(** With exact arithmetic optimality does not need the limits of
    [validateRow]: at most 60 candidates, none of them negative, and a target
    that is not negative suffice. *)
Lemma optimizeRow_optimal_60 (row : CSVRow) :
  (length (smallNumbers row) ≤ 60)%nat →
  Forall (λ num, 0 ≤ num) (smallNumbers row) →
  0 ≤ bigNumber row →
  ∃ r, optimizeRow row = Ok r
       ∧ OptimizationResult.sum r ≤ bigNumber row
       ∧ ∀ sub, sub ⊆+ smallNumbers row → sumZ sub ≤ bigNumber row →
                sumZ sub ≤ OptimizationResult.sum r.
Proof.
  intros Hlen Hpos Htarget.
  destruct (optimizeRow_Ok row) as (result & Hres & Hrow).
  eexists. split; [done|]. simpl. split.
  - by destruct (findOptimalSubset_feasible _ _ _ Htarget Hres) as (_ & _ & ?).
  - intros sub (sub' & Hperm & Hsub')%submseteq_sublist_r Hsum.
    rewrite (sumZ_perm _ _ Hperm) in *.
    by eapply findOptimalSubset_optimal.
Qed.

(** X7. A row whose left half has 31 candidates modulo 32 (62 or 63
    candidates, 126 or 127, ...) gets the empty selection whatever its
    numbers: [1 << 31] is negative, the left enumeration is empty and the
    combination loop does not run. *)
Theorem optimizeRow_overlong_row (row : CSVRow) :
  ((length (smallNumbers row) / 2) mod 32 = 31)%nat →
  optimizeRow row = Ok (OptimizationResult.mk [] 0 row).
Proof.
  intros Hmid.
  assert (62 ≤ length (smallNumbers row))%nat as Hlen.
  { pose proof (Nat.div_mod_eq (length (smallNumbers row) / 2) 32).
    pose proof (Nat.div_mod_eq (length (smallNumbers row)) 2). lia. }
  unfold optimizeRow. rewrite decide_False by lia.
  rewrite findOptimalSubset_split by lia.
  assert (generateAllSubsetSums
            (take (length (smallNumbers row) / 2) (smallNumbers row)) = []) as ->.
  { unfold generateAllSubsetSums. rewrite length_take.
    pose proof (Nat.div_mod_eq (length (smallNumbers row)) 2).
    rewrite Nat.min_l by lia. unfold shl.
    replace (Z.of_nat (length (smallNumbers row) / 2) mod 32) with 31.
    - by vm_compute.
    - change 32 with (Z.of_nat 32). rewrite <- Nat2Z.inj_mod. lia. }
  done.
Qed.

Lemma optimizeRow_overlong_row_witness :
  optimizeRow (mkRow 62 (replicate 62 1)) = Ok (OptimizationResult.mk [] 0 (mkRow 62 (replicate 62 1))).
Proof. apply (optimizeRow_overlong_row (mkRow 62 (replicate 62 1))). reflexivity. Defined.

(** ** What the optimum implies for the user of [optimizeRow] *)

Lemma validateRow_submseteq target candidates candidates' :
  validateRow (mkRow target candidates') = true →
  candidates ⊆+ candidates' →
  validateRow (mkRow target candidates) = true.
Proof.
  rewrite !validateRow_true. simpl. intros (Ht & Hlen & Hall) Hsub. split_and!; [done| |].
  - apply submseteq_length in Hsub. lia.
  - rewrite Forall_forall in *. intros x Hx. apply Hall.
    by eapply elem_of_submseteq.
Qed.

Lemma sumZ_elem_le xs x : Forall (λ num, 0 < num) xs → x ∈ xs → x ≤ sumZ xs.
Proof.
  induction 1 as [|y ys Hy Hys IH]; [by intros ?%elem_of_nil|].
  pose proof (sumZ_nonneg ys ltac:(eapply Forall_impl; [done|simpl; lia])).
  intros [->|Hx%IH]%elem_of_cons; simpl; lia.
Qed.

(** With exact arithmetic, a sub-multiset that sums to the target makes
    [optimizeRow] reach the target. *)
Lemma optimizeRow_exact_hit (row : CSVRow) :
  validateRow row = true →
  (∃ sub, sub ⊆+ smallNumbers row ∧ sumZ sub = bigNumber row) →
  ∃ r, optimizeRow row = Ok r ∧ OptimizationResult.sum r = bigNumber row.
Proof.
  intros (result & Hrow & _ & _ & Hfit & Hopt)%optimizeRow_valid
         (sub & (sub' & Hperm & Hsub')%submseteq_sublist_r & Hsum).
  eexists. split; [done|]. simpl.
  rewrite (sumZ_perm _ _ Hperm) in Hsum. specialize (Hopt sub' Hsub'). lia.
Qed.



(** With exact arithmetic the sum grows with the target and with the
    candidates. *)
Lemma optimizeRow_monotone (target target' : Z) (candidates candidates' : list Z) :
  validateRow (mkRow target candidates) = true →
  validateRow (mkRow target' candidates') = true →
  target ≤ target' → candidates ⊆+ candidates' →
  ∃ r r', optimizeRow (mkRow target candidates) = Ok r
          ∧ optimizeRow (mkRow target' candidates') = Ok r'
          ∧ OptimizationResult.sum r ≤ OptimizationResult.sum r'.
Proof.
  intros (result & Hrow & Hsub & _ & Hfit & _)%optimizeRow_valid
         (result' & Hrow' & _ & _ & _ & Hopt')%optimizeRow_valid Htarget Hcand.
  simpl in *. eexists _, _. split_and!; [done..|]. simpl.
  assert (result ⊆+ candidates') as (sub & Hperm & Hsub')%submseteq_sublist_r
    by by etrans.
  rewrite (sumZ_perm _ _ Hperm) in *. apply Hopt'; [done|lia].
Qed.

(** With exact arithmetic the sum does not depend on the order of the
    candidates. *)
Lemma optimizeRow_permutation (target : Z) (candidates candidates' : list Z) :
  validateRow (mkRow target candidates) = true →
  candidates ≡ₚ candidates' →
  ∃ r r', optimizeRow (mkRow target candidates) = Ok r
          ∧ optimizeRow (mkRow target candidates') = Ok r'
          ∧ OptimizationResult.sum r = OptimizationResult.sum r'.
Proof.
  intros Hvalid Hperm.
  assert (validateRow (mkRow target candidates') = true) as Hvalid'.
  { eapply validateRow_submseteq; [done|]. by rewrite Hperm. }
  destruct (optimizeRow_valid _ Hvalid) as (result & Hrow & Hsub & _ & Hfit & Hopt).
  destruct (optimizeRow_valid _ Hvalid') as (result' & Hrow' & Hsub' & _ & Hfit' & Hopt').
  simpl in *. eexists _, _. split_and!; [done..|]. simpl.
  assert (result ⊆+ candidates') as (s1 & Hp1 & Hs1)%submseteq_sublist_r
    by by rewrite <- Hperm.
  assert (result' ⊆+ candidates) as (s2 & Hp2 & Hs2)%submseteq_sublist_r
    by by rewrite Hperm.
  rewrite (sumZ_perm _ _ Hp1) in *. rewrite (sumZ_perm _ _ Hp2) in *.
  specialize (Hopt' s1 Hs1). specialize (Hopt s2 Hs2). lia.
Qed.

Lemma submseteq_same_sum (xs ys : list Z) :
  Forall (λ num, 0 < num) ys → xs ⊆+ ys → sumZ ys ≤ sumZ xs → xs ≡ₚ ys.
Proof.
  intros Hpos [k Hk]%submseteq_Permutation Hsum.
  rewrite (sumZ_perm _ _ Hk), sumZ_app in Hsum.
  destruct k as [|x k]; [by rewrite Hk, app_nil_r|]. exfalso.
  assert (Forall (λ num, 0 < num) (x :: k)) as Hk_pos.
  { rewrite Forall_forall in *. intros y Hy. apply Hpos.
    rewrite Hk. apply elem_of_app. by right. }
  pose proof (sumZ_elem_le (x :: k) x Hk_pos ltac:(left)).
  apply Forall_cons_1 in Hk_pos as [? _]. lia.
Qed.

(** With exact arithmetic a second run on the selection returns it. *)
Lemma optimizeRow_idempotent (row : CSVRow) :
  validateRow row = true →
  ∃ r, optimizeRow row = Ok r
       ∧ optimizeRow (mkRow (bigNumber row) (OptimizationResult.selectedNumbers r))
         = Ok (OptimizationResult.mk (OptimizationResult.selectedNumbers r)
                 (OptimizationResult.sum r)
                 (mkRow (bigNumber row) (OptimizationResult.selectedNumbers r))).
Proof.
  intros Hvalid. pose proof Hvalid as (Hbig & Hlen & Hall)%validateRow_true.
  destruct (optimizeRow_valid row Hvalid) as (result & Hrow & Hsub & Hsorted & Hfit & _).
  eexists. split; [done|]. simpl.
  assert (validateRow (mkRow (bigNumber row) result) = true) as Hvalid2.
  { eapply validateRow_submseteq; [|done]. by destruct row. }
  destruct (optimizeRow_valid _ Hvalid2)
    as (result2 & Hrow2 & Hsub2 & Hsorted2 & _ & Hopt2). simpl in *.
  specialize (Hopt2 result ltac:(done) Hfit).
  assert (result2 = result) as ->; [|done].
  apply (StronglySorted_unique Z.le); [done..|].
  apply submseteq_same_sum; [|done..].
  rewrite Forall_forall in *. intros x Hx. apply Hall. by eapply elem_of_submseteq.
Qed.

(** ** Which array the result refers to *)

Lemma mem_findOptimalSubset_alias numbers xs target σ :
  Mem.heap σ !! numbers = Some (Mem.NumArray xs) →
  wp (Mem.findOptimalSubset numbers target) σ
     (λ result σ',
        Mem.heap σ ⊆ Mem.heap σ'
        ∧ (∃ ys, Mem.heap σ' !! result = Some (Mem.NumArray ys))
        ∧ (((∃ x, xs = [x] ∧ x ≤ target) ∧ result = numbers)
           ∨ (¬ (∃ x, xs = [x] ∧ x ≤ target) ∧ Mem.heap σ !! result = None))).
Proof.
  intros Hnum. unfold Mem.findOptimalSubset, findOptimalSubset.
  apply wp_bind. eapply wp_readNums; [done|].
  case_decide as Hn0.
  { apply wp_alloc. intros l Hl. simpl. split; [by apply insert_subseteq|].
    split; [eexists; by rewrite lookup_insert_eq|].
    right. split; [|done]. intros (x & -> & _). done. }
  case_decide as Hn1.
  { destruct xs as [|x [|? ?]]; simplify_eq/=. change (num_at [x] 0) with x.
    destruct (Z.leb_spec x target).
    - apply wp_ret. split; [done|]. split; [by eexists|].
      left. split; [|done]. by exists x.
    - apply wp_alloc. intros l Hl. simpl. split; [by apply insert_subseteq|].
      split; [eexists; by rewrite lookup_insert_eq|].
      right. split; [|done]. intros (y & [= <-] & ?). lia. }
  set (mid := (length xs / 2)%nat).
  apply wp_bind. eapply wp_slice; [done|]. intros left Hleft.
  rewrite Nat.sub_0_r, drop_0.
  apply wp_bind. eapply wp_slice; [simpl; rewrite lookup_insert_ne; [done|congruence]|].
  simpl. intros right Hright.
  rewrite (take_ge (drop mid xs)) by (rewrite length_drop; lia).
  set (h2 := <[right := Mem.NumArray (drop mid xs)]>
               (<[left := Mem.NumArray (take mid xs)]> (Mem.heap σ))).
  assert (Mem.heap σ ⊆ h2) as Hext2.
  { unfold h2. etrans; [|by apply insert_subseteq]. by apply insert_subseteq. }
  apply wp_bind. eapply wp_mono.
  { apply (mem_generateAllSubsetSums left (take mid xs)). simpl. fold h2.
    unfold h2. rewrite lookup_insert_ne, lookup_insert_eq; [done|].
    intros <-. by rewrite lookup_insert_eq in Hright. }
  simpl. fold h2. intros leftSums σ3 (Hext3 & Hsorted3 & Hls_fresh & ls & Hls & Hlrepr).
  apply wp_bind. eapply wp_mono.
  { apply (mem_generateAllSubsetSums right (drop mid xs)).
    eapply lookup_weaken; [|done]. unfold h2. by rewrite lookup_insert_eq. }
  simpl. intros rightSums σ4 (Hext4 & Hsorted4 & Hrs_fresh & rs & Hrs & Hrrepr).
  apply wp_bind. eapply wp_sortSums; [done|].
  set (h5 := <[rightSums := Mem.SumArray (js_sort Mem.bySum rs)]> (Mem.heap σ4)).
  assert (Mem.heap σ ⊆ h5) as Hext5.
  { unfold h5. apply insert_subseteq_r; [|by repeat (etrans; [done|])].
    eapply lookup_weaken_None; [done|]. by etrans. }
  assert (h5 !! leftSums = Some (Mem.SumArray ls)) as Hls5.
  { unfold h5. rewrite lookup_insert_ne; [by eapply lookup_weaken|].
    intros <-. congruence. }
  assert (Forall2 (repr h5) ls (generateAllSubsetSums (take mid xs))) as Hlrepr5.
  { unfold h5. eapply reprs_insert_sums; [done|]. by eapply reprs_mono. }
  assert (Forall2 (repr h5) (js_sort Mem.bySum rs)
            (js_sort bySum (generateAllSubsetSums (drop mid xs)))) as Hrrepr5.
  { unfold h5. eapply reprs_insert_sums; [done|]. by apply js_sort_reprs. }
  apply wp_bind, wp_alloc. simpl. fold h5. intros bc Hbc.
  set (σ6 := Mem.mkStore (<[bc := Mem.NumArray []]> h5) (Mem.sorted σ4 ++ [rightSums])).
  assert (h5 ⊆ Mem.heap σ6) as Hext6 by by apply insert_subseteq.
  apply wp_bind. eapply wp_readSums; [by eapply lookup_weaken|].
  apply wp_bind. eapply wp_mono.
  { apply (mem_combineLoop rightSums (js_sort Mem.bySum rs)
             (js_sort bySum (generateAllSubsetSums (drop mid xs))) target σ6 ls
             (generateAllSubsetSums (take mid xs))
             ltac:(simpl; rewrite lookup_insert_ne;
                   [by unfold h5; rewrite lookup_insert_eq
                   |intros <-; unfold h5 in Hbc; by rewrite lookup_insert_eq in Hbc])
             ltac:(by eapply reprs_mono) ltac:(by eapply reprs_mono)
             (0, bc) (0, []) σ6);
      [done|done|done|]. simpl. by rewrite lookup_insert_eq. }
  simpl. intros [bestSum b] σ7 (Hext7 & Hsorted7 & pbest & Hloop & Hsum & Hb & Hb_fresh).
  simpl in *. eapply wp_sortNums; [done|]. simpl.
  assert (Mem.heap σ !! b = None) as Hb0.
  { destruct Hb_fresh as [->|Hb6].
    - by eapply lookup_weaken_None.
    - eapply lookup_weaken_None; [done|]. by etrans. }
  split; [|split].
  - apply insert_subseteq_r; [done|]. by repeat (etrans; [done|]).
  - eexists. by rewrite lookup_insert_eq.
  - right. split; [|done]. intros (x & -> & _). done.
Qed.

(** X13. The selection [optimizeRow] returns is the candidate array of
    the row itself, not a copy, exactly when the row has a single candidate
    and it fits under the target; in every other case it is an array the call
    has allocated, which no object of the initial heap refers to. *)
Theorem optimizeRow_aliasing (σ : Mem.store) (row array : Mem.loc)
    (target : Z) (candidates : list Z) :
  Mem.heap σ !! row = Some (Mem.RowObj target array) →
  Mem.heap σ !! array = Some (Mem.NumArray candidates) →
  ∃ r σ',
    Mem.optimizeRow row σ = Ok (r, σ')
    ∧ (((∃ x, candidates = [x] ∧ x ≤ target)
        ∧ Mem.OptimizationResult.selectedNumbers r = array)
       ∨ (¬ (∃ x, candidates = [x] ∧ x ≤ target)
          ∧ Mem.heap σ !! Mem.OptimizationResult.selectedNumbers r = None)).
Proof.
  intros Hrow Harray. unfold Mem.optimizeRow.
  apply wp_bind. eapply wp_readRow; [done|].
  apply wp_bind. eapply wp_readNums; [done|]. simpl.
  case_decide as Hlen.
  - apply wp_bind, wp_alloc. intros l Hl. apply wp_ret. simpl.
    right. split; [|done]. intros (x & -> & _). done.
  - apply wp_bind. eapply wp_mono; [by apply mem_findOptimalSubset_alias|].
    simpl. intros result σ' (Hext & [ys Hys] & Hwhere).
    apply wp_bind. eapply wp_readNums; [done|]. apply wp_ret. simpl.
    destruct Hwhere as [[Hone ->]|[Hnot Hfresh]]; [by left|by right].
Qed.

Lemma optimizeRow_aliasing_witness :
  ∃ r σ',
    Mem.optimizeRow 1%positive exampleStore = Ok (r, σ')
    ∧ (((∃ x, [3; 3; 4; 4; 5] = [x] ∧ x ≤ 10)
        ∧ Mem.OptimizationResult.selectedNumbers r = 2%positive)
       ∨ (¬ (∃ x, [3; 3; 4; 4; 5] = [x] ∧ x ≤ 10)
          ∧ Mem.heap exampleStore !! Mem.OptimizationResult.selectedNumbers r = None)).
Proof.
  apply (optimizeRow_aliasing exampleStore 1%positive 2%positive 10 [3; 3; 4; 4; 5]);
    vm_compute; reflexivity.
Defined.

(** * The parser and the routes *)

Lemma mapThrowing_Return {A B} (f : A → outcome B) xs ys :
  mapThrowing f xs = Return ys ↔ Forall2 (λ x y, f x = Return y) xs ys.
Proof.
  revert ys. induction xs as [|x xs IH]; intros ys; simpl.
  - split; [intros [= <-]; constructor|by intros ->%Forall2_nil_inv_l].
  - destruct (f x) as [y|m] eqn:Hx.
    + destruct (mapThrowing f xs) as [ys'|m] eqn:Hxs.
      * split.
        -- intros [= <-]. constructor; [done|]. by apply IH.
        -- intros (y' & ys'' & Hy & Hys & ->)%Forall2_cons_inv_l.
           apply IH in Hys. simplify_eq. congruence.
      * split; [done|]. intros (y' & ys'' & Hy & Hys & ->)%Forall2_cons_inv_l.
        by apply IH in Hys.
    + split; [done|]. intros (y' & ys'' & Hy & Hys & ->)%Forall2_cons_inv_l. congruence.
Qed.

Lemma mapThrowing_Throw {A B} (f : A → outcome B) xs message :
  mapThrowing f xs = Throw message →
  ∃ before x after,
    xs = before ++ x :: after
    ∧ Forall (λ x', ∃ y, f x' = Return y) before
    ∧ f x = Throw message.
Proof.
  induction xs as [|x xs IH]; simpl; [done|].
  destruct (f x) as [y|m] eqn:Hx.
  - destruct (mapThrowing f xs) as [ys'|m] eqn:Hxs; [done|]. intros [= ->].
    destruct IH as (before & x' & after & -> & Hbefore & Hx'); [done|].
    exists (x :: before), x', after. split_and!; [done| |done].
    constructor; eauto.
  - intros [= ->]. exists [], x, xs. by split_and!.
Qed.

Section parser_properties.
Context (trim : string → string) (parseFloat : string → option Z).
#[local] Abbreviation parseNumber := (CSVParser.parseNumber trim parseFloat).
#[local] Abbreviation parseRow := (CSVParser.parseRow trim parseFloat).
#[local] Abbreviation parseCSV := (CSVParser.parseCSV trim parseFloat).
#[local] Abbreviation cells := (List.filter (CSVParser.nonBlank trim)).

Lemma parseNumber_Return val num :
  parseNumber val = Return num ↔ parseFloat (trim val) = Some num ∧ 0 < num.
Proof.
  unfold CSVParser.parseNumber. destruct (parseFloat (trim val)) as [n|].
  - destruct (Z.leb_spec n 0); split.
    + done.
    + intros [[= ->] ?]. lia.
    + intros [= ->]. split; [done|lia].
    + by intros [[= ->] _].
  - split; [done|]. by intros [? _].
Qed.

(** Every outcome of [parseRow], by what the cells parse to. *)
Lemma parseRow_cases values :
  match mapThrowing parseNumber (cells values) with
  | Throw message => parseRow values = Throw message
  | Return [] => parseRow values = Return None
  | Return (bigNumber :: smallNumbers) =>
      if (12 <? length smallNumbers)%nat
      then parseRow values
           = Throw ("Too many small numbers: " +:+ pretty (length smallNumbers)
                    +:+ " (max: 12)")
      else parseRow values = Return (Some (mkRow bigNumber smallNumbers))
  end.
Proof.
  unfold CSVParser.parseRow.
  destruct (mapThrowing _ _) as [[|bigNumber smallNumbers]|message]; simpl; try done.
  by destruct (12 <? length smallNumbers)%nat.
Qed.

Lemma parseRow_Some values row :
  parseRow values = Return (Some row) →
  validateRow row = true
  ∧ Forall2 (λ val num, parseFloat (trim val) = Some num)
            (cells values) (bigNumber row :: smallNumbers row).
Proof.
  intros Hrow. pose proof (parseRow_cases values) as Hcases.
  destruct (mapThrowing _ _) as [[|bigNumber smallNumbers]|message] eqn:Hmap;
    [congruence| |congruence].
  destruct (Nat.ltb_spec 12 (length smallNumbers)); [congruence|].
  rewrite Hrow in Hcases. simplify_eq. simpl.
  apply mapThrowing_Return in Hmap.
  assert (Forall (λ num, 0 < num) (bigNumber :: smallNumbers)) as Hpos.
  { eapply Forall2_Forall_r; [done|]. apply Forall_forall.
    by intros val _ num [_ ?]%parseNumber_Return. }
  split.
  - apply validateRow_true. simpl. apply Forall_cons_1 in Hpos as [? ?].
    split_and!; [done|lia|done].
  - eapply Forall2_impl; [done|]. by intros val num [? _]%parseNumber_Return.
Qed.

(** X14. A row [parseRow] returns is a valid row: it passes
    [validateRow], and its target and candidates are, in order, the numbers
    the non-blank cells parse to. *)
Theorem parseRow_valid (values : list string) (row : CSVRow) :
  parseRow values = Return (Some row) →
  validateRow row = true
  ∧ Forall2 (λ val num, parseFloat (trim val) = Some num)
            (cells values) (bigNumber row :: smallNumbers row).
Proof. apply parseRow_Some. Qed.
End parser_properties.

Lemma parseRow_valid_witness :
  validateRow (mkRow 10 [1; 2]) = true
  ∧ Forall2 (λ val num, parseDigits (id val) = Some num)
            (List.filter (CSVParser.nonBlank id) ["10"; "1"; ""; "2"])
            (bigNumber (mkRow 10 [1; 2]) :: smallNumbers (mkRow 10 [1; 2])).
Proof.
  apply (parseRow_valid id parseDigits ["10"; "1"; ""; "2"] (mkRow 10 [1; 2])).
  vm_compute. reflexivity.
Defined.

Lemma filter_nil_Forall {A} (f : A → bool) (l : list A) :
  List.filter f l = [] ↔ Forall (λ x, f x = false) l.
Proof.
  induction l as [|x l IH]; simpl; [by split; [constructor|]|].
  destruct (f x) eqn:Hx.
  - split; [done|]. intros [? _]%Forall_cons_1. congruence.
  - rewrite IH. split; [by constructor|by intros [_ ?]%Forall_cons_1].
Qed.

Lemma omap_length_le {A B} (f : A → option B) (l : list A) :
  (length (omap f l) ≤ length l)%nat.
Proof.
  induction l as [|x l IH]; [done|]. change (omap f (x :: l))
    with (match f x with Some y => y :: omap f l | None => omap f l end).
  destruct (f x); simpl; lia.
Qed.

Section parseRow_outcomes.
Context (trim : string → string) (parseFloat : string → option Z).
#[local] Abbreviation parseRow' := (CSVParser.parseRow trim parseFloat).
#[local] Abbreviation cells' := (List.filter (CSVParser.nonBlank trim)).

(** X15. [parseRow] answers [null] exactly for the records without a
    non-blank cell: the empty record and the records of empty or
    whitespace-only cells. *)
Theorem parseRow_null (values : list string) :
  parseRow' values = Return None
  ↔ Forall (λ val, CSVParser.nonBlank trim val = false) values.
Proof.
  rewrite <- filter_nil_Forall. pose proof (parseRow_cases trim parseFloat values) as Hcases.
  split.
  - intros Hnull.
    destruct (mapThrowing _ _) as [[|bigNumber smallNumbers]|message] eqn:Hmap.
    + apply mapThrowing_Return in Hmap. by apply Forall2_nil_inv_r in Hmap.
    + destruct (12 <? length smallNumbers)%nat; congruence.
    + congruence.
  - intros Hnil. by rewrite Hnil in Hcases.
Qed.

(** X16. What [parseRow] rejects, and with which message. A non-blank
    cell that does not parse to a positive number makes the call throw
    [Invalid number: <cell>] for the first such cell; when every cell parses,
    more than 13 numbers make it throw [Too many small numbers]. *)
Theorem parseRow_rejects (values : list string) :
  (∀ before val after,
     cells' values = before ++ val :: after →
     Forall (λ v, ∃ num, parseFloat (trim v) = Some num ∧ 0 < num) before →
     (∀ num, parseFloat (trim val) = Some num → num ≤ 0) →
     CSVParser.parseRow trim parseFloat values = Throw ("Invalid number: " +:+ val))
  ∧ (∀ numbers,
       Forall2 (λ v num, parseFloat (trim v) = Some num ∧ 0 < num) (cells' values) numbers →
       (13 < length numbers)%nat →
       CSVParser.parseRow trim parseFloat values
       = Throw ("Too many small numbers: " +:+ pretty (length numbers - 1)%nat
                +:+ " (max: 12)")).
Proof.
  pose proof (parseRow_cases trim parseFloat values) as Hcases. split.
  - intros before val after Hsplit Hbefore Hbad.
    assert (CSVParser.parseNumber trim parseFloat val = Throw ("Invalid number: " +:+ val))
      as Hval.
    { unfold CSVParser.parseNumber. destruct (parseFloat (trim val)) as [num|]; [|done].
      specialize (Hbad num eq_refl). by destruct (Z.leb_spec num 0); [|lia]. }
    assert (mapThrowing (CSVParser.parseNumber trim parseFloat) (cells' values)
            = Throw ("Invalid number: " +:+ val)) as Hmap.
    { rewrite Hsplit. clear Hsplit Hcases.
      induction Hbefore as [|v before (num & Hv & Hpos) _ IH]; simpl.
      - by rewrite Hval.
      - rewrite (proj2 (parseNumber_Return trim parseFloat v num)) by done.
        by rewrite IH. }
    by rewrite Hmap in Hcases.
  - intros numbers Hnumbers Hlen.
    assert (mapThrowing (CSVParser.parseNumber trim parseFloat) (cells' values)
            = Return numbers) as Hmap.
    { apply mapThrowing_Return. eapply Forall2_impl; [done|].
      intros v num. apply parseNumber_Return. }
    rewrite Hmap in Hcases. destruct numbers as [|bigNumber smallNumbers]; [simpl in *; lia|].
    simpl in *. rewrite Nat.sub_0_r.
    by destruct (Nat.ltb_spec 12 (length smallNumbers)); [|lia].
Qed.

(** Each record contributes its row or nothing. *)
Lemma parseCSV_fold records results :
  fold_left (CSVParser.onData trim parseFloat) records results
  = results ++ omap (λ data, match parseRow' data with
                             | Return (Some row) => Some row
                             | _ => None
                             end) records.
Proof.
  revert results. induction records as [|data records IH]; intros results; simpl.
  - by rewrite app_nil_r.
  - rewrite IH. unfold CSVParser.onData.
    destruct (parseRow' data) as [[row|]|message]; simpl; [|done..].
    by rewrite <- app_assoc.
Qed.

(** X17. A record that is skipped (blank, or rejected by [parseRow]) only
    drops itself: [parseCSV] keeps the rows of the records before and after
    it, in their order, and every record yields its own row or nothing. *)
Theorem parseCSV_record_by_record (before after : list (list string)) (data : list string) :
  CSVParser.parseCSV trim parseFloat (before ++ data :: after)
  = CSVParser.parseCSV trim parseFloat before
    ++ match parseRow' data with
       | Return (Some row) => [row]
       | Return None => []
       | Throw _ => []
       end
    ++ CSVParser.parseCSV trim parseFloat after.
Proof.
  unfold CSVParser.parseCSV. rewrite !parseCSV_fold. simpl.
  rewrite omap_app. simpl. by destruct (parseRow' data) as [[row|]|message].
Qed.

Lemma parseCSV_rows_valid_aux records :
  Forall (λ row, validateRow row = true) (CSVParser.parseCSV trim parseFloat records).
Proof.
  unfold CSVParser.parseCSV. rewrite parseCSV_fold. simpl.
  apply Forall_forall. intros row (data & _ & Hdata)%list_elem_of_omap.
  destruct (parseRow' data) as [[row'|]|message] eqn:Hrow; simplify_eq.
  by apply (parseRow_Some trim parseFloat) in Hrow as [? _].
Qed.

(** X18. Every row [parseCSV] delivers passes [validateRow], and there
    are at most as many rows as records. *)
Theorem parseCSV_rows_valid (records : list (list string)) :
  Forall (λ row, validateRow row = true) (CSVParser.parseCSV trim parseFloat records)
  ∧ (length (CSVParser.parseCSV trim parseFloat records) ≤ length records)%nat.
Proof.
  split; [apply parseCSV_rows_valid_aux|].
  unfold CSVParser.parseCSV. rewrite parseCSV_fold. simpl. apply omap_length_le.
Qed.
End parseRow_outcomes.

(** ** [validateCSV] *)

Lemma existsb_nonpositive xs :
  existsb (λ num, num <=? 0) xs = false ↔ Forall (λ num, 0 < num) xs.
Proof.
  induction xs as [|x xs IH]; simpl; [by split; [constructor|]|].
  rewrite orb_false_iff, IH, Z.leb_gt. split.
  - intros [? ?]. by constructor.
  - by intros [? ?]%Forall_cons_1.
Qed.

Lemma rowErrors_nil index row :
  CSVParser.rowErrors index row = [] ↔ validateRow row = true.
Proof.
  rewrite validateRow_true. unfold CSVParser.rowErrors.
  destruct (Z.leb_spec (bigNumber row) 0) as [Hbig|Hbig].
  { split; [done|]. intros [? _]. lia. }
  destruct (existsb _ _) eqn:Hsome.
  { split; [done|]. intros (_ & _ & Hall%existsb_nonpositive). congruence. }
  apply existsb_nonpositive in Hsome.
  destruct (Nat.ltb_spec 12 (length (smallNumbers row))).
  - split; [done|]. intros (_ & ? & _). lia.
  - split; [|done]. intros _. split_and!; [done|lia|done].
Qed.

Lemma imap_rowErrors_nil rows :
  mjoin (imap CSVParser.rowErrors rows) = []
  ↔ Forall (λ row, validateRow row = true) rows.
Proof.
  assert (∀ k, mjoin (imap (λ i, CSVParser.rowErrors (k + i)) rows) = []
               ↔ Forall (λ row, validateRow row = true) rows) as Hgen.
  { induction rows as [|row rows IH]; intros k; simpl; [by split; [constructor|]|].
    rewrite app_nil, rowErrors_nil, Forall_cons, <- (IH (S k)).
    rewrite (imap_ext _ (λ i, CSVParser.rowErrors (S k + i)) rows); [done|].
    intros i x _. simpl. f_equal. lia. }
  apply (Hgen 0%nat).
Qed.

Section upload.
Context (trim : string → string) (parseFloat : string → option Z).

Lemma validateCSV_parseCSV records :
  CSVParser.validateCSV (CSVParser.parseCSV trim parseFloat records)
  = if decide (CSVParser.parseCSV trim parseFloat records = [])
    then CSVParser.mkValidation false ["CSV file is empty"]
    else CSVParser.mkValidation true [].
Proof.
  pose proof (parseCSV_rows_valid_aux trim parseFloat records) as Hvalid.
  apply imap_rowErrors_nil in Hvalid. unfold CSVParser.validateCSV. rewrite Hvalid.
  by destruct (CSVParser.parseCSV trim parseFloat records).
Qed.

(** X20. After [parseCSV] the per-row checks of [validateCSV] cannot
    fail: on the rows of a parsed file its only possible error is
    [CSV file is empty], reported exactly when no row was delivered. *)
Theorem validateCSV_after_parseCSV (records : list (list string)) :
  CSVParser.validateCSV (CSVParser.parseCSV trim parseFloat records)
  = if decide (CSVParser.parseCSV trim parseFloat records = [])
    then CSVParser.mkValidation false ["CSV file is empty"]
    else CSVParser.mkValidation true [].
Proof. apply validateCSV_parseCSV. Qed.
End upload.

(** ** The route handlers *)

Lemma optimizeAllRows_Forall2 rows :
  ∃ results, optimizeAllRows rows = Ok results
             ∧ Forall2 (λ row r, optimizeRow row = Ok r) rows results.
Proof.
  induction rows as [|row rows (results & Hres & Hall)].
  - exists []. by split.
  - destruct (optimizeRow_Ok row) as (result & _ & Hr).
    eexists (_ :: results). simpl. rewrite Hr, Hres. simpl. split; [done|].
    by constructor.
Qed.

Lemma first_invalid_row rows :
  ¬ Forall (λ row, validateRow row = true) rows →
  ∃ before row after,
    rows = before ++ row :: after
    ∧ Forall (λ row, validateRow row = true) before
    ∧ validateRow row = false.
Proof.
  induction rows as [|row rows IH]; intros Hnot.
  - destruct Hnot. constructor.
  - destruct (validateRow row) eqn:Hrow.
    + destruct IH as (before & row' & after & -> & Hbefore & Hrow').
      { intros Hall. apply Hnot. by constructor. }
      exists (row :: before), row', after. split_and!; [done| |done]. by constructor.
    + exists [], row, rows. by split_and!.
Qed.

Section route_properties.
Context (trim : string → string) (parseFloat : string → option Z).
Context (typeErrorMessage : string).
#[local] Abbreviation optimize := (csvRoutes.optimize trim parseFloat typeErrorMessage).
#[local] Abbreviation optimizeData := (csvRoutes.optimizeData typeErrorMessage).
#[local] Abbreviation parsed := (CSVParser.parseCSV trim parseFloat).

Lemma optimize_cases file :
  match file with
  | None =>
      optimize file = Ok (APIResponse.mk 400 false None (Some "No CSV file uploaded") None)
  | Some records =>
      if decide (parsed records = []) then
        optimize file
        = Ok (APIResponse.mk 400 false None (Some "Invalid CSV format")
                (Some "CSV file is empty"))
      else
        ∃ results,
          optimizeAllRows (parsed records) = Ok results
          ∧ optimize file
            = Ok (APIResponse.mk 200 true (Some results) None
                    (Some ("Successfully optimized " +:+ pretty (length results)
                           +:+ " rows")))
  end.
Proof.
  destruct file as [records|]; [|done]. unfold csvRoutes.optimize.
  rewrite validateCSV_parseCSV. case_decide as Hrows; [done|]. simpl.
  destruct (optimizeAllRows_Forall2 (parsed records)) as (results & Hres & _).
  exists results. by rewrite Hres.
Qed.

(** X21. The upload route answers 400 or 200, never 500: 400 with
    [No CSV file uploaded] without a file, 400 with [Invalid CSV format] and
    the message [CSV file is empty] when the file yields no row, and 200 with
    [success] otherwise. *)
Theorem optimize_status (file : option (list (list string))) :
  ∃ response,
    optimize file = Ok response
    ∧ (APIResponse.status response = 200%nat ∨ APIResponse.status response = 400%nat)
    ∧ (APIResponse.status response = 200%nat
       ↔ ∃ records, file = Some records ∧ parsed records ≠ [])
    ∧ (APIResponse.success response = true ↔ APIResponse.status response = 200%nat)
    ∧ (file = None →
       response = APIResponse.mk 400 false None (Some "No CSV file uploaded") None)
    ∧ (∀ records, file = Some records → parsed records = [] →
       response = APIResponse.mk 400 false None (Some "Invalid CSV format")
                    (Some "CSV file is empty")).
Proof.
  pose proof (optimize_cases file) as Hcases. destruct file as [records|].
  - case_decide as Hrows.
    + eexists. split; [done|]. simpl. split_and!; [by right| | |done|by intros ? [= <-]].
      * split; [done|]. by intros (? & [= <-] & ?).
      * done.
    + destruct Hcases as (results & _ & ->). eexists. split; [done|]. simpl.
      split_and!; [by left| |done|done|by intros ? [= <-]].
      split; [|done]. intros _. by exists records.
  - eexists. split; [done|]. simpl. split_and!; [by right| |done|done|done].
    split; [done|]. by intros (? & ? & _).
Qed.

(** X22. When the upload route answers 200, [data] holds one result per
    row of the parsed file, in the order of the file, each the result of
    [optimizeRow] on that row, which is a valid row, and the message counts
    the rows. *)
Theorem optimize_data (records : list (list string)) :
  parsed records ≠ [] →
  ∃ results,
    optimize (Some records)
    = Ok (APIResponse.mk 200 true (Some results) None
            (Some ("Successfully optimized " +:+ pretty (length (parsed records))
                   +:+ " rows")))
    ∧ Forall2 (λ row r,
                 validateRow row = true
                 ∧ optimizeRow row = Ok r
                 ∧ OptimizationResult.originalRow r = row)
              (parsed records) results.
Proof.
  intros Hrows. pose proof (optimize_cases (Some records)) as Hcases.
  cbv beta iota in Hcases. rewrite decide_False in Hcases by done.
  destruct Hcases as (results & Hres & ->).
  pose proof (parseCSV_rows_valid_aux trim parseFloat records) as Hvalid.
  destruct (optimizeAllRows_Forall2 (parsed records)) as (results' & Hres' & Hall).
  rewrite Hres in Hres'. simplify_eq. exists results'. split.
  - by rewrite (Forall2_length _ _ _ Hall).
  - clear Hres Hrows. induction Hall as [|row r rows results Hr Hall IH]; [constructor|].
    apply Forall_cons_1 in Hvalid as [? ?]. constructor; [|by apply IH].
    split_and!; [done..|]. by eapply optimizeRow_originalRow.
Qed.

Lemma validatedRows_valid index rows :
  Forall (λ row, validateRow row = true) rows →
  csvRoutes.validatedRows index rows = Return rows.
Proof.
  intros Hvalid. revert index. induction Hvalid as [|row rows Hrow _ IH]; intros index.
  - done.
  - simpl. by rewrite Hrow, IH.
Qed.

Lemma validatedRows_invalid index before row after :
  Forall (λ row, validateRow row = true) before →
  validateRow row = false →
  csvRoutes.validatedRows index (before ++ row :: after)
  = Throw ("Invalid row " +:+ pretty (index + length before + 1)%nat
           +:+ ": must have bigNumber and smallNumbers array").
Proof.
  intros Hbefore Hrow. revert index.
  induction Hbefore as [|row' before Hrow' _ IH]; intros index;
    cbn [csvRoutes.validatedRows app length].
  - rewrite Hrow. cbn [negb]. by rewrite Nat.add_0_r.
  - rewrite Hrow', IH. cbn [negb].
    by replace (S index + length before + 1)%nat
      with (index + S (length before) + 1)%nat by lia.
Qed.

(** X23. The JSON route answers 200 exactly for an array whose rows all
    pass [validateRow]; [data] then holds one result per row, in order, each
    the result of [optimizeRow] on that row, and the message counts the
    rows. *)
Theorem optimizeData_accepts (rows : list CSVRow) :
  (∃ response,
     optimizeData (Some rows) = Ok response
     ∧ (APIResponse.status response = 200%nat
        ↔ Forall (λ row, validateRow row = true) rows)
     ∧ (APIResponse.status response = 200%nat ∨ APIResponse.status response = 400%nat))
  ∧ (Forall (λ row, validateRow row = true) rows →
     ∃ results,
       optimizeData (Some rows)
       = Ok (APIResponse.mk 200 true (Some results) None
               (Some ("Successfully optimized " +:+ pretty (length rows) +:+ " rows")))
       ∧ Forall2 (λ row r,
                    optimizeRow row = Ok r
                    ∧ OptimizationResult.originalRow r = row) rows results).
Proof.
  assert (Forall (λ row, validateRow row = true) rows →
          ∃ results,
            optimizeData (Some rows)
            = Ok (APIResponse.mk 200 true (Some results) None
                    (Some ("Successfully optimized " +:+ pretty (length rows) +:+ " rows")))
            ∧ Forall2 (λ row r,
                         optimizeRow row = Ok r
                         ∧ OptimizationResult.originalRow r = row) rows results)
    as Haccept.
  { intros Hvalid. destruct (optimizeAllRows_Forall2 rows) as (results & Hres & Hall).
    exists results. split.
    - unfold csvRoutes.optimizeData. rewrite validatedRows_valid, Hres by done.
      by rewrite (Forall2_length _ _ _ Hall).
    - eapply Forall2_impl; [done|]. intros row r Hr. split; [done|].
      by eapply optimizeRow_originalRow. }
  split; [|done].
  destruct (decide (Forall (λ row, validateRow row = true) rows)) as [Hvalid|Hinvalid].
  - destruct (Haccept Hvalid) as (results & -> & _). eexists. split; [done|]. simpl.
    split; [done|by left].
  - apply first_invalid_row in Hinvalid as (before & row & after & -> & Hbefore & Hrow).
    unfold csvRoutes.optimizeData.
    rewrite (validatedRows_invalid 0 before row after) by done.
    eexists. split; [done|]. simpl. split; [|by right]. split; [done|].
    intros [_ [? _]%Forall_cons_1]%Forall_app. congruence.
Qed.

(** X24. What the JSON route rejects: a body whose [rows] is not an array
    gets 400 with [Invalid input: rows must be an array], and a batch with an
    invalid row gets 400 with a message naming the position, counted from 1,
    of its first invalid row; nothing is optimized. *)
Theorem optimizeData_rejects :
  optimizeData None
  = Ok (APIResponse.mk 400 false None (Some "Invalid input: rows must be an array") None)
  ∧ ∀ before row after,
      Forall (λ row, validateRow row = true) before →
      validateRow row = false →
      optimizeData (Some (before ++ row :: after))
      = Ok (APIResponse.mk 400 false None
              (Some ("Invalid row " +:+ pretty (length before + 1)%nat
                     +:+ ": must have bigNumber and smallNumbers array")) None).
Proof.
  split; [done|]. intros before row after Hbefore Hrow.
  unfold csvRoutes.optimizeData. by rewrite (validatedRows_invalid 0 before row after).
Qed.
End route_properties.

Lemma optimize_data_witness :
  ∃ results,
    csvRoutes.optimize id parseDigits "" (Some [["10"; "1"; "2"]; ["x"]; ["20"; "5"]])
    = Ok (APIResponse.mk 200 true (Some results) None
            (Some ("Successfully optimized "
                   +:+ pretty (length (CSVParser.parseCSV id parseDigits
                                         [["10"; "1"; "2"]; ["x"]; ["20"; "5"]]))
                   +:+ " rows")))
    ∧ Forall2 (λ row r,
                 validateRow row = true
                 ∧ optimizeRow row = Ok r
                 ∧ OptimizationResult.originalRow r = row)
              (CSVParser.parseCSV id parseDigits [["10"; "1"; "2"]; ["x"]; ["20"; "5"]])
              results.
Proof.
  apply (optimize_data id parseDigits "" [["10"; "1"; "2"]; ["x"]; ["20"; "5"]]).
  vm_compute. discriminate.
Defined.

(** The parser and the routes on a small file whose second record is not a
    number and whose third has 14 numbers. *)
Example parseCSV_scenario :
  CSVParser.parseCSV id parseDigits
    [["10"; "1"; ""; "2"]; ["x"; "3"]; []; ["5"; "7"]]
  = [mkRow 10 [1; 2]; mkRow 5 [7]]
  ∧ CSVParser.parseRow id parseDigits ["x"; "3"] = Throw "Invalid number: x"
  ∧ CSVParser.parseRow id parseDigits
      ["9"; "1"; "1"; "1"; "1"; "1"; "1"; "1"; "1"; "1"; "1"; "1"; "1"; "1"]
    = Throw "Too many small numbers: 13 (max: 12)"
  ∧ csvRoutes.optimize id parseDigits "" (Some [["10"; "1"; ""; "2"]; ["x"; "3"]])
    = Ok (APIResponse.mk 200 true
            (Some [OptimizationResult.mk [1; 2] 3 (mkRow 10 [1; 2])]) None
            (Some "Successfully optimized 1 rows"))
  ∧ csvRoutes.optimizeData "" (Some [mkRow 10 [1; 2]; mkRow 10 [1; -2]])
    = Ok (APIResponse.mk 400 false None
            (Some "Invalid row 2: must have bigNumber and smallNumbers array") None)
  ∧ CSVParser.validateCSV [mkRow 10 [1; -2]; mkRow 0 []]
    = CSVParser.mkValidation false
        ["Row 1: All small numbers must be positive";
         "Row 2: Big number must be positive"].
Proof. split_and!; vm_compute; reflexivity. Qed.

(** * The optimizer in double precision *)

(** ** Integers below [2^53] in double precision *)

Lemma shiftl_pos_add p m n : shiftl_pos (shiftl_pos p m) n = shiftl_pos p (m + n).
Proof.
  unfold shiftl_pos. rewrite (Nat.add_comm m n). symmetry. apply Nat.iter_add.
Qed.

Lemma Zpos_shiftl_pos p n : Z.pos (shiftl_pos p n) = Z.pos p * 2 ^ Z.of_nat n.
Proof.
  induction n as [|n IH]; [simpl; lia|].
  change (shiftl_pos p (S n)) with (xO (shiftl_pos p n)).
  rewrite Nat2Z.inj_succ, Z.pow_succ_r by lia. lia.
Qed.

Lemma digits_shiftl_pos p n : digits (shiftl_pos p n) = (digits p + n)%nat.
Proof.
  unfold digits. induction n as [|n IH]; [simpl; lia|].
  change (shiftl_pos p (S n)) with (xO (shiftl_pos p n)). simpl. lia.
Qed.

Lemma digits_pos p : (1 ≤ digits p)%nat.
Proof. unfold digits. lia. Qed.

Lemma digits_size p : digits2_pos p = Pos.size p.
Proof. induction p; simpl; congruence. Qed.

Lemma digits_bounds p : 2 ^ Z.of_nat (digits p) ≤ 2 * Z.pos p ∧ Z.pos p < 2 ^ Z.of_nat (digits p).
Proof.
  unfold digits. rewrite digits_size, positive_nat_Z.
  pose proof (Pos.size_gt p) as Hgt. pose proof (Pos.size_le p) as Hle.
  pose proof (Pos2Z.inj_pow 2 (Pos.size p)) as Hpow.
  apply Pos2Z.pos_lt_pos in Hgt. apply Pos2Z.pos_le_pos in Hle.
  rewrite Hpow in Hgt, Hle. change (Z.pos p~0) with (2 * Z.pos p) in Hle. done.
Qed.

Lemma digits_le_53 p : Z.pos p < 2 ^ 53 → (digits p ≤ 53)%nat.
Proof.
  intros Hp. destruct (digits_bounds p) as [Hlo _].
  destruct (decide (digits p ≤ 53)%nat) as [|Hgt]; [done|].
  assert (2 ^ 54 ≤ 2 ^ Z.of_nat (digits p)) by (apply Z.pow_le_mono_r; lia).
  lia.
Qed.

Lemma Zdigits_shiftl_pos p n :
  Z.pos (digits2_pos (shiftl_pos p n)) = Z.of_nat (digits p) + Z.of_nat n.
Proof.
  pose proof (digits_shiftl_pos p n) as H. unfold digits in *. lia.
Qed.

Lemma iter_pos_nat {A} (f : A → A) k x : iter_pos f k x = Nat.iter (Pos.to_nat k) f x.
Proof.
  revert x. induction k as [k IH|k IH|]; intros x; cbn [iter_pos].
  - rewrite !IH, Pos2Nat.inj_xI, <- Nat.iter_add, <- Nat.iter_succ_r.
    f_equal. lia.
  - rewrite !IH, Pos2Nat.inj_xO, <- Nat.iter_add. f_equal. lia.
  - done.
Qed.

Lemma shr_1_exact p n :
  Nat.iter n shr_1 {| shr_m := Z.pos (shiftl_pos p n); shr_r := false; shr_s := false |}
  = {| shr_m := Z.pos p; shr_r := false; shr_s := false |}.
Proof.
  induction n as [|n IH]; [done|].
  rewrite Nat.iter_succ_r. change (shiftl_pos p (S n)) with (xO (shiftl_pos p n)).
  simpl shr_1. apply IH.
Qed.

Lemma shr_exact p k e :
  shr {| shr_m := Z.pos (shiftl_pos p k); shr_r := false; shr_s := false |} e (Z.of_nat k)
  = ({| shr_m := Z.pos p; shr_r := false; shr_s := false |}, e + Z.of_nat k).
Proof.
  unfold shr. destruct (Z.of_nat k) as [|q|q] eqn:Hk; [| |lia].
  - assert (k = 0%nat) as -> by lia. simpl. f_equal. lia.
  - rewrite iter_pos_nat. assert (Pos.to_nat q = k) as -> by lia.
    by rewrite shr_1_exact.
Qed.

Lemma shl_align_spec p s e ez :
  ez ≤ e →
  shl_align (shiftl_pos p s) e ez = (shiftl_pos p (s + Z.to_nat (e - ez)), ez).
Proof.
  intros Hle. unfold shl_align. destruct (ez - e) as [|d|d] eqn:Hd; [|lia|].
  - assert (e = ez) as -> by lia. rewrite Z.sub_diag. simpl. by rewrite Nat.add_0_r.
  - rewrite Pos2Nat.inj_iter. change (nat_rect _ ?x (λ _, ?f) ?n) with (Nat.iter n f x).
    fold (shiftl_pos (shiftl_pos p s) (Pos.to_nat d)). rewrite shiftl_pos_add.
    do 2 f_equal. lia.
Qed.

Lemma shl_align_id m e ez : e ≤ ez → shl_align m e ez = (m, e).
Proof. intros Hle. unfold shl_align. destruct (ez - e) eqn:Hd; [done|done|lia]. Qed.

Lemma fexp_normal x : -1021 ≤ x → fexp Double.prec Double.emax x = x - 53.
Proof. intros Hx. unfold fexp, emin, Double.prec, Double.emax. lia. Qed.

(** A mantissa of 53 digits with an exponent in range is left as it is. *)
Lemma binary_round_aux_normal sx m e :
  digits m = 53%nat → -1074 ≤ e ≤ 971 →
  binary_round_aux Double.prec Double.emax sx (Z.pos m) e loc_Exact = S754_finite sx m e.
Proof.
  intros Hm He. unfold binary_round_aux, shr_fexp.
  unfold digits in Hm. cbn [Zdigits2 shr_record_of_loc].
  rewrite fexp_normal by lia.
  replace (Z.pos (digits2_pos m) + e - 53 - e) with 0 by lia.
  cbn [shr shr_m loc_of_shr_record round_nearest_even Zdigits2 shr_record_of_loc].
  rewrite fexp_normal by lia.
  replace (Z.pos (digits2_pos m) + e - 53 - e) with 0 by lia.
  cbn [shr shr_m].
  destruct (e <=? Double.emax - Double.prec) eqn:Hle; [done|].
  apply Z.leb_gt in Hle. unfold Double.emax, Double.prec in Hle. lia.
Qed.

(** Rounding [p * 2^t * 2^-t] gives the integer [p] exactly. *)
Lemma binary_round_exact sx p t :
  (digits p ≤ 53)%nat → (t ≤ 1000)%nat →
  binary_round Double.prec Double.emax sx (shiftl_pos p t) (- Z.of_nat t) = normal sx p.
Proof.
  intros Hp Ht. pose proof (digits_pos p) as Hpos. unfold binary_round, normal.
  rewrite Zdigits_shiftl_pos, fexp_normal by lia.
  destruct (decide (t ≤ 53 - digits p)%nat) as [Hsmall|Hlarge].
  - rewrite shl_align_spec by lia.
    replace (t + Z.to_nat (- Z.of_nat t
                           - (Z.of_nat (digits p) + Z.of_nat t + - Z.of_nat t - 53)))%nat
      with (53 - digits p)%nat by lia.
    replace (Z.of_nat (digits p) + Z.of_nat t + - Z.of_nat t - 53)
      with (Z.of_nat (digits p) - 53) by lia.
    apply binary_round_aux_normal; [|lia].
    rewrite digits_shiftl_pos. lia.
  - rewrite shl_align_id by lia.
    unfold binary_round_aux, shr_fexp. cbn [Zdigits2 shr_record_of_loc].
    rewrite Zdigits_shiftl_pos, fexp_normal by lia.
    replace (Z.of_nat (digits p) + Z.of_nat t + - Z.of_nat t - 53 - - Z.of_nat t)
      with (Z.of_nat (t - (53 - digits p))) by lia.
    replace (shiftl_pos p t)
      with (shiftl_pos (shiftl_pos p (53 - digits p)) (t - (53 - digits p)))
      by (rewrite shiftl_pos_add; f_equal; lia).
    rewrite shr_exact.
    cbn [shr_m loc_of_shr_record round_nearest_even Zdigits2 shr_record_of_loc].
    rewrite Zdigits_shiftl_pos, fexp_normal by lia.
    replace (Z.of_nat (digits p) + Z.of_nat (53 - digits p)
             + (- Z.of_nat t + Z.of_nat (t - (53 - digits p))) - 53
             - (- Z.of_nat t + Z.of_nat (t - (53 - digits p))))
      with 0 by lia.
    cbn [shr shr_m].
    replace (- Z.of_nat t + Z.of_nat (t - (53 - digits p)))
      with (Z.of_nat (digits p) - 53) by lia.
    destruct (Z.of_nat (digits p) - 53 <=? Double.emax - Double.prec) eqn:Hle; [done|].
    apply Z.leb_gt in Hle. unfold Double.emax, Double.prec in Hle. lia.
Qed.

Lemma of_int_0 : Double.of_int 0 = Double.zero.
Proof. done. Qed.

Lemma of_int_pos p : Z.pos p < 2 ^ 53 → Double.of_int (Z.pos p) = normal false p.
Proof.
  intros Hp. apply (binary_round_exact false p 0); [by apply digits_le_53|lia].
Qed.

Lemma of_int_neg p : Z.pos p < 2 ^ 53 → Double.of_int (Z.neg p) = normal true p.
Proof.
  intros Hp. apply (binary_round_exact true p 0); [by apply digits_le_53|lia].
Qed.

Lemma shiftl_pos_plus a b t : (shiftl_pos a t + shiftl_pos b t)%positive = shiftl_pos (a + b) t.
Proof.
  apply Pos2Z.inj. rewrite Pos2Z.inj_add, !Zpos_shiftl_pos, Pos2Z.inj_add. lia.
Qed.

(** The two mantissas of a sum or difference of integers, once aligned. *)
Lemma aligned a b :
  (digits a ≤ 53)%nat → (digits b ≤ 53)%nat →
  let ea := Z.of_nat (digits a) - 53 in
  let eb := Z.of_nat (digits b) - 53 in
  let t := (53 - digits a `min` digits b)%nat in
  ea `min` eb = - Z.of_nat t
  ∧ fst (shl_align (shiftl_pos a (53 - digits a)) ea (ea `min` eb)) = shiftl_pos a t
  ∧ fst (shl_align (shiftl_pos b (53 - digits b)) eb (ea `min` eb)) = shiftl_pos b t.
Proof.
  intros Ha Hb ea eb t. pose proof (digits_pos a). pose proof (digits_pos b).
  split_and!; [lia| |]; rewrite shl_align_spec by lia; cbn [fst]; f_equal; lia.
Qed.

Lemma add_normal a b :
  Z.pos a + Z.pos b < 2 ^ 53 →
  Double.add (normal false a) (normal false b) = normal false (a + b).
Proof.
  intros Hsum.
  assert (digits a ≤ 53)%nat as Ha by (apply digits_le_53; lia).
  assert (digits b ≤ 53)%nat as Hb by (apply digits_le_53; lia).
  destruct (aligned a b Ha Hb) as (Hmin & Hma & Hmb).
  unfold Double.add, SFadd, normal. rewrite Hma, Hmb, Hmin.
  cbn [cond_Zopp]. rewrite <- Pos2Z.inj_add, shiftl_pos_plus. cbn [binary_normalize].
  apply binary_round_exact; [apply digits_le_53; lia|lia].
Qed.

Lemma sub_normal a b :
  Z.pos a < 2 ^ 53 → Z.pos b < 2 ^ 53 →
  Double.sub (normal false a) (normal false b) = Double.of_int (Z.pos a - Z.pos b).
Proof.
  intros Ha' Hb'.
  assert (digits a ≤ 53)%nat as Ha by (apply digits_le_53; lia).
  assert (digits b ≤ 53)%nat as Hb by (apply digits_le_53; lia).
  destruct (aligned a b Ha Hb) as (Hmin & Hma & Hmb).
  unfold Double.sub, SFsub, normal. rewrite Hma, Hmb, Hmin. cbn [cond_Zopp].
  set (t := (53 - digits a `min` digits b)%nat).
  assert (Z.pos (shiftl_pos a t) - Z.pos (shiftl_pos b t)
          = (Z.pos a - Z.pos b) * 2 ^ Z.of_nat t) as ->
    by (rewrite !Zpos_shiftl_pos; lia).
  destruct (Z.pos a - Z.pos b) as [|c|c] eqn:Hc.
  - done.
  - rewrite of_int_pos by lia. rewrite <- Zpos_shiftl_pos. cbn [binary_normalize].
    apply binary_round_exact; [apply digits_le_53; lia|lia].
  - rewrite of_int_neg by lia.
    replace (Z.neg c * 2 ^ Z.of_nat t) with (Z.neg (shiftl_pos c t))
      by (rewrite <- Pos2Z.opp_pos, Zpos_shiftl_pos; lia).
    cbn [binary_normalize].
    apply binary_round_exact; [apply digits_le_53; lia|lia].
Qed.

(** [+] and [-] are exact on the integers below [2^53]. *)
Lemma add_exact a b :
  0 ≤ a → 0 ≤ b → a + b < 2 ^ 53 →
  Double.add (Double.of_int a) (Double.of_int b) = Double.of_int (a + b).
Proof.
  intros Ha Hb Hsum. destruct a as [|a|a]; [|destruct b as [|b|b]|]; try lia.
  - destruct b as [|b|b]; [done| |lia]. rewrite Z.add_0_l, of_int_pos by lia. done.
  - rewrite Z.add_0_r, of_int_pos by lia. done.
  - change (Z.pos a + Z.pos b) with (Z.pos (a + b)) in *.
    rewrite !of_int_pos by lia. apply add_normal. lia.
Qed.

Lemma sub_exact a b :
  0 ≤ a < 2 ^ 53 → 0 ≤ b < 2 ^ 53 →
  Double.sub (Double.of_int a) (Double.of_int b) = Double.of_int (a - b).
Proof.
  intros Ha Hb. destruct a as [|a|a]; [|destruct b as [|b|b]|]; try lia.
  - destruct b as [|b|b]; [done| |lia].
    rewrite of_int_pos by lia. change (0 - Z.pos b) with (Z.neg b).
    by rewrite of_int_neg by lia.
  - rewrite Z.sub_0_r, of_int_pos by lia. done.
  - rewrite !of_int_pos by lia. apply sub_normal; lia.
Qed.

Lemma compare_cont_shiftl_pos a b s :
  Pos.compare_cont Eq (shiftl_pos a s) (shiftl_pos b s) = (a ?= b)%positive.
Proof. induction s as [|s IH]; [done|]. apply IH. Qed.

Lemma digits_lt a b : (digits a < digits b)%nat → Z.pos a < Z.pos b.
Proof.
  intros Hlt. destruct (digits_bounds a) as [_ Ha]. destruct (digits_bounds b) as [Hb _].
  assert (2 * 2 ^ Z.of_nat (digits a) ≤ 2 ^ Z.of_nat (digits b)).
  { rewrite <- Z.pow_succ_r by lia. apply Z.pow_le_mono_r; lia. }
  lia.
Qed.

Lemma compare_normal a b :
  SFcompare (normal false a) (normal false b) = Some (Z.pos a ?= Z.pos b).
Proof.
  unfold normal. cbn [SFcompare]. f_equal.
  destruct (Nat.lt_trichotomy (digits a) (digits b)) as [Hlt|[Heq|Hgt]].
  - rewrite (proj2 (Z.compare_lt_iff _ _)) by lia.
    symmetry. apply Z.compare_lt_iff. by apply digits_lt.
  - rewrite Heq, Z.compare_refl. apply compare_cont_shiftl_pos.
  - rewrite (proj2 (Z.compare_gt_iff _ _)) by lia.
    symmetry. apply Z.compare_gt_iff. by apply digits_lt.
Qed.

(** The comparisons are exact on the integers below [2^53]. *)
Lemma compare_exact a b :
  0 ≤ a < 2 ^ 53 → 0 ≤ b < 2 ^ 53 →
  SFcompare (Double.of_int a) (Double.of_int b) = Some (a ?= b).
Proof.
  intros Ha Hb. destruct a as [|a|a]; [|destruct b as [|b|b]|]; try lia.
  - destruct b as [|b|b]; [done| |lia]. by rewrite of_int_pos by lia.
  - by rewrite of_int_pos by lia.
  - rewrite !of_int_pos by lia. apply compare_normal.
Qed.

Lemma le_exact a b :
  0 ≤ a < 2 ^ 53 → 0 ≤ b < 2 ^ 53 →
  Double.le (Double.of_int a) (Double.of_int b) = (a <=? b).
Proof.
  intros Ha Hb. unfold Double.le, SFleb, Z.leb. rewrite compare_exact by done.
  by destruct (a ?= b).
Qed.

Lemma gt_exact a b :
  0 ≤ a < 2 ^ 53 → 0 ≤ b < 2 ^ 53 →
  Double.gt (Double.of_int a) (Double.of_int b) = (a >? b).
Proof.
  intros Ha Hb. unfold Double.gt, SFltb. rewrite compare_exact by done.
  rewrite Z.gtb_ltb. unfold Z.ltb. by destruct (b ?= a).
Qed.

(** The sign test of the comparators, on a difference that may be negative. *)
Lemma gt_zero_exact d :
  - 2 ^ 53 < d < 2 ^ 53 → Double.gt (Double.of_int d) Double.zero = (d >? 0).
Proof.
  intros Hd. destruct d as [|p|p].
  - done.
  - by rewrite of_int_pos by lia.
  - by rewrite of_int_neg by lia.
Qed.

(** ** The optimizer on rows of integers, in double precision *)

Lemma at_index_fmap {A B} (f : A → B) xs i : at_index (f <$> xs) i = f <$> at_index xs i.
Proof. unfold at_index. destruct (i <? 0); [done|]. apply list_lookup_fmap. Qed.

Lemma member_fmap {A B} (f : A → B) xs i :
  member (f <$> xs) i
  = match member xs i with
    | Ok x => Ok (f x)
    | TypeError => TypeError
    | OutOfFuel => OutOfFuel
    end.
Proof. unfold member. rewrite at_index_fmap. by destruct (at_index xs i). Qed.

Lemma member_elem_of {A} (xs : list A) i x : member xs i = Ok x → x ∈ xs.
Proof.
  unfold member. destruct (at_index xs i) as [y|] eqn:Hy; [|done].
  intros [= <-]. apply at_index_Some in Hy as [_ Hy]. by eapply list_elem_of_lookup_2.
Qed.

Lemma sumZ_submseteq_le sub xs :
  Forall (λ x, 0 ≤ x) xs → sub ⊆+ xs → Forall (λ x, 0 ≤ x) sub ∧ 0 ≤ sumZ sub ≤ sumZ xs.
Proof.
  intros Hall (rest & Hperm)%submseteq_Permutation.
  rewrite (sumZ_perm _ _ Hperm), sumZ_app. rewrite Hperm in Hall.
  apply Forall_app in Hall as [Hsub Hrest].
  pose proof (sumZ_nonneg _ Hsub). pose proof (sumZ_nonneg _ Hrest). split; [done|lia].
Qed.

Lemma num_at_nonneg numbers i : Forall (λ x, 0 ≤ x) numbers → 0 ≤ num_at numbers i.
Proof.
  intros Hall. unfold num_at. destruct (at_index numbers i) as [x|] eqn:Hx; [|done].
  apply at_index_Some in Hx as [_ Hx]. simpl.
  by eapply (Forall_lookup_1 _ _ _ _ Hall).
Qed.

Lemma num_at_range numbers :
  num_at numbers <$> range 0 (Z.of_nat (length numbers)) = numbers.
Proof.
  apply list_eq. intros k. rewrite list_lookup_fmap.
  destruct (decide (k < length numbers)%nat) as [Hk|Hk].
  - rewrite lookup_range by lia. simpl. unfold num_at.
    rewrite Z.add_0_l, at_index_of_nat.
    destruct (lookup_lt_is_Some_2 numbers k Hk) as [x Hx]. by rewrite Hx.
  - rewrite (lookup_ge_None_2 numbers) by lia.
    rewrite lookup_ge_None_2; [done|]. rewrite length_range. lia.
Qed.

Lemma double_num_at numbers i :
  0 ≤ i < Z.of_nat (length numbers) →
  Double.num_at (Double.of_int <$> numbers) i = Double.of_int (num_at numbers i).
Proof.
  intros Hi. unfold Double.num_at, num_at. rewrite at_index_fmap.
  by destruct (at_index_in_range numbers i Hi) as [x ->].
Qed.

Lemma double_pick_fold numbers mask indices st :
  Forall (λ x, 0 ≤ x) numbers →
  Forall (λ i, 0 ≤ i < Z.of_nat (length numbers)) indices →
  0 ≤ st.2 → st.2 + sumZ (num_at numbers <$> indices) < 2 ^ 53 →
  fold_left (Double.pickStep (Double.of_int <$> numbers) mask) indices
    (Double.of_int <$> st.1, Double.of_int st.2)
  = (Double.of_int <$> (fold_left (pickStep numbers mask) indices st).1,
     Double.of_int (fold_left (pickStep numbers mask) indices st).2).
Proof.
  intros Hall Hidx. revert st.
  induction Hidx as [|i indices Hi Hidx IH]; intros [subset sum] Hsum Hbound; [done|].
  simpl in Hsum, Hbound.
  change (list_fmap Z Z (num_at numbers) indices) with (num_at numbers <$> indices) in Hbound.
  pose proof (num_at_nonneg numbers i Hall) as Hx.
  assert (0 ≤ sumZ (num_at numbers <$> indices)) as Hrest.
  { apply sumZ_nonneg, Forall_fmap, Forall_forall. intros j _. by apply num_at_nonneg. }
  cbn [fold_left]. unfold Double.pickStep at 2, pickStep at 2 4. cbn [fst snd].
  destruct (included mask i).
  - rewrite double_num_at, add_exact by lia.
    replace ((Double.of_int <$> subset) ++ [Double.of_int (num_at numbers i)])
      with (Double.of_int <$> (subset ++ [num_at numbers i])) by (by rewrite fmap_app).
    apply (IH (subset ++ [num_at numbers i], sum + num_at numbers i)); simpl; lia.
  - apply (IH (subset, sum)); simpl; lia.
Qed.

Lemma double_subsetOfMask numbers mask :
  Forall (λ x, 0 ≤ x) numbers → sumZ numbers < 2 ^ 53 →
  Double.subsetOfMask (Double.of_int <$> numbers) mask
  = doubleSubsetSum (subsetOfMask numbers mask).
Proof.
  intros Hall Hsum. unfold Double.subsetOfMask, subsetOfMask, doubleSubsetSum.
  rewrite length_fmap. cbn [SubsetSum.sum SubsetSum.subset].
  rewrite (double_pick_fold numbers mask _ ([], 0)); [done|done| |done|].
  - apply Forall_forall. by intros i ?%elem_of_range.
  - rewrite num_at_range. simpl. lia.
Qed.

Lemma double_generateAllSubsetSums numbers :
  Forall (λ x, 0 ≤ x) numbers → sumZ numbers < 2 ^ 53 →
  Double.generateAllSubsetSums (Double.of_int <$> numbers)
  = doubleSubsetSum <$> generateAllSubsetSums numbers.
Proof.
  intros Hall Hsum. unfold Double.generateAllSubsetSums, generateAllSubsetSums.
  rewrite length_fmap, <- list_fmap_compose. apply list_fmap_ext.
  intros _ mask _. by apply double_subsetOfMask.
Qed.

(** A sort whose comparator has the sign of the integer comparator
    arranges the list the same way. *)
Lemma double_sort_insert {A B} (f : A → B) (cmp : A → A → Z)
    (cmp' : B → B → Double.number) x l :
  (∀ y, y ∈ l → Double.gt (cmp' (f x) (f y)) Double.zero = (cmp x y >? 0)) →
  Double.sort_insert cmp' (f x) (f <$> l) = f <$> sort_insert cmp x l.
Proof.
  induction l as [|y l IH]; intros Hsign; [done|].
  rewrite fmap_cons. cbn [Double.sort_insert sort_insert].
  rewrite Hsign by left. rewrite Z.gtb_ltb, Z.ltb_antisym.
  destruct (cmp x y <=? 0); cbn [negb]; [done|].
  rewrite IH; [done|]. intros z Hz. apply Hsign. by right.
Qed.

Lemma double_js_sort {A B} (f : A → B) (cmp : A → A → Z)
    (cmp' : B → B → Double.number) l :
  (∀ x y, x ∈ l → y ∈ l → Double.gt (cmp' (f x) (f y)) Double.zero = (cmp x y >? 0)) →
  Double.js_sort cmp' (f <$> l) = f <$> js_sort cmp l.
Proof.
  induction l as [|x l IH]; intros Hsign; [done|].
  rewrite fmap_cons. cbn [Double.js_sort js_sort foldr].
  fold (Double.js_sort cmp' (f <$> l)). fold (js_sort cmp l).
  rewrite IH by (intros y z Hy Hz; apply Hsign; by right).
  apply double_sort_insert. intros y Hy. apply Hsign; [left|right].
  by rewrite js_sort_perm in Hy.
Qed.

Lemma double_js_sort_bySum l :
  Forall (λ e, 0 ≤ SubsetSum.sum e < 2 ^ 53) l →
  Double.js_sort Double.bySum (doubleSubsetSum <$> l) = doubleSubsetSum <$> js_sort bySum l.
Proof.
  intros Hall. apply double_js_sort. intros x y Hx Hy.
  rewrite Forall_forall in Hall. pose proof (Hall x Hx). pose proof (Hall y Hy).
  unfold Double.bySum, bySum. simpl. rewrite sub_exact by done. apply gt_zero_exact. lia.
Qed.

Lemma double_js_sort_byValue l :
  Forall (λ x, 0 ≤ x < 2 ^ 53) l →
  Double.js_sort Double.byValue (Double.of_int <$> l) = Double.of_int <$> js_sort byValue l.
Proof.
  intros Hall. apply double_js_sort. intros x y Hx Hy.
  rewrite Forall_forall in Hall. pose proof (Hall x Hx). pose proof (Hall y Hy).
  unfold Double.byValue, byValue. rewrite sub_exact by done. apply gt_zero_exact. lia.
Qed.

Lemma double_searchLoop sortedSums target fuel left right bestIndex :
  Forall (λ e, 0 ≤ SubsetSum.sum e < 2 ^ 53) sortedSums → 0 ≤ target < 2 ^ 53 →
  Double.searchLoop fuel (doubleSubsetSum <$> sortedSums) (Double.of_int target)
    left right bestIndex
  = searchLoop fuel sortedSums target left right bestIndex.
Proof.
  intros Hall Htarget. revert left right bestIndex.
  induction fuel as [|fuel IH]; intros left right bestIndex; simpl; [done|].
  destruct (left <=? right); [|done]. rewrite member_fmap.
  destruct (member sortedSums ((left + right) / 2)) as [e| |] eqn:He; [|done..].
  simpl. apply member_elem_of in He. rewrite Forall_forall in Hall.
  rewrite le_exact by auto. by rewrite !IH.
Qed.

Lemma double_findBestSum sortedSums target e :
  Forall (λ e, 0 ≤ SubsetSum.sum e < 2 ^ 53) sortedSums → 0 ≤ target < 2 ^ 53 →
  findBestSum sortedSums target = Ok e →
  Double.findBestSum (doubleSubsetSum <$> sortedSums) (Double.of_int target)
  = Ok (doubleSubsetSum e).
Proof.
  intros Hall Htarget. unfold Double.findBestSum, findBestSum. rewrite length_fmap.
  case_decide; [by intros [= <-]|].
  rewrite double_searchLoop by done.
  destruct (searchLoop _ _ _ _ _ _) as [idx| |]; simpl; [|done..].
  rewrite member_fmap. by intros ->.
Qed.

Lemma double_combineStep rightSums target best leftSum best' :
  0 ≤ target < 2 ^ 53 → 0 ≤ best.1 < 2 ^ 53 → 0 ≤ SubsetSum.sum leftSum < 2 ^ 53 →
  Forall (λ e, 0 ≤ SubsetSum.sum e
               ∧ SubsetSum.sum leftSum + SubsetSum.sum e < 2 ^ 53) rightSums →
  combineStep rightSums target best leftSum = Ok best' →
  0 ≤ best'.1 < 2 ^ 53
  ∧ Double.combineStep (doubleSubsetSum <$> rightSums) (Double.of_int target)
      (Double.of_int best.1, Double.of_int <$> best.2) (doubleSubsetSum leftSum)
    = Ok (Double.of_int best'.1, Double.of_int <$> best'.2).
Proof.
  intros Htarget Hbest Hleft Hright. unfold Double.combineStep, combineStep.
  cbn [doubleSubsetSum Double.SubsetSum.sum Double.SubsetSum.subset fst snd].
  rewrite gt_exact by done. destruct (SubsetSum.sum leftSum >? target) eqn:Hgt.
  { by intros [= <-]. }
  rewrite Z.gtb_ltb in Hgt. apply Z.ltb_ge in Hgt.
  rewrite sub_exact by done.
  destruct (findBestSum_total rightSums (target - SubsetSum.sum leftSum))
    as (e & He & Hnil & Hin).
  rewrite He. simpl.
  assert (0 ≤ SubsetSum.sum e ∧ SubsetSum.sum leftSum + SubsetSum.sum e < 2 ^ 53) as [??].
  { destruct rightSums as [|r rs]; [rewrite Hnil by done; simpl; lia|].
    rewrite Forall_forall in Hright. by apply Hright, Hin. }
  rewrite (double_findBestSum _ _ e); [|eapply Forall_impl; [done|simpl; lia]|lia|done].
  simpl. rewrite add_exact by lia.
  destruct (decide (SubsetSum.sum leftSum + SubsetSum.sum e ≤ target)) as [Hfit|Hfit].
  - rewrite le_exact, gt_exact by lia.
    destruct ((_ <=? _) && (_ >? _)); intros [= <-]; simpl; [|done].
    split; [lia|]. by rewrite fmap_app.
  - rewrite (proj2 (Z.leb_gt _ _)) by lia.
    assert (Double.le (Double.of_int (SubsetSum.sum leftSum + SubsetSum.sum e))
              (Double.of_int target) = false) as ->.
    { rewrite le_exact by lia. apply Z.leb_gt. lia. }
    by intros [= <-].
Qed.

Lemma double_combineLoop leftSums rightSums target st best :
  0 ≤ target < 2 ^ 53 → 0 ≤ st.1 < 2 ^ 53 →
  Forall (λ l, 0 ≤ SubsetSum.sum l < 2 ^ 53
               ∧ Forall (λ e, 0 ≤ SubsetSum.sum e
                              ∧ SubsetSum.sum l + SubsetSum.sum e < 2 ^ 53) rightSums)
         leftSums →
  forOf (combineStep rightSums target) leftSums st = Ok best →
  forOf (Double.combineStep (doubleSubsetSum <$> rightSums) (Double.of_int target))
    (doubleSubsetSum <$> leftSums) (Double.of_int st.1, Double.of_int <$> st.2)
  = Ok (Double.of_int best.1, Double.of_int <$> best.2).
Proof.
  intros Htarget Hst Hall. revert st Hst.
  induction Hall as [|l leftSums [Hl Hr] _ IH]; intros st Hst; simpl.
  { by intros [= <-]. }
  destruct (combineStep rightSums target st l) as [st'| |] eqn:Hstep; simpl; [|done..].
  destruct (double_combineStep _ _ _ _ _ Htarget Hst Hl Hr Hstep) as [Hst' ->].
  simpl. by apply IH.
Qed.

Lemma generateAllSubsetSums_bounds numbers e :
  Forall (λ x, 0 ≤ x) numbers → e ∈ generateAllSubsetSums numbers →
  0 ≤ SubsetSum.sum e ≤ sumZ numbers.
Proof.
  intros Hall [Hsub ->]%generateAllSubsetSums_sound.
  apply sumZ_submseteq_le; [done|]. by apply sublist_submseteq.
Qed.

Lemma sumZ_elem_bounds xs x : Forall (λ x, 0 ≤ x) xs → x ∈ xs → 0 ≤ x ≤ sumZ xs.
Proof.
  intros Hall Hx%singleton_submseteq_l.
  destruct (sumZ_submseteq_le [x] xs Hall Hx) as [_ Hbound]. simpl in Hbound. lia.
Qed.

Lemma double_findOptimalSubset numbers target result :
  Forall (λ x, 0 ≤ x) numbers → sumZ numbers < 2 ^ 53 → 0 ≤ target < 2 ^ 53 →
  findOptimalSubset numbers target = Ok result →
  Double.findOptimalSubset (Double.of_int <$> numbers) (Double.of_int target)
  = Ok (Double.of_int <$> result).
Proof.
  intros Hall Hsum Htarget Hrun.
  pose proof Hrun as Hresult. revert Hrun.
  unfold Double.findOptimalSubset, findOptimalSubset. rewrite length_fmap.
  case_decide; [by intros [= <-]|]. case_decide.
  { destruct numbers as [|x [|? ?]]; simplify_eq/=. apply Forall_inv in Hall.
    change (Double.num_at [Double.of_int x] 0) with (Double.of_int x).
    change (num_at [x] 0) with x.
    rewrite le_exact by lia. intros [= <-]. by destruct (x <=? target). }
  set (mid := (length numbers / 2)%nat).
  pose proof (take_drop mid numbers) as Hsplit.
  assert (Forall (λ x, 0 ≤ x) (take mid numbers)) as Hleft by by apply Forall_take.
  assert (Forall (λ x, 0 ≤ x) (drop mid numbers)) as Hright by by apply Forall_drop.
  pose proof (sumZ_nonneg _ Hleft). pose proof (sumZ_nonneg _ Hright).
  assert (sumZ (take mid numbers) + sumZ (drop mid numbers) = sumZ numbers) as Hsums
    by by rewrite <- sumZ_app, Hsplit.
  rewrite <- fmap_take, <- fmap_drop, !double_generateAllSubsetSums by (done || lia).
  rewrite double_js_sort_bySum; last first.
  { apply Forall_forall. intros e He%generateAllSubsetSums_bounds; [lia|done]. }
  destruct (combineLoop _ _ _) as [best| |] eqn:Hloop; simpl; [|done..].
  intros [= <-]. unfold Double.combineLoop, combineLoop in *.
  rewrite (double_combineLoop _ _ _ (0, []) best); [|done|simpl; lia| |done].
  - simpl. rewrite double_js_sort_byValue; [done|].
    apply combineLoop_selection in Hloop. rewrite Hsplit in Hloop.
    apply Forall_forall. intros x Hx.
    assert (x ∈ numbers) as Hin by (eapply elem_of_submseteq; [|apply sublist_submseteq]; done).
    pose proof (sumZ_elem_bounds numbers x Hall Hin). lia.
  - apply Forall_forall. intros l Hl%generateAllSubsetSums_bounds; [|done].
    split; [lia|]. apply Forall_forall. intros e He.
    rewrite js_sort_perm in He. apply generateAllSubsetSums_bounds in He; [|done]. lia.
Qed.

Lemma double_fold_add xs acc :
  Forall (λ x, 0 ≤ x) xs → 0 ≤ acc → acc + sumZ xs < 2 ^ 53 →
  fold_left (λ sum num, Double.add sum num) (Double.of_int <$> xs) (Double.of_int acc)
  = Double.of_int (acc + sumZ xs).
Proof.
  intros Hall. revert acc. induction Hall as [|x xs Hx Hall IH]; intros acc Hacc Hbound; simpl.
  { by rewrite Z.add_0_r. }
  simpl in Hbound. pose proof (sumZ_nonneg _ Hall).
  rewrite add_exact, IH by lia. f_equal. lia.
Qed.

Lemma double_validateRow row :
  - 2 ^ 53 < bigNumber row < 2 ^ 53 →
  Forall (λ x, - 2 ^ 53 < x < 2 ^ 53) (smallNumbers row) →
  Double.validateRow (doubleRow row) = validateRow row.
Proof.
  intros Htarget Hall. unfold Double.validateRow, validateRow, doubleRow.
  cbn [Double.bigNumber Double.smallNumbers].
  rewrite gt_zero_exact, length_fmap by done. f_equal.
  induction Hall as [|x xs Hx Hall IH]; [done|].
  rewrite fmap_cons. cbn [forallb]. by rewrite gt_zero_exact, IH.
Qed.

(** On a row of non-negative integers whose sum stays below [2^53] the
    two embeddings agree: every sum and difference the optimizer forms is an
    integer below [2^53], which double precision holds exactly. *)
Lemma optimizeRow_double row :
  0 ≤ bigNumber row < 2 ^ 53 →
  Forall (λ x, 0 ≤ x) (smallNumbers row) → sumZ (smallNumbers row) < 2 ^ 53 →
  ∃ result,
    optimizeRow row = Ok (OptimizationResult.mk result (sumZ result) row)
    ∧ findOptimalSubset (smallNumbers row) (bigNumber row) = Ok result
    ∧ Double.optimizeRow (doubleRow row)
      = Ok (doubleResult (OptimizationResult.mk result (sumZ result) row)).
Proof.
  intros Htarget Hall Hsum. destruct (optimizeRow_Ok row) as (result & Hfind & Hrow).
  exists result. split_and!; [done..|].
  unfold Double.optimizeRow, doubleResult, doubleRow. simpl. rewrite length_fmap.
  case_decide as Hlen.
  { apply length_zero_iff_nil in Hlen. rewrite Hlen in Hfind |- *.
    by injection Hfind as <-. }
  rewrite (double_findOptimalSubset _ _ result) by done. simpl.
  destruct (findOptimalSubset_selection _ _ _ Hfind) as [Hsub _].
  destruct (sumZ_submseteq_le _ _ Hall Hsub) as [Hres Hbound].
  unfold Double.reduce_sum. change Double.zero with (Double.of_int 0).
  rewrite double_fold_add by (done || lia). done.
Qed.

(** ** The optimizer in double precision, on every row

    What follows depends on no property of the arithmetic: it holds of
    every row of doubles, [NaN] and the infinities included. *)

Lemma double_sort_insert_perm {A} (cmp : A → A → Double.number) x l :
  Double.sort_insert cmp x l ≡ₚ x :: l.
Proof.
  induction l as [|y l IH]; [done|]. simpl.
  destruct (Double.gt (cmp x y) Double.zero); [|done]. rewrite IH. apply perm_swap.
Qed.

Lemma double_js_sort_perm {A} (cmp : A → A → Double.number) l : Double.js_sort cmp l ≡ₚ l.
Proof.
  induction l as [|x l IH]; [done|]. simpl.
  rewrite double_sort_insert_perm. by constructor.
Qed.

(** After the positions below [k] the inner loop holds a sublist of the
    first [k] numbers. *)
Lemma double_pick_sublist numbers mask (k : nat) :
  (k ≤ length numbers)%nat →
  (fold_left (Double.pickStep numbers mask) (range 0 (Z.of_nat k)) ([], Double.zero)).1
  `sublist_of` take k numbers.
Proof.
  induction k as [|k IH]; intros Hk; [done|].
  rewrite Nat2Z.inj_succ, <- Z.add_1_r, range_snoc, fold_left_app by lia.
  destruct (lookup_lt_is_Some_2 numbers k ltac:(lia)) as [x Hx].
  rewrite (take_S_r _ _ x) by done. cbn [fold_left]. unfold Double.pickStep at 1.
  destruct (included mask (Z.of_nat k)).
  - cbn [fst]. unfold Double.num_at. rewrite at_index_of_nat, Hx.
    apply sublist_app; [apply IH; lia|done].
  - apply sublist_inserts_r, IH. lia.
Qed.

Lemma double_generateAllSubsetSums_sound numbers e :
  e ∈ Double.generateAllSubsetSums numbers →
  Double.SubsetSum.subset e `sublist_of` numbers.
Proof.
  unfold Double.generateAllSubsetSums. intros (mask & -> & _)%list_elem_of_fmap.
  unfold Double.subsetOfMask. cbn [Double.SubsetSum.subset].
  rewrite <- (firstn_all numbers) at 3. by apply double_pick_sublist.
Qed.

Lemma double_searchLoop_total sortedSums target fuel left right bestIndex :
  0 ≤ left → right < Z.of_nat (length sortedSums) →
  (Z.to_nat (right - left + 1) ≤ fuel)%nat →
  ∃ idx, Double.searchLoop fuel sortedSums target left right bestIndex = Ok idx
         ∧ (idx = bestIndex ∨ left ≤ idx ≤ right).
Proof.
  revert left right bestIndex.
  induction fuel as [|fuel IH]; intros left right bestIndex Hl Hr Hfuel.
  - exists bestIndex. simpl. destruct (Z.leb_spec left right); [lia|]. auto.
  - simpl. destruct (Z.leb_spec left right) as [Hle|Hgt]; [|eauto].
    pose proof (mid_bounds _ _ Hle) as Hmid.
    destruct (member_in_range sortedSums ((left + right) / 2)) as (e & -> & _); [lia|].
    simpl. destruct (Double.le (Double.SubsetSum.sum e) target).
    + destruct (IH ((left + right) / 2 + 1) right ((left + right) / 2))
        as (idx & -> & Hidx); [lia..|].
      exists idx. split; [done|]. lia.
    + destruct (IH left ((left + right) / 2 - 1) bestIndex)
        as (idx & -> & Hidx); [lia..|].
      exists idx. split; [done|]. lia.
Qed.

Lemma double_findBestSum_total sortedSums target :
  ∃ e, Double.findBestSum sortedSums target = Ok e
       ∧ (e = Double.SubsetSum.mk Double.zero [] ∨ e ∈ sortedSums).
Proof.
  unfold Double.findBestSum. case_decide as Hlen; [eauto|].
  destruct (double_searchLoop_total sortedSums target (length sortedSums) 0
              (Z.of_nat (length sortedSums) - 1) 0) as (idx & -> & Hidx); [lia..|].
  destruct (member_in_range sortedSums idx) as (e & He & Hat); [lia|].
  exists e. split; [done|]. right. by eapply member_elem_of.
Qed.

Lemma double_combineStep_total rightSums target best leftSum :
  ∃ best',
    Double.combineStep rightSums target best leftSum = Ok best'
    ∧ (best' = best
       ∨ ∃ e, (e = Double.SubsetSum.mk Double.zero [] ∨ e ∈ rightSums)
              ∧ best'.2 = Double.SubsetSum.subset leftSum ++ Double.SubsetSum.subset e).
Proof.
  unfold Double.combineStep.
  destruct (Double.gt (Double.SubsetSum.sum leftSum) target); [eauto|].
  destruct (double_findBestSum_total rightSums
              (Double.sub target (Double.SubsetSum.sum leftSum))) as (e & -> & He).
  simpl. destruct (_ && _).
  - eexists. split; [done|]. right. exists e. by split.
  - eexists. split; [done|]. by left.
Qed.

Lemma double_combineLoop_selection left right target :
  ∃ best,
    Double.combineLoop (Double.generateAllSubsetSums left)
      (Double.js_sort Double.bySum (Double.generateAllSubsetSums right)) target = Ok best
    ∧ best.2 `sublist_of` left ++ right.
Proof.
  unfold Double.combineLoop.
  set (rightSums := Double.js_sort Double.bySum (Double.generateAllSubsetSums right)).
  assert (∀ leftSums st,
            Forall (λ l, Double.SubsetSum.subset l `sublist_of` left) leftSums →
            st.2 `sublist_of` left ++ right →
            ∃ best, forOf (Double.combineStep rightSums target) leftSums st = Ok best
                    ∧ best.2 `sublist_of` left ++ right) as Hloop.
  { intros leftSums st Hall. revert st.
    induction Hall as [|l leftSums Hl _ IH]; intros st Hst; simpl; [eauto|].
    destruct (double_combineStep_total rightSums target st l)
      as (st' & -> & [->|(e & He & Hst')]); simpl; [by apply IH|].
    apply IH. rewrite Hst'. apply sublist_app; [done|].
    destruct He as [->|He]; [apply sublist_nil_l|].
    apply double_generateAllSubsetSums_sound.
    by rewrite <- (double_js_sort_perm Double.bySum). }
  apply Hloop; [|apply sublist_nil_l].
  apply Forall_forall. intros l. apply double_generateAllSubsetSums_sound.
Qed.

Lemma double_findOptimalSubset_selection numbers target :
  ∃ result,
    Double.findOptimalSubset numbers target = Ok result
    ∧ result ⊆+ numbers
    ∧ ((2 ≤ length numbers)%nat →
       ∃ selection, result = Double.js_sort Double.byValue selection).
Proof.
  unfold Double.findOptimalSubset. repeat case_decide.
  - exists []. split_and!; [done|apply submseteq_nil_l|lia].
  - destruct numbers as [|x [|? ?]]; simplify_eq/=.
    destruct (Double.le _ _); eexists; (split_and!; [done| |lia]);
      [done|apply submseteq_nil_l].
  - destruct (double_combineLoop_selection
                (take (length numbers / 2) numbers) (drop (length numbers / 2) numbers)
                target) as (best & -> & Hsub).
    simpl. eexists. split_and!; [done| |eauto].
    rewrite double_js_sort_perm. rewrite take_drop in Hsub. by apply sublist_submseteq.
Qed.

(** On every row [optimizeRow] returns, with a selection that is a
    sub-multiset of the candidates and the sum [reduce] computes of it. *)
Lemma double_optimizeRow_total row :
  ∃ selected,
    Double.optimizeRow row
    = Ok (Double.OptimizationResult.mk selected (Double.reduce_sum selected) row)
    ∧ selected ⊆+ Double.smallNumbers row
    ∧ Double.findOptimalSubset (Double.smallNumbers row) (Double.bigNumber row) = Ok selected.
Proof.
  unfold Double.optimizeRow.
  destruct (double_findOptimalSubset_selection (Double.smallNumbers row)
              (Double.bigNumber row)) as (result & Hres & Hsub & _).
  case_decide as Hlen.
  - apply length_zero_iff_nil in Hlen. rewrite Hlen in *.
    injection Hres as <-. by exists [].
  - rewrite Hres. simpl. by exists result.
Qed.

(** ** The order of the selection, in double precision *)

Lemma shr_1_div2 r : 0 ≤ shr_m r → shr_m (shr_1 r) = shr_m r / 2.
Proof.
  destruct r as [[|[p|p|]|p] ? ?]; simpl; intros Hm; try done.
  - rewrite Pos2Z.inj_xI. apply (Z.div_unique _ _ _ 1); lia.
  - rewrite Pos2Z.inj_xO. apply (Z.div_unique _ _ _ 0); lia.
Qed.

Lemma shr_iter_div r n :
  0 ≤ shr_m r → shr_m (Nat.iter n shr_1 r) = shr_m r / 2 ^ Z.of_nat n.
Proof.
  intros Hm. induction n as [|n IH]; [by rewrite Z.div_1_r|].
  cbn [Nat.iter nat_rect]. fold (Nat.iter n shr_1 r).
  rewrite shr_1_div2, IH.
  - rewrite Nat2Z.inj_succ, Z.pow_succ_r, (Z.mul_comm 2) by lia.
    apply Z.div_div; lia.
  - rewrite IH. apply Z.div_pos; lia.
Qed.

Lemma shr_m_of_loc m l : shr_m (shr_record_of_loc m l) = m.
Proof. by destruct l as [|[]]. Qed.

(** Rounding keeps a positive mantissa positive, above the least exponent. *)
Lemma shr_fexp_pos q e l :
  -1074 ≤ e →
  0 < shr_m (shr_fexp Double.prec Double.emax (Z.pos q) e l).1
  ∧ -1074 ≤ (shr_fexp Double.prec Double.emax (Z.pos q) e l).2.
Proof.
  intros He. unfold shr_fexp, shr. cbn [Zdigits2].
  destruct (fexp _ _ _ - e) as [|n|n] eqn:Hn; cbn [fst snd]; rewrite ?shr_m_of_loc; try lia.
  rewrite iter_pos_nat, shr_iter_div by (rewrite shr_m_of_loc; lia).
  rewrite shr_m_of_loc, positive_nat_Z. split; [|lia].
  destruct (digits_bounds q) as [Hlo _]. unfold digits in Hlo. rewrite positive_nat_Z in Hlo.
  unfold fexp, emin, Double.prec, Double.emax in Hn.
  assert (Z.pos n = Z.pos (digits2_pos q) - 53) as -> by lia.
  apply Z.div_str_pos. split; [lia|].
  assert (2 * 2 ^ (Z.pos (digits2_pos q) - 53) ≤ 2 ^ Z.pos (digits2_pos q)); [|lia].
  rewrite <- Z.pow_succ_r by lia. apply Z.pow_le_mono_r; lia.
Qed.

Lemma round_nearest_even_pos m l : 0 < m → 0 < round_nearest_even m l.
Proof. intros Hm. destruct l as [|[]]; simpl; try lia. destruct (Z.even m); lia. Qed.

(** The outcomes of rounding: a number of the sign asked for. *)
Lemma binary_round_aux_sign sx mx ex lx :
  binary_round_aux Double.prec Double.emax sx mx ex lx = S754_zero sx
  ∨ binary_round_aux Double.prec Double.emax sx mx ex lx = S754_infinity sx
  ∨ binary_round_aux Double.prec Double.emax sx mx ex lx = S754_nan
  ∨ ∃ m e, binary_round_aux Double.prec Double.emax sx mx ex lx = S754_finite sx m e.
Proof.
  unfold binary_round_aux. destruct (shr_fexp _ _ mx ex lx) as [r1 e1].
  destruct (shr_fexp _ _ _ e1 loc_Exact) as [r2 e2].
  destruct (shr_m r2); [auto| |auto]. destruct (_ <=? _); eauto 6.
Qed.

Lemma binary_round_aux_pos q e l :
  -1074 ≤ e →
  binary_round_aux Double.prec Double.emax false (Z.pos q) e l = S754_infinity false
  ∨ ∃ m e', binary_round_aux Double.prec Double.emax false (Z.pos q) e l
            = S754_finite false m e'.
Proof.
  intros He. unfold binary_round_aux.
  pose proof (shr_fexp_pos q e l He) as [Hm1 He1].
  destruct (shr_fexp _ _ (Z.pos q) e l) as [r1 e1]. cbn [fst snd] in Hm1, He1.
  pose proof (round_nearest_even_pos _ (loc_of_shr_record r1) Hm1) as Hround.
  destruct (round_nearest_even _ _) as [|q1|q1]; [lia| |lia].
  pose proof (shr_fexp_pos q1 e1 loc_Exact He1) as [Hm2 _].
  destruct (shr_fexp _ _ (Z.pos q1) e1 loc_Exact) as [r2 e2]. cbn [fst] in Hm2.
  destruct (shr_m r2); [lia| |lia]. destruct (_ <=? _); eauto.
Qed.

Lemma binary_round_pos q e :
  -1074 ≤ e →
  binary_round Double.prec Double.emax false q e = S754_infinity false
  ∨ ∃ m e', binary_round Double.prec Double.emax false q e = S754_finite false m e'.
Proof.
  intros He. unfold binary_round.
  destruct (shl_align q e _) as [mz ez] eqn:Halign.
  apply binary_round_aux_pos.
  unfold shl_align in Halign. destruct (_ - e) eqn:Hd; simplify_eq; try lia.
  unfold fexp, emin, Double.prec, Double.emax. lia.
Qed.

Lemma binary_round_neg q e :
  Double.gt (binary_round Double.prec Double.emax true q e) Double.zero = false.
Proof.
  unfold binary_round. destruct (shl_align q e _) as [mz ez].
  by destruct (binary_round_aux_sign true (Z.pos mz) ez loc_Exact)
    as [->|[->|[->|(m & e' & ->)]]].
Qed.

Lemma shl_align_value m e ez :
  ez ≤ e → Z.pos (shl_align m e ez).1 = Z.pos m * 2 ^ (e - ez).
Proof.
  intros Hle. pose proof (shl_align_spec m 0 e ez Hle) as Hspec.
  change (shiftl_pos m 0) with m in Hspec. rewrite Hspec. cbn [fst].
  rewrite Zpos_shiftl_pos. do 2 f_equal. lia.
Qed.

(** A well-formed finite double has at most 53 digits, and exactly 53
    above the least exponent. *)
Lemma valid_binary_finite s m e :
  valid_binary Double.prec Double.emax (S754_finite s m e) = true →
  -1074 ≤ e ∧ Z.pos m < 2 ^ 53 ∧ (-1074 < e → 2 ^ 52 ≤ Z.pos m).
Proof.
  unfold valid_binary, bounded, canonical_mantissa, fexp, emin, Double.prec, Double.emax.
  intros [Hcanon _]%andb_prop. apply Z.eqb_eq in Hcanon.
  destruct (digits_bounds m) as [Hlo Hhi]. unfold digits in *.
  rewrite positive_nat_Z in *. split_and!; [lia| |].
  - assert (2 ^ Z.pos (digits2_pos m) ≤ 2 ^ 53) by (apply Z.pow_le_mono_r; lia). lia.
  - intros He. assert (Z.pos (digits2_pos m) = 53) as Hd by lia.
    rewrite Hd in Hlo. lia.
Qed.

Lemma compare_cont_antisym_Eq p q :
  Pos.compare_cont Eq q p = CompOpp (Pos.compare_cont Eq p q).
Proof. symmetry. apply (Pos.compare_cont_antisym p q Eq). Qed.

Lemma SFcompare_antisym x y : SFcompare y x = CompOpp <$> SFcompare x y.
Proof.
  destruct x as [[]|[]| |[] mx ex], y as [[]|[]| |[] my ey]; try done; simpl;
    rewrite (Z.compare_antisym ex ey), (compare_cont_antisym_Eq mx my);
    by destruct (ex ?= ey), (Pos.compare_cont Eq mx my).
Qed.

Lemma positiveDouble_cases x :
  positiveDouble x →
  x = S754_infinity false
  ∨ ∃ m e, x = S754_finite false m e
           ∧ -1074 ≤ e ∧ Z.pos m < 2 ^ 53 ∧ (-1074 < e → 2 ^ 52 ≤ Z.pos m).
Proof.
  intros [Hvalid Hpos]. destruct x as [[]|[]| |[] m e]; try done; [by left|].
  right. exists m, e. split; [done|]. by apply valid_binary_finite in Hvalid.
Qed.

(** On the doubles of a valid row the comparator [(a, b) => a - b] has the
    sign of the comparison: the difference of two doubles is not rounded to
    zero. *)
Lemma gt_sub_zero x y :
  positiveDouble x → positiveDouble y →
  Double.gt (Double.sub x y) Double.zero = Double.gt x y.
Proof.
  intros [->|(mx & ex & -> & Hex & Hmx & Hnx)]%positiveDouble_cases
         [->|(my & ey & -> & Hey & Hmy & Hny)]%positiveDouble_cases; try done.
  unfold Double.sub, SFsub, Double.gt at 2, SFltb. cbn [SFcompare cond_Zopp].
  rewrite !shl_align_value by lia.
  destruct (Z.compare_spec ey ex) as [->|Hlt|Hgt].
  - rewrite Z.min_id, Z.sub_diag, !Z.mul_1_r.
    change (Pos.compare_cont Eq my mx) with (my ?= mx)%positive.
    destruct (Pos.compare_spec my mx) as [->|Hlt|Hgt].
    + by rewrite Z.sub_diag.
    + destruct (Z.pos mx - Z.pos my) as [|d|d] eqn:Hd; [lia| |lia]. simpl.
      by destruct (binary_round_pos d ex Hex) as [->|(m & e' & ->)].
    + destruct (Z.pos mx - Z.pos my) as [|d|d] eqn:Hd; [lia|lia|]. simpl.
      apply binary_round_neg.
  - rewrite Z.min_r, Z.sub_diag, Z.mul_1_r by lia.
    assert (2 ^ 52 * 2 ≤ Z.pos mx * 2 ^ (ex - ey)).
    { apply Z.mul_le_mono_nonneg; [lia|lia|lia|].
      change 2 with (2 ^ 1) at 1. apply Z.pow_le_mono_r; lia. }
    destruct (Z.pos mx * 2 ^ (ex - ey) - Z.pos my) as [|d|d] eqn:Hd; [lia| |lia]. simpl.
    by destruct (binary_round_pos d ey Hey) as [->|(m & e' & ->)].
  - rewrite Z.min_l, Z.sub_diag, Z.mul_1_r by lia.
    assert (2 ^ 52 * 2 ≤ Z.pos my * 2 ^ (ey - ex)).
    { apply Z.mul_le_mono_nonneg; [lia|lia|lia|].
      change 2 with (2 ^ 1) at 1. apply Z.pow_le_mono_r; lia. }
    destruct (Z.pos mx - Z.pos my * 2 ^ (ey - ex)) as [|d|d] eqn:Hd; [lia|lia|]. simpl.
    apply binary_round_neg.
Qed.

Lemma positiveDouble_le x y :
  positiveDouble x → positiveDouble y →
  Double.le x y = negb (Double.gt x y).
Proof.
  intros [_ Hx] [_ Hy].
  assert (Double.le x y = negb (SFltb y x)) as ->; [|done].
  unfold Double.le, SFleb, SFltb. rewrite (SFcompare_antisym x y).
  destruct (SFcompare x y) as [[]|] eqn:Hc; try done.
  by destruct x as [[]|[]| |[] mx ex], y as [[]|[]| |[] my ey].
Qed.

Lemma positiveDouble_ge x y :
  positiveDouble x → positiveDouble y →
  Double.gt x y = true → Double.le y x = true.
Proof.
  intros [_ Hx] [_ Hy]. unfold Double.le, Double.gt, SFleb, SFltb.
  by destruct (SFcompare y x) as [[]|].
Qed.

Lemma double_sort_insert_HdRel y x l :
  Double.le y x = true → HdRel (λ a b, Double.le a b = true) y l →
  HdRel (λ a b, Double.le a b = true) y (Double.sort_insert Double.byValue x l).
Proof.
  intros Hyx Hhd. destruct Hhd as [|z l Hyz]; simpl; [by constructor|].
  destruct (Double.gt _ _); by constructor.
Qed.

Lemma double_sort_insert_sorted x l :
  positiveDouble x → Forall positiveDouble l →
  Sorted (λ a b, Double.le a b = true) l →
  Sorted (λ a b, Double.le a b = true) (Double.sort_insert Double.byValue x l).
Proof.
  intros Hx Hall Hsorted. induction Hsorted as [|y l Hsorted IH Hhd]; simpl.
  { repeat constructor. }
  apply Forall_cons_1 in Hall as [Hy Hall].
  unfold Double.byValue at 1. rewrite gt_sub_zero by done.
  destruct (Double.gt x y) eqn:Hgt.
  - constructor; [by apply IH|].
    apply double_sort_insert_HdRel; [|done]. by apply positiveDouble_ge.
  - constructor; [by constructor|]. constructor.
    by rewrite positiveDouble_le, Hgt.
Qed.

(** [sort((a, b) => a - b)] puts the numbers of a valid row in ascending
    order. *)
Lemma double_js_sort_byValue_sorted l :
  Forall positiveDouble l →
  Sorted (λ a b, Double.le a b = true) (Double.js_sort Double.byValue l).
Proof.
  induction 1 as [|x l Hx Hall IH]; simpl; [constructor|].
  apply double_sort_insert_sorted; [done| |done].
  by rewrite double_js_sort_perm.
Qed.

Lemma double_validateRow_true row :
  Double.validateRow row = true
  ↔ Double.gt (Double.bigNumber row) Double.zero = true
    ∧ (length (Double.smallNumbers row) ≤ 12)%nat
    ∧ Forall (λ num, Double.gt num Double.zero = true) (Double.smallNumbers row).
Proof.
  unfold Double.validateRow.
  rewrite !andb_true_iff, Nat.leb_le, forallb_forall, Forall_forall. split.
  - intros [[Hbig Hlen] Hall]. split_and!; [done..|].
    intros x Hx. apply Hall. by apply list_elem_of_In.
  - intros (Hbig & Hlen & Hall). split_and!; [done..|].
    intros x Hx. apply Hall. by apply list_elem_of_In.
Qed.

(** On a valid row of well-formed doubles the selection is in ascending
    order. *)
Lemma double_optimizeRow_sorted row selected :
  Forall positiveDouble (Double.smallNumbers row) →
  Double.findOptimalSubset (Double.smallNumbers row) (Double.bigNumber row) = Ok selected →
  Sorted (λ a b, Double.le a b = true) selected.
Proof.
  intros Hall Hfind.
  destruct (double_findOptimalSubset_selection (Double.smallNumbers row)
              (Double.bigNumber row)) as (result & Hres & Hsub & Hsort).
  rewrite Hfind in Hres. injection Hres as <-.
  destruct (decide (2 ≤ length (Double.smallNumbers row))%nat) as [Hlen|Hlen].
  - destruct (Hsort Hlen) as (selection & ->).
    apply double_js_sort_byValue_sorted.
    rewrite double_js_sort_perm in Hsub.
    rewrite Forall_forall in *. intros x Hx. apply Hall. by eapply elem_of_submseteq.
  - apply submseteq_length in Hsub.
    destruct selected as [|x [|y ?]]; simpl in *; [repeat constructor..|lia].
Qed.

Lemma optimizeRow_double_run row r :
  0 ≤ bigNumber row < 2 ^ 53 →
  Forall (λ x, 0 ≤ x) (smallNumbers row) → sumZ (smallNumbers row) < 2 ^ 53 →
  optimizeRow row = Ok r →
  Double.optimizeRow (doubleRow row) = Ok (doubleResult r).
Proof.
  intros Htarget Hall Hsum Hrow.
  destruct (optimizeRow_double row Htarget Hall Hsum) as (result & Hrow' & _ & Hrun).
  congruence.
Qed.

Lemma double_reduce_sum xs :
  Forall (λ x, 0 ≤ x) xs → sumZ xs < 2 ^ 53 →
  Double.reduce_sum (Double.of_int <$> xs) = Double.of_int (sumZ xs).
Proof.
  intros Hall Hsum. unfold Double.reduce_sum. change Double.zero with (Double.of_int 0).
  by rewrite double_fold_add by (done || lia).
Qed.

Lemma validateRow_nonneg row :
  validateRow row = true → 0 ≤ bigNumber row ∧ Forall (λ x, 0 ≤ x) (smallNumbers row).
Proof.
  intros (Hbig & _ & Hall)%validateRow_true. split; [lia|].
  eapply Forall_impl; [done|]. simpl. lia.
Qed.

(** What [optimizeRow] computes in double precision on a valid row of
    integers whose sum stays below [2^53]: the integer result, exactly. *)
Lemma optimizeRow_double_valid row :
  validateRow row = true →
  bigNumber row < 2 ^ 53 → sumZ (smallNumbers row) < 2 ^ 53 →
  ∃ selected,
    optimizeRow row = Ok (OptimizationResult.mk selected (sumZ selected) row)
    ∧ Double.validateRow (doubleRow row) = true
    ∧ Double.optimizeRow (doubleRow row)
      = Ok (Double.OptimizationResult.mk (Double.of_int <$> selected)
              (Double.of_int (sumZ selected)) (doubleRow row))
    ∧ selected ⊆+ smallNumbers row ∧ StronglySorted Z.le selected
    ∧ Forall (λ x, 0 ≤ x < 2 ^ 53) selected
    ∧ 0 ≤ sumZ selected ≤ bigNumber row
    ∧ ∀ sub, sub `sublist_of` smallNumbers row → sumZ sub ≤ bigNumber row →
             sumZ sub ≤ sumZ selected.
Proof.
  intros Hvalid Htarget Hsum. pose proof (validateRow_nonneg row Hvalid) as [Hbig Hall].
  destruct (optimizeRow_valid row Hvalid) as (selected & Hrow & Hsub & Hsorted & Hfit & Hopt).
  destruct (sumZ_submseteq_le _ _ Hall Hsub) as [Hsel Hbound].
  exists selected. split_and!; try done.
  - rewrite double_validateRow; [done|lia|].
    apply Forall_forall. intros x Hx. pose proof (sumZ_elem_bounds _ x Hall Hx). lia.
  - by rewrite (optimizeRow_double_run row _ ltac:(lia) Hall Hsum Hrow).
  - apply Forall_forall. intros x Hx.
    pose proof (sumZ_elem_bounds _ x Hsel Hx). lia.
  - lia.
Qed.

(** ** Optimality and feasibility *)

(** X25. On a valid row whose numbers are integers, with target and sum
    of the candidates below [2^53], [optimizeRow] in double precision returns
    an optimal sum: no sub-multiset of the candidates has a sum that fits
    under the target and is greater, whether the sums are compared as doubles
    or as integers; equivalently, the sum is the maximum of the sums, not
    exceeding the target, of the [2^n] subsets by index. *)
Theorem optimizeRow_optimal_integers (row : CSVRow) :
  validateRow row = true →
  bigNumber row < 2 ^ 53 → sumZ (smallNumbers row) < 2 ^ 53 →
  ∃ selected,
    Double.validateRow (doubleRow row) = true
    ∧ Double.optimizeRow (doubleRow row)
      = Ok (Double.OptimizationResult.mk (Double.of_int <$> selected)
              (Double.of_int (sumZ selected)) (doubleRow row))
    ∧ (∀ sub, sub ⊆+ smallNumbers row →
         Double.le (Double.reduce_sum (Double.of_int <$> sub))
                   (Double.of_int (bigNumber row)) = true →
         Double.le (Double.reduce_sum (Double.of_int <$> sub))
                   (Double.of_int (sumZ selected)) = true)
    ∧ (∀ sub, sub ⊆+ smallNumbers row → sumZ sub ≤ bigNumber row →
              sumZ sub ≤ sumZ selected)
    ∧ length (allSubsets (smallNumbers row)) = (2 ^ length (smallNumbers row))%nat
    ∧ sumZ selected ∈ feasibleSums (bigNumber row) (smallNumbers row)
    ∧ (∀ s, s ∈ feasibleSums (bigNumber row) (smallNumbers row) → s ≤ sumZ selected).
Proof.
  intros Hvalid Htarget Hsum. pose proof (validateRow_nonneg row Hvalid) as [Hbig Hall].
  destruct (optimizeRow_double_valid row Hvalid Htarget Hsum)
    as (selected & _ & Hdvalid & Hrun & Hsub & _ & _ & Hfit & Hopt).
  assert (∀ sub, sub ⊆+ smallNumbers row → sumZ sub ≤ bigNumber row →
                 sumZ sub ≤ sumZ selected) as Hopt'.
  { intros sub (sub' & Hperm & Hsub')%submseteq_sublist_r.
    rewrite (sumZ_perm _ _ Hperm). by apply Hopt. }
  exists selected. split_and!; [done|done| |done|apply length_allSubsets| |].
  - intros sub Hin. destruct (sumZ_submseteq_le _ _ Hall Hin) as [Hnn Hbound].
    rewrite double_reduce_sum, !le_exact by (done || lia).
    rewrite !Z.leb_le. by apply Hopt'.
  - apply elem_of_feasibleSums. split; [lia|].
    apply submseteq_sublist_r in Hsub as (sub' & Hperm & Hsub').
    exists sub'. split; [done|]. by apply sumZ_perm.
  - intros s (Hs & sub & Hin & ->)%elem_of_feasibleSums. by apply Hopt.
Qed.

Lemma optimizeRow_optimal_integers_witness :
  ∃ selected,
    Double.validateRow (doubleRow (mkRow 10 [3; 3; 4; 4; 5])) = true
    ∧ Double.optimizeRow (doubleRow (mkRow 10 [3; 3; 4; 4; 5]))
      = Ok (Double.OptimizationResult.mk (Double.of_int <$> selected)
              (Double.of_int (sumZ selected)) (doubleRow (mkRow 10 [3; 3; 4; 4; 5])))
    ∧ (∀ sub, sub ⊆+ [3; 3; 4; 4; 5] →
         Double.le (Double.reduce_sum (Double.of_int <$> sub)) (Double.of_int 10) = true →
         Double.le (Double.reduce_sum (Double.of_int <$> sub))
                   (Double.of_int (sumZ selected)) = true)
    ∧ (∀ sub, sub ⊆+ [3; 3; 4; 4; 5] → sumZ sub ≤ 10 → sumZ sub ≤ sumZ selected)
    ∧ length (allSubsets [3; 3; 4; 4; 5]) = (2 ^ 5)%nat
    ∧ sumZ selected ∈ feasibleSums 10 [3; 3; 4; 4; 5]
    ∧ (∀ s, s ∈ feasibleSums 10 [3; 3; 4; 4; 5] → s ≤ sumZ selected).
Proof.
  exact (optimizeRow_optimal_integers (mkRow 10 [3; 3; 4; 4; 5]) eq_refl eq_refl eq_refl).
Defined.

(** C1 (the code departs from it). On the valid row
    [{bigNumber: 0.89, smallNumbers: [0.33, 0.98, 0.56, 0.52]}] [optimizeRow]
    returns [[0.56]], although [0.33 + 0.52] fits under [0.89] and is greater:
    the result is not optimal. The left entry [0.33] leaves [0.89 - 0.33],
    which rounds to [0.56]; the search returns the right entry [0.56], and
    [0.33 + 0.56] rounds above [0.89], so the combination is dropped and
    [0.52] is never tried. *)
Lemma optimizeRow_decimal_not_optimal :
  Double.validateRow
    (Double.mkRow (Double.decimal 89 100)
       [Double.decimal 33 100; Double.decimal 98 100;
        Double.decimal 56 100; Double.decimal 52 100]) = true
  ∧ Double.optimizeRow
      (Double.mkRow (Double.decimal 89 100)
         [Double.decimal 33 100; Double.decimal 98 100;
          Double.decimal 56 100; Double.decimal 52 100])
    = Ok (Double.OptimizationResult.mk [Double.decimal 56 100] (Double.decimal 56 100)
            (Double.mkRow (Double.decimal 89 100)
               [Double.decimal 33 100; Double.decimal 98 100;
                Double.decimal 56 100; Double.decimal 52 100]))
  ∧ Double.le (Double.reduce_sum [Double.decimal 33 100; Double.decimal 52 100])
              (Double.decimal 89 100) = true
  ∧ Double.gt (Double.reduce_sum [Double.decimal 33 100; Double.decimal 52 100])
              (Double.decimal 56 100) = true
  ∧ Double.sub (Double.decimal 89 100) (Double.decimal 33 100) = Double.decimal 56 100
  ∧ Double.le (Double.add (Double.decimal 33 100) (Double.decimal 56 100))
              (Double.decimal 89 100) = false.
Proof. split_and!; vm_compute; reflexivity. Qed.

(** C2 (the code departs from it). On the valid row
    [{bigNumber: 0.6, smallNumbers: [0.1, 0.2, 0.3]}] [optimizeRow] selects
    all three numbers and returns the sum [(0.1 + 0.2) + 0.3], which is
    greater than [0.6]: the sum exceeds the target. The total compared with
    the target was [0.1 + (0.2 + 0.3)], which rounds to [0.6]; [reduce] adds
    the sorted selection in another order. *)
Lemma optimizeRow_decimal_exceeds :
  Double.validateRow
    (Double.mkRow (Double.decimal 6 10)
       [Double.decimal 1 10; Double.decimal 2 10; Double.decimal 3 10]) = true
  ∧ Double.optimizeRow
      (Double.mkRow (Double.decimal 6 10)
         [Double.decimal 1 10; Double.decimal 2 10; Double.decimal 3 10])
    = Ok (Double.OptimizationResult.mk
            [Double.decimal 1 10; Double.decimal 2 10; Double.decimal 3 10]
            (Double.add (Double.add (Double.decimal 1 10) (Double.decimal 2 10))
                        (Double.decimal 3 10))
            (Double.mkRow (Double.decimal 6 10)
               [Double.decimal 1 10; Double.decimal 2 10; Double.decimal 3 10]))
  ∧ Double.le (Double.add (Double.add (Double.decimal 1 10) (Double.decimal 2 10))
                          (Double.decimal 3 10))
              (Double.decimal 6 10) = false
  ∧ Double.gt (Double.add (Double.add (Double.decimal 1 10) (Double.decimal 2 10))
                          (Double.decimal 3 10))
              (Double.decimal 6 10) = true
  ∧ Double.add (Double.decimal 1 10) (Double.add (Double.decimal 2 10) (Double.decimal 3 10))
    = Double.decimal 6 10.
Proof. split_and!; vm_compute; reflexivity. Qed.

(** X26. On every valid row of doubles, decimals included, the selection
    [optimizeRow] returns is in ascending order and a sub-multiset of the
    candidates, and the sum is the one [reduce] computes of the selection,
    from left to right in double precision. On a valid row whose numbers are
    integers, with target and sum of the candidates below [2^53], that sum is
    exact and does not exceed the target. *)
Theorem optimizeRow_feasible_double :
  (∀ row : Double.CSVRow,
     Double.validateRow row = true →
     Forall (λ num, valid_binary Double.prec Double.emax num = true)
            (Double.smallNumbers row) →
     ∃ r, Double.optimizeRow row = Ok r
          ∧ Double.OptimizationResult.originalRow r = row
          ∧ Double.OptimizationResult.sum r
            = Double.reduce_sum (Double.OptimizationResult.selectedNumbers r)
          ∧ Sorted (λ a b, Double.le a b = true)
                   (Double.OptimizationResult.selectedNumbers r)
          ∧ Double.OptimizationResult.selectedNumbers r ⊆+ Double.smallNumbers row)
  ∧ (∀ row : CSVRow,
       validateRow row = true →
       bigNumber row < 2 ^ 53 → sumZ (smallNumbers row) < 2 ^ 53 →
       ∃ selected,
         Double.validateRow (doubleRow row) = true
         ∧ Double.optimizeRow (doubleRow row)
           = Ok (Double.OptimizationResult.mk (Double.of_int <$> selected)
                   (Double.of_int (sumZ selected)) (doubleRow row))
         ∧ Double.le (Double.of_int (sumZ selected))
                     (Double.of_int (bigNumber row)) = true
         ∧ sumZ selected ≤ bigNumber row
         ∧ Double.reduce_sum (Double.of_int <$> selected) = Double.of_int (sumZ selected)
         ∧ Sorted Z.le selected
         ∧ selected ⊆+ smallNumbers row
         ∧ (∀ v, (count_occ Z.eq_dec selected v
                  ≤ count_occ Z.eq_dec (smallNumbers row) v)%nat)).
Proof.
  split.
  - intros row (_ & _ & Hpos)%double_validateRow_true Hvalid.
    assert (Forall positiveDouble (Double.smallNumbers row)) as Hall.
    { rewrite Forall_forall in *. intros x Hx. split; auto. }
    destruct (double_optimizeRow_total row) as (selected & Hrow & Hsub & Hfind).
    eexists. split; [done|]. simpl. split_and!; [done|done| |done].
    by eapply double_optimizeRow_sorted.
  - intros row Hvalid Htarget Hsum.
    destruct (optimizeRow_double_valid row Hvalid Htarget Hsum)
      as (selected & _ & Hdvalid & Hrun & Hsub & Hsorted & Hsmall & Hfit & _).
    apply StronglySorted_Sorted in Hsorted.
    exists selected. split_and!; try done.
    + rewrite le_exact by lia. apply Z.leb_le. lia.
    + lia.
    + apply double_reduce_sum; [|lia]. eapply Forall_impl; [done|]. simpl. lia.
    + intros v. by apply submseteq_count_occ.
Qed.

Lemma optimizeRow_feasible_double_witness :
  (∃ r, Double.optimizeRow
          (Double.mkRow (Double.decimal 6 10)
             [Double.decimal 3 10; Double.decimal 1 10; Double.decimal 2 10]) = Ok r
        ∧ Double.OptimizationResult.originalRow r
          = Double.mkRow (Double.decimal 6 10)
              [Double.decimal 3 10; Double.decimal 1 10; Double.decimal 2 10]
        ∧ Double.OptimizationResult.sum r
          = Double.reduce_sum (Double.OptimizationResult.selectedNumbers r)
        ∧ Sorted (λ a b, Double.le a b = true)
                 (Double.OptimizationResult.selectedNumbers r)
        ∧ Double.OptimizationResult.selectedNumbers r
          ⊆+ [Double.decimal 3 10; Double.decimal 1 10; Double.decimal 2 10])
  ∧ (∃ selected,
       Double.validateRow (doubleRow (mkRow 15 [5; 10; 3; 7])) = true
       ∧ Double.optimizeRow (doubleRow (mkRow 15 [5; 10; 3; 7]))
         = Ok (Double.OptimizationResult.mk (Double.of_int <$> selected)
                 (Double.of_int (sumZ selected)) (doubleRow (mkRow 15 [5; 10; 3; 7])))
       ∧ Double.le (Double.of_int (sumZ selected)) (Double.of_int 15) = true
       ∧ sumZ selected ≤ 15
       ∧ Double.reduce_sum (Double.of_int <$> selected) = Double.of_int (sumZ selected)
       ∧ Sorted Z.le selected
       ∧ selected ⊆+ [5; 10; 3; 7]
       ∧ (∀ v, (count_occ Z.eq_dec selected v
                ≤ count_occ Z.eq_dec [5; 10; 3; 7]%Z v)%nat)).
Proof.
  split.
  - apply (proj1 optimizeRow_feasible_double
             (Double.mkRow (Double.decimal 6 10)
                [Double.decimal 3 10; Double.decimal 1 10; Double.decimal 2 10]));
      [reflexivity|repeat constructor].
  - exact (proj2 optimizeRow_feasible_double (mkRow 15 [5; 10; 3; 7])
             eq_refl eq_refl eq_refl).
Defined.

(** ** Rows of any kind *)

(** X5. On every row of doubles, valid or not ([NaN], the infinities,
    negative numbers and any number of candidates included), [optimizeRow]
    returns: the selection is a sub-multiset of the candidates, the sum is the
    one [reduce] computes of it, and the row is handed back. *)
Theorem optimizeRow_any_row_double (row : Double.CSVRow) :
  ∃ r, Double.optimizeRow row = Ok r
       ∧ Double.OptimizationResult.selectedNumbers r ⊆+ Double.smallNumbers row
       ∧ Double.OptimizationResult.sum r
         = Double.reduce_sum (Double.OptimizationResult.selectedNumbers r)
       ∧ Double.OptimizationResult.originalRow r = row.
Proof.
  destruct (double_optimizeRow_total row) as (selected & Hrow & Hsub & _).
  eexists. split; [done|]. by simpl.
Qed.

(** ** Integers above [2^53] *)

(** Above [2^53] the two embeddings part: [5 + 9007199254740996] is
    rounded to [9007199254741000], so in double precision both candidates are
    selected for that target, while the exact sum exceeds it. *)
Example optimizeRow_large_integers :
  Double.optimizeRow (doubleRow (mkRow 9007199254741000 [5; 9007199254740996]))
  = Ok (Double.OptimizationResult.mk
          [Double.of_int 5; Double.of_int 9007199254740996]
          (Double.of_int 9007199254741000)
          (doubleRow (mkRow 9007199254741000 [5; 9007199254740996])))
  ∧ optimizeRow (mkRow 9007199254741000 [5; 9007199254740996])
    = Ok (OptimizationResult.mk [9007199254740996] 9007199254740996
            (mkRow 9007199254741000 [5; 9007199254740996])).
Proof. split; vm_compute; reflexivity. Qed.

(** ** The nearest-predecessor search *)




(** ** Further properties on rows of integers *)

(** X4. On integers, where double precision is exact, the combination
    loop of [findOptimalSubset] never meets an entry that does not fit: for a
    left entry that fits under the target, the entry [findBestSum] returns
    from the sorted sums of the right half fits under what remains, so the
    test [totalSum <= target] holds. (On decimals it can fail: for
    [{bigNumber: 0.11, smallNumbers: [0.04, 0.07]}], [0.04 + 0.07] rounds
    above [0.11].) *)
Theorem combineStep_total_fits_integers (right : list Z) (target : Z)
    (leftSum : SubsetSum.t) :
  Forall (λ x, 0 ≤ x) right →
  0 ≤ SubsetSum.sum leftSum ≤ target → target < 2 ^ 53 →
  SubsetSum.sum leftSum + sumZ right < 2 ^ 53 →
  ∃ bestRightSum,
    Double.findBestSum
      (Double.js_sort Double.bySum
         (Double.generateAllSubsetSums (Double.of_int <$> right)))
      (Double.sub (Double.of_int target) (Double.of_int (SubsetSum.sum leftSum)))
    = Ok (doubleSubsetSum bestRightSum)
    ∧ Double.le
        (Double.add (Double.of_int (SubsetSum.sum leftSum))
                    (Double.SubsetSum.sum (doubleSubsetSum bestRightSum)))
        (Double.of_int target) = true.
Proof.
  intros Hall Hleft Htarget Hbound. pose proof (sumZ_nonneg _ Hall) as Hnn.
  destruct (combineStep_total_fits right target leftSum ltac:(lia))
    as (bestRightSum & Hbest & Hfit).
  assert (Forall (λ e, 0 ≤ SubsetSum.sum e < 2 ^ 53)
            (js_sort bySum (generateAllSubsetSums right))) as Hsums.
  { apply Forall_forall. intros e He. rewrite js_sort_perm in He.
    apply generateAllSubsetSums_bounds in He; [lia|done]. }
  assert (0 ≤ SubsetSum.sum bestRightSum ≤ sumZ right) as Hr.
  { destruct (findBestSum_total (js_sort bySum (generateAllSubsetSums right))
                (target - SubsetSum.sum leftSum)) as (e & He & Hnil & Hin).
    rewrite Hbest in He. injection He as <-.
    destruct (js_sort bySum (generateAllSubsetSums right)) as [|e0 es] eqn:Hsorted.
    - rewrite Hnil by done. simpl. lia.
    - assert (bestRightSum ∈ generateAllSubsetSums right) as Hgen
        by (rewrite <- (js_sort_perm bySum), Hsorted; by apply Hin).
      by apply generateAllSubsetSums_bounds in Hgen. }
  exists bestRightSum. split.
  - rewrite double_generateAllSubsetSums by (done || lia).
    rewrite double_js_sort_bySum, sub_exact by (lia || by rewrite js_sort_perm in Hsums).
    apply double_findBestSum; [done|lia|done].
  - simpl. rewrite add_exact, le_exact by lia. apply Z.leb_le. lia.
Qed.

Lemma combineStep_total_fits_integers_witness :
  ∃ bestRightSum,
    Double.findBestSum
      (Double.js_sort Double.bySum
         (Double.generateAllSubsetSums (Double.of_int <$> [4; 5; 6])))
      (Double.sub (Double.of_int 10)
                  (Double.of_int (SubsetSum.sum (SubsetSum.mk 3 [1; 2]))))
    = Ok (doubleSubsetSum bestRightSum)
    ∧ Double.le
        (Double.add (Double.of_int (SubsetSum.sum (SubsetSum.mk 3 [1; 2])))
                    (Double.SubsetSum.sum (doubleSubsetSum bestRightSum)))
        (Double.of_int 10) = true.
Proof.
  apply (combineStep_total_fits_integers [4; 5; 6] 10 (SubsetSum.mk 3 [1; 2]));
    [repeat constructor; lia|simpl; lia|reflexivity|reflexivity].
Defined.

(** The row of decimals on which the test of the loop fails. *)
Example combineStep_decimal_total :
  Double.gt (Double.decimal 4 100) (Double.decimal 11 100) = false
  ∧ Double.findBestSum
      (Double.js_sort Double.bySum (Double.generateAllSubsetSums [Double.decimal 7 100]))
      (Double.sub (Double.decimal 11 100) (Double.decimal 4 100))
    = Ok (Double.SubsetSum.mk (Double.decimal 7 100) [Double.decimal 7 100])
  ∧ Double.le (Double.add (Double.decimal 4 100) (Double.decimal 7 100))
              (Double.decimal 11 100) = false.
Proof. split_and!; vm_compute; reflexivity. Qed.

(** X6. On integers the optimality of [optimizeRow] does not need the
    limits of [validateRow]: on every row of at most 60 candidates, none
    negative (zero is allowed), with a target that is not negative, target
    and sum of the candidates below [2^53], the sum returned in double
    precision fits under the target and no sub-multiset that fits has a
    greater sum. *)
Theorem optimizeRow_optimal_60_integers (row : CSVRow) :
  (length (smallNumbers row) ≤ 60)%nat →
  Forall (λ num, 0 ≤ num) (smallNumbers row) →
  0 ≤ bigNumber row < 2 ^ 53 → sumZ (smallNumbers row) < 2 ^ 53 →
  ∃ selected,
    Double.optimizeRow (doubleRow row)
    = Ok (Double.OptimizationResult.mk (Double.of_int <$> selected)
            (Double.of_int (sumZ selected)) (doubleRow row))
    ∧ selected ⊆+ smallNumbers row
    ∧ sumZ selected ≤ bigNumber row
    ∧ ∀ sub, sub ⊆+ smallNumbers row → sumZ sub ≤ bigNumber row →
             sumZ sub ≤ sumZ selected.
Proof.
  intros Hlen Hall Htarget Hsum.
  destruct (optimizeRow_double row Htarget Hall Hsum) as (selected & Hrow & Hfind & Hrun).
  destruct (optimizeRow_optimal_60 row Hlen Hall ltac:(lia)) as (r & Hr & Hfit & Hopt).
  rewrite Hrow in Hr. injection Hr as <-. simpl in Hfit, Hopt.
  exists selected. split_and!; [done| |done|done].
  by destruct (findOptimalSubset_selection _ _ _ Hfind).
Qed.

Lemma optimizeRow_optimal_60_integers_witness :
  ∃ selected,
    Double.optimizeRow (doubleRow (mkRow 7 [0; 9; 0; 2; 1; 1; 1; 1; 1; 1; 1; 1; 1; 1]))
    = Ok (Double.OptimizationResult.mk (Double.of_int <$> selected)
            (Double.of_int (sumZ selected))
            (doubleRow (mkRow 7 [0; 9; 0; 2; 1; 1; 1; 1; 1; 1; 1; 1; 1; 1])))
    ∧ selected ⊆+ [0; 9; 0; 2; 1; 1; 1; 1; 1; 1; 1; 1; 1; 1]
    ∧ sumZ selected ≤ 7
    ∧ ∀ sub, sub ⊆+ [0; 9; 0; 2; 1; 1; 1; 1; 1; 1; 1; 1; 1; 1] → sumZ sub ≤ 7 →
             sumZ sub ≤ sumZ selected.
Proof.
  apply (optimizeRow_optimal_60_integers
           (mkRow 7 [0; 9; 0; 2; 1; 1; 1; 1; 1; 1; 1; 1; 1; 1]));
    [simpl; lia|repeat constructor; lia|simpl; lia|reflexivity].
Defined.

(** X8. On a valid row of integers, target and sum of the candidates
    below [2^53]: if some sub-multiset of the candidates sums to the target
    exactly, the sum [optimizeRow] returns in double precision is the
    target. *)
Theorem optimizeRow_exact_hit_integers (row : CSVRow) :
  validateRow row = true →
  bigNumber row < 2 ^ 53 → sumZ (smallNumbers row) < 2 ^ 53 →
  (∃ sub, sub ⊆+ smallNumbers row ∧ sumZ sub = bigNumber row) →
  ∃ r, Double.optimizeRow (doubleRow row) = Ok r
       ∧ Double.OptimizationResult.sum r = Double.bigNumber (doubleRow row).
Proof.
  intros Hvalid Htarget Hsum Hhit.
  destruct (optimizeRow_double_valid row Hvalid Htarget Hsum)
    as (selected & Hrow & _ & Hrun & _).
  destruct (optimizeRow_exact_hit row Hvalid Hhit) as (r & Hr & Hsum_r).
  rewrite Hrow in Hr. injection Hr as <-. simpl in Hsum_r.
  eexists. split; [done|]. simpl. by rewrite Hsum_r.
Qed.

Lemma optimizeRow_exact_hit_integers_witness :
  ∃ r, Double.optimizeRow (doubleRow (mkRow 15 [5; 10; 3; 7])) = Ok r
       ∧ Double.OptimizationResult.sum r = Double.bigNumber (doubleRow (mkRow 15 [5; 10; 3; 7])).
Proof.
  apply (optimizeRow_exact_hit_integers (mkRow 15 [5; 10; 3; 7]) eq_refl eq_refl eq_refl).
  exists [5; 10]. split; [|done].
  apply submseteq_skip, submseteq_skip, submseteq_nil_l.
Defined.

(** X10. On valid rows of integers, targets and sums of the candidates
    below [2^53], the sum [optimizeRow] returns in double precision grows with
    the row: a target at least as large and candidates that include the others
    as a sub-multiset give a sum at least as large. *)
Theorem optimizeRow_monotone_integers (target target' : Z) (candidates candidates' : list Z) :
  validateRow (mkRow target candidates) = true →
  validateRow (mkRow target' candidates') = true →
  target' < 2 ^ 53 → sumZ candidates' < 2 ^ 53 →
  target ≤ target' → candidates ⊆+ candidates' →
  ∃ r r', Double.optimizeRow (doubleRow (mkRow target candidates)) = Ok r
          ∧ Double.optimizeRow (doubleRow (mkRow target' candidates')) = Ok r'
          ∧ Double.le (Double.OptimizationResult.sum r)
                      (Double.OptimizationResult.sum r') = true.
Proof.
  intros Hvalid Hvalid' Htarget' Hsum' Htarget Hcand.
  pose proof (validateRow_nonneg _ Hvalid') as [_ Hall']. simpl in Hall'.
  destruct (sumZ_submseteq_le _ _ Hall' Hcand) as [_ Hsum].
  destruct (optimizeRow_double_valid _ Hvalid ltac:(simpl; lia) ltac:(simpl; lia))
    as (sel & Hrow & _ & Hrun & _ & _ & _ & Hfit & _).
  destruct (optimizeRow_double_valid _ Hvalid' Htarget' Hsum')
    as (sel' & Hrow' & _ & Hrun' & _ & _ & _ & Hfit' & _).
  destruct (optimizeRow_monotone _ _ _ _ Hvalid Hvalid' Htarget Hcand)
    as (r & r' & Hr & Hr' & Hle).
  rewrite Hrow in Hr. rewrite Hrow' in Hr'. injection Hr as <-. injection Hr' as <-.
  simpl in *. eexists _, _. split_and!; [done..|]. simpl.
  rewrite le_exact by lia. by apply Z.leb_le.
Qed.

Lemma optimizeRow_monotone_integers_witness :
  ∃ r r', Double.optimizeRow (doubleRow (mkRow 10 [3; 4])) = Ok r
          ∧ Double.optimizeRow (doubleRow (mkRow 12 [4; 5; 3])) = Ok r'
          ∧ Double.le (Double.OptimizationResult.sum r)
                      (Double.OptimizationResult.sum r') = true.
Proof.
  apply (optimizeRow_monotone_integers 10 12 [3; 4] [4; 5; 3]);
    [reflexivity..|lia|].
  apply (submseteq_trans _ [4; 3]); [apply submseteq_swap|].
  apply submseteq_skip, (submseteq_cons 5), submseteq_skip, submseteq_nil_l.
Defined.

(** X11. On valid rows of integers, target and sum of the candidates
    below [2^53], the sum [optimizeRow] returns in double precision does not
    depend on the order of the candidates. *)
Theorem optimizeRow_permutation_integers (target : Z) (candidates candidates' : list Z) :
  validateRow (mkRow target candidates) = true →
  target < 2 ^ 53 → sumZ candidates < 2 ^ 53 →
  candidates ≡ₚ candidates' →
  ∃ r r', Double.optimizeRow (doubleRow (mkRow target candidates)) = Ok r
          ∧ Double.optimizeRow (doubleRow (mkRow target candidates')) = Ok r'
          ∧ Double.OptimizationResult.sum r = Double.OptimizationResult.sum r'.
Proof.
  intros Hvalid Htarget Hsum Hperm.
  assert (validateRow (mkRow target candidates') = true) as Hvalid'.
  { eapply validateRow_submseteq; [done|]. by rewrite Hperm. }
  destruct (optimizeRow_double_valid _ Hvalid Htarget Hsum) as (sel & Hrow & _ & Hrun & _).
  destruct (optimizeRow_double_valid _ Hvalid' Htarget
              ltac:(simpl; by rewrite <- (sumZ_perm _ _ Hperm)))
    as (sel' & Hrow' & _ & Hrun' & _).
  destruct (optimizeRow_permutation _ _ _ Hvalid Hperm) as (r & r' & Hr & Hr' & Heq).
  rewrite Hrow in Hr. rewrite Hrow' in Hr'. injection Hr as <-. injection Hr' as <-.
  simpl in Heq. eexists _, _. split_and!; [done..|]. simpl. by rewrite Heq.
Qed.

Lemma optimizeRow_permutation_integers_witness :
  ∃ r r', Double.optimizeRow (doubleRow (mkRow 10 [3; 4; 5])) = Ok r
          ∧ Double.optimizeRow (doubleRow (mkRow 10 [4; 3; 5])) = Ok r'
          ∧ Double.OptimizationResult.sum r = Double.OptimizationResult.sum r'.
Proof.
  apply (optimizeRow_permutation_integers 10 [3; 4; 5] [4; 3; 5]); [reflexivity..|].
  apply perm_swap.
Defined.

(** X12. On valid rows of integers, target and sum of the candidates
    below [2^53], optimizing in double precision is idempotent: run again on
    the row whose candidates are the selection just returned, with the same
    target, [optimizeRow] returns that selection and that sum. *)
Theorem optimizeRow_idempotent_integers (row : CSVRow) :
  validateRow row = true →
  bigNumber row < 2 ^ 53 → sumZ (smallNumbers row) < 2 ^ 53 →
  ∃ r, Double.optimizeRow (doubleRow row) = Ok r
       ∧ Double.optimizeRow
           (Double.mkRow (Double.bigNumber (doubleRow row))
                         (Double.OptimizationResult.selectedNumbers r))
         = Ok (Double.OptimizationResult.mk
                 (Double.OptimizationResult.selectedNumbers r)
                 (Double.OptimizationResult.sum r)
                 (Double.mkRow (Double.bigNumber (doubleRow row))
                               (Double.OptimizationResult.selectedNumbers r))).
Proof.
  intros Hvalid Htarget Hsum. pose proof (validateRow_nonneg row Hvalid) as [Hbig Hall].
  destruct (optimizeRow_double_valid row Hvalid Htarget Hsum)
    as (sel & Hrow & _ & Hrun & Hsub & _ & _ & Hfit & _).
  destruct (optimizeRow_idempotent row Hvalid) as (r & Hr & Hagain).
  rewrite Hrow in Hr. injection Hr as <-. simpl in Hagain.
  eexists. split; [done|]. simpl.
  destruct (sumZ_submseteq_le _ _ Hall Hsub) as [Hsel Hbound].
  apply (optimizeRow_double_run (mkRow (bigNumber row) sel) _
           ltac:(simpl; lia) Hsel ltac:(simpl; lia) Hagain).
Qed.

Lemma optimizeRow_idempotent_integers_witness :
  ∃ r, Double.optimizeRow (doubleRow (mkRow 10 [3; 3; 4; 4; 5])) = Ok r
       ∧ Double.optimizeRow
           (Double.mkRow (Double.bigNumber (doubleRow (mkRow 10 [3; 3; 4; 4; 5])))
                         (Double.OptimizationResult.selectedNumbers r))
         = Ok (Double.OptimizationResult.mk
                 (Double.OptimizationResult.selectedNumbers r)
                 (Double.OptimizationResult.sum r)
                 (Double.mkRow (Double.bigNumber (doubleRow (mkRow 10 [3; 3; 4; 4; 5])))
                               (Double.OptimizationResult.selectedNumbers r))).
Proof.
  exact (optimizeRow_idempotent_integers (mkRow 10 [3; 3; 4; 4; 5]) eq_refl eq_refl eq_refl).
Defined.

(** Rows of decimals: the sum shrinks when a candidate is added, changes
    with the order of the candidates, and shrinks on a second run; and an
    exact hit is missed. *)
Example optimizeRow_decimal_rows :
  (Double.optimizeRow
     (Double.mkRow (Double.decimal 273 100) [Double.decimal 49 100; Double.decimal 177 100])
   = Ok (Double.OptimizationResult.mk [Double.decimal 49 100; Double.decimal 177 100]
           (Double.add (Double.decimal 49 100) (Double.decimal 177 100))
           (Double.mkRow (Double.decimal 273 100)
              [Double.decimal 49 100; Double.decimal 177 100]))
   ∧ Double.optimizeRow
       (Double.mkRow (Double.decimal 273 100)
          [Double.decimal 49 100; Double.decimal 224 100; Double.decimal 177 100])
     = Ok (Double.OptimizationResult.mk [Double.decimal 224 100] (Double.decimal 224 100)
             (Double.mkRow (Double.decimal 273 100)
                [Double.decimal 49 100; Double.decimal 224 100; Double.decimal 177 100]))
   ∧ Double.gt (Double.add (Double.decimal 49 100) (Double.decimal 177 100))
               (Double.decimal 224 100) = true)
  ∧ (Double.optimizeRow
       (Double.mkRow (Double.decimal 6 10)
          [Double.decimal 3 10; Double.decimal 2 10; Double.decimal 1 10])
     = Ok (Double.OptimizationResult.mk [Double.decimal 2 10; Double.decimal 3 10]
             (Double.decimal 5 10)
             (Double.mkRow (Double.decimal 6 10)
                [Double.decimal 3 10; Double.decimal 2 10; Double.decimal 1 10])))
  ∧ (Double.optimizeRow
       (Double.mkRow (Double.decimal 165 100)
          [Double.decimal 6 10; Double.decimal 105 100;
           Double.decimal 227 100; Double.decimal 155 100])
     = Ok (Double.OptimizationResult.mk [Double.decimal 6 10; Double.decimal 105 100]
             (Double.decimal 165 100)
             (Double.mkRow (Double.decimal 165 100)
                [Double.decimal 6 10; Double.decimal 105 100;
                 Double.decimal 227 100; Double.decimal 155 100]))
     ∧ Double.optimizeRow
         (Double.mkRow (Double.decimal 165 100) [Double.decimal 6 10; Double.decimal 105 100])
       = Ok (Double.OptimizationResult.mk [Double.decimal 105 100] (Double.decimal 105 100)
               (Double.mkRow (Double.decimal 165 100)
                  [Double.decimal 6 10; Double.decimal 105 100])))
  ∧ (Double.reduce_sum [Double.decimal 53 100; Double.decimal 59 100; Double.decimal 65 100]
     = Double.decimal 177 100
     ∧ Double.optimizeRow
         (Double.mkRow (Double.decimal 177 100)
            [Double.decimal 53 100; Double.decimal 59 100;
             Double.decimal 65 100; Double.decimal 294 100])
       = Ok (Double.OptimizationResult.mk [Double.decimal 59 100; Double.decimal 65 100]
               (Double.add (Double.decimal 59 100) (Double.decimal 65 100))
               (Double.mkRow (Double.decimal 177 100)
                  [Double.decimal 53 100; Double.decimal 59 100;
                   Double.decimal 65 100; Double.decimal 294 100]))
     ∧ Double.gt (Double.decimal 177 100)
                 (Double.add (Double.decimal 59 100) (Double.decimal 65 100)) = true).
Proof. split_and!; vm_compute; reflexivity. Qed.

(** ** [validateCSV] on rows of doubles *)

(** Off [NaN] the test [x <= 0] is the negation of [x > 0]. *)
Lemma le_zero_gt x :
  x ≠ Double.NaN → Double.le x Double.zero = negb (Double.gt x Double.zero).
Proof. by destruct x as [[]|[]| |[] ? ?]. Qed.

Lemma double_existsb_nonpositive xs :
  Forall (λ num, num ≠ Double.NaN) xs →
  existsb (λ num, Double.le num Double.zero) xs
  = negb (forallb (λ num, Double.gt num Double.zero) xs).
Proof.
  induction 1 as [|x xs Hx _ IH]; [done|]. simpl.
  rewrite IH, le_zero_gt by done. by destruct (Double.gt x Double.zero).
Qed.

Lemma double_rowErrors_nil index row :
  Double.bigNumber row ≠ Double.NaN →
  Forall (λ num, num ≠ Double.NaN) (Double.smallNumbers row) →
  Double.rowErrors index row = [] ↔ Double.validateRow row = true.
Proof.
  intros Hbig Hall. unfold Double.rowErrors, Double.validateRow.
  rewrite le_zero_gt, double_existsb_nonpositive by done.
  destruct (Double.gt (Double.bigNumber row) Double.zero); simpl; [|done].
  destruct (forallb _ _); simpl; [|by rewrite andb_false_r].
  rewrite andb_true_r.
  destruct (Nat.ltb_spec 12 (length (Double.smallNumbers row))).
  - split; [done|]. intros ?%Nat.leb_le. lia.
  - split; [|done]. intros _. by apply Nat.leb_le.
Qed.

Lemma double_imap_rowErrors_nil rows :
  Forall (λ row, Double.bigNumber row ≠ Double.NaN
                 ∧ Forall (λ num, num ≠ Double.NaN) (Double.smallNumbers row)) rows →
  mjoin (imap Double.rowErrors rows) = []
  ↔ Forall (λ row, Double.validateRow row = true) rows.
Proof.
  intros Hrows.
  assert (∀ k, mjoin (imap (λ i, Double.rowErrors (k + i)) rows) = []
               ↔ Forall (λ row, Double.validateRow row = true) rows) as Hgen.
  { induction Hrows as [|row rows [Hbig Hall] _ IH]; intros k; simpl;
      [by split; [constructor|]|].
    rewrite app_nil, double_rowErrors_nil, Forall_cons, <- (IH (S k)) by done.
    rewrite (imap_ext _ (λ i, Double.rowErrors (S k + i)) rows); [done|].
    intros i x _. simpl. f_equal. lia. }
  apply (Hgen 0%nat).
Qed.

(** X19. On rows whose numbers are not [NaN], [validateCSV] accepts
    exactly the batches that are not empty and whose rows all pass
    [validateRow], and it reports no error exactly then. ([NaN] passes the
    tests [<= 0] of [validateCSV] and fails the tests [> 0] of
    [validateRow].) *)
Theorem validateCSV_isValid_double (rows : list Double.CSVRow) :
  Forall (λ row, Double.bigNumber row ≠ Double.NaN
                 ∧ Forall (λ num, num ≠ Double.NaN) (Double.smallNumbers row)) rows →
  (CSVParser.isValid (Double.validateCSV rows) = true
   ↔ rows ≠ [] ∧ Forall (λ row, Double.validateRow row = true) rows)
  ∧ (CSVParser.isValid (Double.validateCSV rows) = true
     ↔ CSVParser.errors (Double.validateCSV rows) = []).
Proof.
  intros Hrows. unfold Double.validateCSV. simpl.
  rewrite bool_decide_eq_true, length_zero_iff_nil.
  split; [|done]. rewrite app_nil, double_imap_rowErrors_nil by done.
  destruct rows as [|row rows]; simpl.
  - split; [by intros [? _]|by intros [? _]].
  - split; [by intros [_ ?]|by intros [_ ?]].
Qed.

Lemma validateCSV_isValid_double_witness :
  (CSVParser.isValid
     (Double.validateCSV
        [Double.mkRow (Double.decimal 89 100) [Double.decimal 33 100; Double.decimal 56 100];
         Double.mkRow (Double.of_int 10) [Double.of_int (-2)]]) = true
   ↔ [Double.mkRow (Double.decimal 89 100) [Double.decimal 33 100; Double.decimal 56 100];
      Double.mkRow (Double.of_int 10) [Double.of_int (-2)]] ≠ []
     ∧ Forall (λ row, Double.validateRow row = true)
         [Double.mkRow (Double.decimal 89 100) [Double.decimal 33 100; Double.decimal 56 100];
          Double.mkRow (Double.of_int 10) [Double.of_int (-2)]])
  ∧ (CSVParser.isValid
       (Double.validateCSV
          [Double.mkRow (Double.decimal 89 100) [Double.decimal 33 100; Double.decimal 56 100];
           Double.mkRow (Double.of_int 10) [Double.of_int (-2)]]) = true
     ↔ CSVParser.errors
         (Double.validateCSV
            [Double.mkRow (Double.decimal 89 100) [Double.decimal 33 100; Double.decimal 56 100];
             Double.mkRow (Double.of_int 10) [Double.of_int (-2)]]) = []).
Proof.
  apply (validateCSV_isValid_double
           [Double.mkRow (Double.decimal 89 100) [Double.decimal 33 100; Double.decimal 56 100];
            Double.mkRow (Double.of_int 10) [Double.of_int (-2)]]).
  repeat constructor; vm_compute; discriminate.
Defined.

(** A row with a [NaN] is accepted by [validateCSV] and rejected by
    [validateRow]. *)
Example validateCSV_NaN :
  Double.validateCSV [Double.mkRow Double.NaN [Double.NaN]] = CSVParser.mkValidation true []
  ∧ Double.validateRow (Double.mkRow Double.NaN [Double.NaN]) = false.
Proof. split; vm_compute; reflexivity. Qed.
